(** * B10RL8W: the Hearts simulator and the history interpreter

    A shallow embedding of [src/simulator/simulator.ts] (rules engine,
    state reducers [playCard] and [playRound], driver [playGame]) and of
    [interpretHistory], followed by the properties proved about them.

    Conventions of the embedding.
    - A JavaScript number that is an integer in the program (ranks, points,
      scores) is a [Z]; one that may be fractional (qualities, rewards, the
      values of the random source) is an exact rational [Q].
    - Players compared with [===] carry an allocation stamp ([ref]); an
      object literal [{...player, ...}] allocates a new stamp.  A card is a
      value object, one per suit and rank, so [===] on cards is equality
      of suit and rank.
    - Calls into code that lives outside the simulator (a policy, the action
      recorder of a player) are appended to an event log held in the
      [World]; the world survives a thrown error, as side effects do.
    - A [throw] is the [Err] result of the monad [M]. *)

From Stdlib Require Import List ZArith QArith Bool Arith Lia Permutation.
Import ListNotations.

Local Open Scope Z_scope.

(* ================================================================= *)
(** ** Card model *)

Inductive Suit : Type := clubs | diamonds | spades | hearts.

(** Modelled from the spec: the table [suits] of [src/simulator/index.ts].
    The spec lists the suits as clubs, diamonds, spades, hearts; the table
    gives each suit the number used as index into [playsOutOfSuit]. *)
Definition suits (s : Suit) : nat :=
  match s with clubs => 0 | diamonds => 1 | spades => 2 | hearts => 3 end%nat.

(** Modelled from the spec: [Object.keys(suits)], the suits in the order
    of that table. *)
Definition suitKeys : list Suit := [clubs; diamonds; spades; hearts].

Definition Suit_eqb (a b : Suit) : bool :=
  match a, b with
  | clubs, clubs | diamonds, diamonds | spades, spades | hearts, hearts => true
  | _, _ => false
  end.

(** Modelled from the spec: the type [Card] of [src/simulator/index.ts];
    a value object told apart by suit and rank. *)
Record Card : Type := mkCard { suit : Suit; rank : Z }.

Definition Card_eqb (a b : Card) : bool :=
  Suit_eqb (suit a) (suit b) && (rank a =? rank b).

(** Modelled from the spec: [card.create(suit, rank)] of
    [src/simulator/index.ts], the card of that suit and rank. *)
Definition card_create (s : Suit) (r : Z) : Card := mkCard s r.

(* ================================================================= *)
(** ** Players, tricks, states *)

(** Modelled from the spec: the type [Player].  [policy] is the seat of the
    policy in the tuple given to [playGame]; [recorder] names the private
    action recorder that [recordAction], [assignReward] and [terminate]
    close over (it is shared by every copy of the player); [ref] is the
    identity of the object. *)
Record Player : Type := mkPlayer {
  hand : list Card;
  score : Z;
  playsOutOfSuit : list bool;
  policy : nat;
  recorder : nat;
  ref : nat
}.

(** [Trick.suit] is [tsuit]: the field name [suit] is taken by [Card]. *)
Record Trick : Type := mkTrick {
  tsuit : option Suit;
  cards : list Card
}.

Record State : Type := mkState {
  players : list Player;
  trick : Trick;
  heartsBroken : bool;
  simplified : bool;
  trickLeader : nat
}.

(* ================================================================= *)
(** ** Rules engine *)

(** [trickWinner]: a left fold over the trick's cards. *)
Definition trickWinner_step (s : option Suit) (winner : option Card) (card : Card)
  : option Card :=
  if (match s with Some s' => Suit_eqb (suit card) s' | None => true end)
     && (match winner with None => true | Some w => rank card >? rank w end)
  then Some card
  else winner.

Definition trickWinner (t : Trick) : option Card :=
  fold_left (trickWinner_step (tsuit t)) (cards t) None.

(** [cardPoints] *)
Definition cardPoints (card : Card) (simplified : bool) : Z :=
  let isHeart := Suit_eqb (suit card) hearts in
  let isSpade := Suit_eqb (suit card) spades in
  let isQueen := rank card =? 12 in
  if isHeart then 1
  else if negb simplified && isQueen && isSpade then 13
  else 0.

(** [trickPoints] *)
Definition trickPoints (t : Trick) (simplified : bool) : Z :=
  fold_left (fun total card => total + cardPoints card simplified) (cards t) 0.

(** [validPlays]: the first argument of the source is the state, of which
    it reads [trick.suit], [simplified] and [heartsBroken]. *)
Definition validPlays (st : State) (hand : list Card) : list Card :=
  match tsuit (trick st) with
  | Some s =>
      let hasSuit :=
        fold_left (fun hasSuit card => hasSuit || Suit_eqb (suit card) s)
                  hand false in
      if hasSuit then filter (fun card => Suit_eqb (suit card) s) hand
      else hand
  | None =>
      if simplified st || heartsBroken st then hand
      else
        let plays :=
          filter (fun card => cardPoints card (simplified st) =? 0) hand in
        if (length plays =? 0)%nat then hand else plays
  end.

(** [playerWithCard] *)
Definition playerWithCard (players : list Player) (s : Suit) (r : Z)
  : option Player :=
  find (fun player =>
          match find (fun card => Suit_eqb (suit card) s && (rank card =? r))
                     (hand player) with
          | Some _ => true
          | None => false
          end) players.

(* ================================================================= *)
(** ** The deck: a JavaScript array *)

(** [shuffleDeck] reads and writes [deck[j]] for an index [j] computed from
    the random source.  A JavaScript array answers every index: reading
    outside [0, length) gives [undefined] ([None]); writing at [j >= length]
    extends the array with holes up to [j]; a negative [j] is an ordinary
    property of the object, kept in [props], and leaves [length] alone. *)
Record JsArray : Type := mkJsArray {
  elems : list (option Card);
  props : list (Z * option Card)
}.

Fixpoint lookupProp (j : Z) (ps : list (Z * option Card)) : option Card :=
  match ps with
  | [] => None
  | (k, v) :: ps' => if k =? j then v else lookupProp j ps'
  end.

Fixpoint update {A : Type} (i : nat) (v : A) (l : list A) : list A :=
  match l, i with
  | [], _ => []
  | _ :: l', O => v :: l'
  | x :: l', S i' => x :: update i' v l'
  end.

(** [deck[j]] *)
Definition jsGet (deck : JsArray) (j : Z) : option Card :=
  if j <? 0 then lookupProp j (props deck)
  else nth (Z.to_nat j) (elems deck) None.

(** [deck[j] = v] *)
Definition jsSet (deck : JsArray) (j : Z) (v : option Card) : JsArray :=
  if j <? 0 then
    mkJsArray (elems deck)
              ((j, v) :: filter (fun kv => negb (fst kv =? j)) (props deck))
  else if (Z.to_nat j <? length (elems deck))%nat then
    mkJsArray (update (Z.to_nat j) v (elems deck)) (props deck)
  else
    mkJsArray (elems deck
                 ++ repeat None (Z.to_nat j - length (elems deck)) ++ [v])
              (props deck).

(** [x | 0] on a number: truncate towards zero, then wrap to 32 bits,
    signed. *)
Definition toInt32 (x : Q) : Z :=
  let z := Z.quot (Qnum x) (Zpos (Qden x)) in
  (z + 2 ^ 31) mod 2 ^ 32 - 2 ^ 31.

(** [freshDeck]: suits in the order of [Object.keys(suits)], ranks 2..14. *)
Definition freshDeck : list Card :=
  flat_map (fun s => map (fun r => card_create s (Z.of_nat r)) (seq 2 13))
           suitKeys.

(** [shuffleDeck]: the loop [for (i = 0; i < deck.length; i++)].  The
    random source is the sequence of the numbers it returns, [random k]
    being the answer to call number [k]; the loop makes one call per
    iteration.  [deck.length] is read afresh at every test and may grow, so
    the loop is run on [fuel]: [None] says it is still running after [fuel]
    iterations. *)
Fixpoint shuffleLoop (fuel : nat) (random : nat -> Q) (i : nat)
                     (deck : JsArray) : option JsArray :=
  if (i <? length (elems deck))%nat then
    match fuel with
    | O => None
    | S fuel' =>
        let j := toInt32 (random i * inject_Z (Z.of_nat (length (elems deck)))) in
        let t := jsGet deck (Z.of_nat i) in
        let deck1 := jsSet deck (Z.of_nat i) (jsGet deck j) in
        let deck2 := jsSet deck1 j t in
        shuffleLoop fuel' random (S i) deck2
    end
  else Some deck.

Definition shuffleDeck (fuel : nat) (deck : JsArray) (random : nat -> Q)
  : option JsArray :=
  shuffleLoop fuel random 0%nat deck.

(** [deck.slice(from, to)] *)
Definition slice {A : Type} (l : list A) (from to : nat) : list A :=
  firstn (to - from) (skipn from l).

(** A dealt hand is usable when none of its slots is [undefined]. *)
Fixpoint definedCards (l : list (option Card)) : option (list Card) :=
  match l with
  | [] => Some []
  | None :: _ => None
  | Some c :: l' =>
      match definedCards l' with
      | Some cs => Some (c :: cs)
      | None => None
      end
  end.

(* ================================================================= *)
(** ** Effects: world, errors, monad *)

Inductive error : Type :=
| NoPlay                (* 'No play was determined' *)
| NoTrickWinner         (* 'No trick winner could be determined at round end' *)
| WinningCardNotFound   (* 'Trick winning card was not found in trick' *)
| NoWinningPlayer       (* 'No player could be associated with the card ...' *)
| TwoOfClubsNotDealt    (* 'The two of clubs was not dealt, ...' *)
| NoStartPlayer         (* 'No player matched the one found to have ...' *)
| EmptyHistory          (* 'Game history is empty or was not terminated' *)
| TypeError             (* a property read on [undefined] *)
| UndefinedCard.        (* a hand is dealt a slot that holds [undefined] *)

Inductive result (A : Type) : Type :=
| Ok (a : A)
| Err (e : error).
Arguments Ok {A} a.
Arguments Err {A} e.

Section Simulator.

Context {Trace : Type}.

(** Modelled from the spec: the type [ActionSummary]. *)
Record ActionSummary : Type := mkSummary {
  action : Card;
  quality : Q;
  trace : Trace
}.

(** Modelled from the spec: the type [Policy], a function of the state, the
    player and the legal plays. *)
Definition Policy : Type := State -> Player -> list Card -> list ActionSummary.

(** The calls that leave the simulator. *)
Inductive Event : Type :=
| PolicyCall (st : State) (p : Player) (plays : list Card)
| RecordAction (actor : Player) (st : State) (a : Card) (q : Q) (t : Trace)
| AssignReward (p : Player) (r : Q).

Record World : Type := mkWorld {
  log : list Event;      (* oldest first *)
  nextRef : nat          (* next unused object stamp *)
}.

Definition M (A : Type) : Type := World -> World * result A.

Definition ret {A : Type} (a : A) : M A := fun w => (w, Ok a).

Definition bind {A B : Type} (m : M A) (k : A -> M B) : M B :=
  fun w =>
    match m w with
    | (w', Ok a) => k a w'
    | (w', Err e) => (w', Err e)
    end.

Definition throw {A : Type} (e : error) : M A := fun w => (w, Err e).

Definition emit (e : Event) : M unit :=
  fun w => (mkWorld (log w ++ [e]) (nextRef w), Ok tt).

(** Allocation of an object: a stamp no live object has. *)
Definition newObject : M nat :=
  fun w => (mkWorld (log w) (S (nextRef w)), Ok (nextRef w)).

Notation "x <- m ;; k" := (bind m (fun x => k))
  (at level 61, m at next level, right associativity).
Notation "m ;;; k" := (bind m (fun _ => k))
  (at level 61, right associativity).

(** [xs.map(f)] with an effectful [f] *)
Fixpoint mapM {A B : Type} (f : A -> M B) (xs : list A) : M (list B) :=
  match xs with
  | [] => ret []
  | x :: xs' => y <- f x ;; ys <- mapM f xs' ;; ret (y :: ys)
  end.

(** [xs.forEach(f)] *)
Fixpoint forEach {A : Type} (f : A -> M unit) (xs : list A) : M unit :=
  match xs with
  | [] => ret tt
  | x :: xs' => f x ;;; forEach f xs'
  end.

(** [for (let i of xs) { state = body(state, i) }] *)
Fixpoint forOf {A S : Type} (xs : list A) (body : S -> A -> M S) (s : S) : M S :=
  match xs with
  | [] => ret s
  | x :: xs' => s' <- body s x ;; forOf xs' body s'
  end.

(** Modelled from the spec: [range] of [src/utils/range], the indices
    [0 .. n-1] in order ("for each of 4 seats", "loop 13 times"). *)
Definition range (n : nat) : list nat := seq 0 n.

(** [xs.map((x, i) => f(x, i))] *)
Fixpoint mapi_from {A B : Type} (i : nat) (f : A -> nat -> B) (xs : list A) : list B :=
  match xs with
  | [] => []
  | x :: xs' => f x i :: mapi_from (S i) f xs'
  end.
Definition mapi {A B : Type} (f : A -> nat -> B) (xs : list A) : list B :=
  mapi_from 0 f xs.

(** Modelled from the spec: the hook [recordAction] of a player.
    [createPlayer] of [src/simulator/index.ts] is missing; the hooks it
    gives a player are calls on the player's recorder, and appear in the
    log. *)
Definition recordAction (actor : Player) (st : State) (a : Card) (q : Q)
                        (t : Trace) : M unit :=
  emit (RecordAction actor st a q t).

(** Modelled from the spec: the hook [assignReward] of a player. *)
Definition assignReward (p : Player) (r : Q) : M unit :=
  emit (AssignReward p r).

(** [player.policy(state, player, plays)]; a seat without a policy is a
    call of [undefined]. *)
Definition callPolicy (policies : list Policy) (st : State) (p : Player)
                      (plays : list Card) : M (list ActionSummary) :=
  match nth_error policies (policy p) with
  | Some f => emit (PolicyCall st p plays) ;;; ret (f st p plays)
  | None => throw TypeError
  end.

(** Modelled from the spec: [createPlayer(policy, hand)], a player with no
    points, no suit broken, and a recorder of its own. *)
Definition createPlayer (policy : nat) (hand : list Card) : M Player :=
  r <- newObject ;;
  ret (mkPlayer hand 0 [false; false; false; false] policy r r).

(* ================================================================= *)
(** ** State reducers *)

(** [a > b] on numbers *)
Definition Qgtb (a b : Q) : bool := negb (Qle_bool a b).

(** The reduction that picks the summary of highest quality; the first
    one wins a tie. *)
Definition selectPlay (summaries : list ActionSummary) : option ActionSummary :=
  fold_left
    (fun (selection : option ActionSummary) (summary : ActionSummary) =>
       match selection with
       | None => Some summary
       | Some sel =>
           if Qgtb (quality summary) (quality sel) then Some summary
           else selection
       end)
    summaries None.

(** The object literal of [playCard],
    [{...player, hand: ..., playsOutOfSuit: ...}], allocated at stamp [r]. *)
Definition afterPlay (tr : Trick) (act : Card) (player : Player) (r : nat)
  : Player :=
  mkPlayer
    (filter (fun handCard => negb (Card_eqb handCard act)) (hand player))
    (score player)
    (match tsuit tr with
     | Some ts =>
         if negb (Suit_eqb ts (suit act)) then
           mapi (fun b s => if (s =? suits ts)%nat then true else b)
                (playsOutOfSuit player)
         else playsOutOfSuit player
     | None => playsOutOfSuit player
     end)
    (policy player)
    (recorder player)
    r.

(** [playCard]: the state reducer for playing a single card. *)
Definition playCard (state : State) (actor : Player) (summary : ActionSummary)
  : M State :=
  let act := action summary in
  let tr := trick state in
  recordAction actor state act (quality summary) (trace summary) ;;;
  players' <-
    mapM (fun player =>
            if (ref player =? ref actor)%nat then
              r <- newObject ;; ret (afterPlay tr act player r)
            else ret player)
         (players state) ;;
  ret (mkState
         players'
         (mkTrick (match tsuit tr with
                   | None => Some (suit act)
                   | Some s => Some s
                   end)
                  (cards tr ++ [act]))
         (heartsBroken state || negb (cardPoints act (simplified state) =? 0))
         (simplified state)
         (trickLeader state)).

(** [cards.indexOf(card)] *)
Fixpoint indexOf (c : Card) (cs : list Card) : option nat :=
  match cs with
  | [] => None
  | x :: cs' =>
      if Card_eqb x c then Some 0%nat
      else match indexOf c cs' with
           | Some i => Some (S i)
           | None => None
           end
  end.

(** The body of the loop of [playRound]: seat [(trickLeader + i) % 4] is
    offered its valid plays and plays the best-rated answer. *)
Definition playTurn (policies : list Policy) (state : State) (i : nat) : M State :=
  match nth_error (players state) ((trickLeader state + i) mod 4) with
  | None => throw TypeError
  | Some player =>
      let plays := validPlays state (hand player) in
      summaries <- callPolicy policies state player plays ;;
      match selectPlay summaries with
      | Some play => playCard state player play
      | None => throw NoPlay
      end
  end.

(** The object literal of [playRound], [{...player, score: ...}]. *)
Definition withPoints (points : Z) (player : Player) (r : nat) : Player :=
  mkPlayer (hand player) (score player + points) (playsOutOfSuit player)
           (policy player) (recorder player) r.

(** The rest of [playRound], after the loop: the trick is resolved. *)
Definition resolveTrick (state : State) : M State :=
  let cs := cards (trick state) in
  let ps := players state in
  let card := trickWinner (trick state) in
  let points := trickPoints (trick state) (simplified state) in
  match card with
  | None => throw NoTrickWinner
  | Some card =>
      match indexOf card cs with
      | None => throw WinningCardNotFound
      | Some cardIndex =>
          let winningSeat := ((cardIndex + trickLeader state) mod 4)%nat in
          match nth_error ps winningSeat with
          | None => throw NoWinningPlayer
          | Some winningPlayer =>
              forEach
                (fun player =>
                   if negb (points =? 0) && (ref player =? ref winningPlayer)%nat
                   then assignReward player (inject_Z (- points))
                   else
                     (* the bonus of expected points per turn *)
                     assignReward player
                       (if simplified state then 1 # 4 else 1 # 2)%Q)
                ps ;;;
              players' <-
                mapM (fun player =>
                        if negb (points =? 0) && (ref player =? ref winningPlayer)%nat
                        then r <- newObject ;; ret (withPoints points player r)
                        else ret player)
                     ps ;;
              ret (mkState players' (mkTrick None []) (heartsBroken state)
                           (simplified state) winningSeat)
          end
      end
  end.

(** [playRound]: the state reducer for an entire round. *)
Definition playRound (policies : list Policy) (startState : State) : M State :=
  state <- forOf (range 4) (playTurn policies) startState ;;
  resolveTrick state.

(* ================================================================= *)
(** ** Histories *)

(** Modelled from the spec: the type [History] of
    [src/simulator/index.ts], an entry of a player's sealed record; the
    fields are those [interpretHistory] reads. *)
Inductive History : Type :=
| Terminal (reward : Q) (actor : Player)
| Step (state : State) (actor : Player) (action : Card) (quality : Q)
       (reward : Q) (trace : Trace).

Fixpoint setLastReward (r : Q) (h : list History) : list History :=
  match h with
  | [] => []
  | [Step st p a q _ t] => [Step st p a q r t]
  | x :: h' => x :: setLastReward r h'
  end.

(** Modelled from the spec: what a recorder holds after the calls of the
    log. [recordAction] appends one entry, [assignReward] attaches the
    reward to the most recent entry. *)
Definition recorded (rec : nat) (events : list Event) : list History :=
  fold_left
    (fun acc ev =>
       match ev with
       | RecordAction p st a q t =>
           if (recorder p =? rec)%nat then acc ++ [Step st p a q 0%Q t] else acc
       | AssignReward p r =>
           if (recorder p =? rec)%nat then setLastReward r acc else acc
       | PolicyCall _ _ _ => acc
       end)
    events [].

(** Modelled from the spec: [player.terminate()] seals the record with a
    terminal entry for the player and returns it, oldest entry first.  The
    spec does not give the terminal entry's reward; it is 0 here. *)
Definition terminate (p : Player) : M (list History) :=
  fun w => (w, Ok (recorded (recorder p) (log w) ++ [Terminal 0%Q p])).

(* ================================================================= *)
(** ** The driver *)

(** [players.indexOf(startingPlayer)] *)
Fixpoint indexOfPlayer (p : Player) (ps : list Player) : option nat :=
  match ps with
  | [] => None
  | x :: ps' =>
      if (ref x =? ref p)%nat then Some 0%nat
      else match indexOfPlayer p ps' with
           | Some i => Some (S i)
           | None => None
           end
  end.

(** The deal: [policies.map((policy, seat) => createPlayer(policy,
    deck.slice(seat * 13, (1 + seat) * 13)))].  A hand is typed [Card[]].
    After draws out of range a dealt slot may hold [undefined]; the program
    then goes on with an ill-typed hand and raises a TypeError where it
    first reads a property of that slot ([card.suit] in [playerWithCard] or
    [validPlays], [action.suit] in [playCard]).  The embedding does not
    follow such a run: it stops it at the deal, with [UndefinedCard]. *)
Definition deal (policies : list Policy) (deck : JsArray) : M (list Player) :=
  mapM (fun seat =>
          match definedCards (slice (elems deck) (seat * 13) ((1 + seat) * 13)) with
          | Some hand => createPlayer seat hand
          | None => throw UndefinedCard
          end)
       (seq 0 (length policies)).

(** The first half of [playGame]: shuffle, deal, find the seat of the two
    of clubs, build the first state. *)
Definition initialState (fuel : nat) (policies : list Policy)
    (simplified : bool) (random : nat -> Q) : World -> option (World * result State) :=
  fun w =>
    match shuffleDeck fuel (mkJsArray (map Some freshDeck) []) random with
    | None => None
    | Some deck =>
        Some
          ((players <- deal policies deck ;;
            match playerWithCard players clubs 2 with
            | None => throw TwoOfClubsNotDealt
            | Some startingPlayer =>
                match indexOfPlayer startingPlayer players with
                | None => throw NoStartPlayer
                | Some startingSeat =>
                    ret (mkState players (mkTrick None []) false simplified
                                 startingSeat)
                end
            end) w)
    end.

(** [playGame] up to its last statement: the state after the 13 rounds. *)
Definition playGameState (fuel : nat) (policies : list Policy)
    (simplified : bool) (random : nat -> Q) : World -> option (World * result State) :=
  fun w =>
    match initialState fuel policies simplified random w with
    | None => None
    | Some (w', Ok state) =>
        Some (forOf (range 13) (fun state _ => playRound policies state) state w')
    | Some (w', Err e) => Some (w', Err e)
    end.

(** [playGame]: a history for each player. *)
Definition playGame (fuel : nat) (policies : list Policy)
    (simplified : bool) (random : nat -> Q)
  : World -> option (World * result (list (list History))) :=
  fun w =>
    match playGameState fuel policies simplified random w with
    | None => None
    | Some (w', Ok state) => Some (mapM terminate (players state) w')
    | Some (w', Err e) => Some (w', Err e)
    end.

(* ================================================================= *)
(** ** The history interpreter *)

(** The fields of [FeedBack] and of the result of [interpretHistory] carry a
    prefix, their names being taken by [ActionSummary] and [Player]. *)
Record FeedBack : Type := mkFeedBack {
  fb_actual : Q;
  fb_expected : Q;
  fb_reward : Q;
  fb_trace : Trace;
  fb_state : State;
  fb_actor : Player;
  fb_action : Card
}.

Record Interpretation : Type := mkInterpretation {
  i_reward : Q;
  i_feedBack : list FeedBack;
  i_score : Z
}.

(** [interpretHistory]: recursion on the tail; the feedback of the head is
    pushed after that of the tail. *)
Fixpoint interpretHistory (history : list History) : result Interpretation :=
  match history with
  | [] => Err EmptyHistory
  | Terminal reward actor :: _ => Ok (mkInterpretation reward [] (score actor))
  | Step state actor action quality reward trace :: tail =>
      match interpretHistory tail with
      | Err e => Err e
      | Ok rest =>
          Ok (mkInterpretation
                (i_reward rest + reward)%Q
                (i_feedBack rest
                   ++ [mkFeedBack (i_reward rest) quality reward trace state
                                  actor action])
                (i_score rest))
      end
  end.

End Simulator.

Arguments ActionSummary : clear implicits.
Arguments Policy : clear implicits.
Arguments Event : clear implicits.
Arguments World : clear implicits.
Arguments History : clear implicits.
Arguments FeedBack : clear implicits.
Arguments Interpretation : clear implicits.
Arguments M : clear implicits.

(* ================================================================= *)
(** * Vocabulary of the statements *)

(** The reward that seat [seat] is due when a trick worth [points] goes to
    [winningSeat]. *)
Definition seatReward (simplified : bool) (points : Z) (winningSeat seat : nat) : Q :=
  if negb (points =? 0) && (seat =? winningSeat)%nat
  then inject_Z (- points)
  else if simplified then 1 # 4 else 1 # 2.

(** Points held in a hand, and the scores of a table. *)
Definition handPoints (simplified : bool) (h : list Card) : Z :=
  fold_right (fun c acc => cardPoints c simplified + acc) 0 h.

Definition totalScore (ps : list Player) : Z :=
  fold_right (fun p acc => score p + acc) 0 ps.

Definition pointsInHands (simplified : bool) (ps : list Player) : Z :=
  fold_right (fun p acc => handPoints simplified (hand p) + acc) 0 ps.

(** The shape of the log. *)
Inductive EventKind : Type := KPolicyCall | KRecordAction | KAssignReward.

Definition kindOf {Trace : Type} (e : Event Trace) : EventKind :=
  match e with
  | PolicyCall _ _ _ => KPolicyCall
  | RecordAction _ _ _ _ _ => KRecordAction
  | AssignReward _ _ => KAssignReward
  end.

(** One round: four plays, each a policy call answered by a recorded
    action, then four rewards. *)
Definition roundShape : list EventKind :=
  [KPolicyCall; KRecordAction; KPolicyCall; KRecordAction;
   KPolicyCall; KRecordAction; KPolicyCall; KRecordAction;
   KAssignReward; KAssignReward; KAssignReward; KAssignReward].

(** A policy chooses among the offered plays: every candidate it returns
    carries one of the offered cards, and it returns at least one candidate
    when offered at least one card. *)
Definition choosesOffered {Trace : Type} (f : Policy Trace) : Prop :=
  forall st p plays,
    (forall s, In s (f st p plays) -> In (action s) plays) /\
    (plays <> [] -> f st p plays <> []).

(** Every candidate carries an offered card. *)
Definition answersOffered {Trace : Type} (f : Policy Trace) : Prop :=
  forall st p plays s, In s (f st p plays) -> In (action s) plays.

(** The random source answers as [Math.random] does, in [0, 1). *)
Definition unitRange (random : nat -> Q) : Prop :=
  forall k, (0 <= random k)%Q /\ (random k < 1)%Q.



Definition isTerminal {Trace : Type} (h : History Trace) : bool :=
  match h with
  | Terminal _ _ => true
  | Step _ _ _ _ _ _ => false
  end.


(** The call [assignReward] that the resolution of a trick worth [points],
    won by [winningPlayer], makes on [player]. *)
Definition rewardEvent {Trace : Type} (simplified : bool) (points : Z)
           (winningPlayer : Player) (player : Player) : Event Trace :=
  AssignReward player
    (if negb (points =? 0) && (ref player =? ref winningPlayer)%nat
     then inject_Z (- points)
     else if simplified then 1 # 4 else 1 # 2).

(** The step of the reduction in [selectPlay]. *)
Definition selectStep {Trace : Type} (selection : option (ActionSummary Trace))
           (summary : ActionSummary Trace) : option (ActionSummary Trace) :=
  match selection with
  | None => Some summary
  | Some sel =>
      if Qgtb (quality summary) (quality sel) then Some summary else selection
  end.

(** A trick is led: its suit is that of its first card. *)
Definition ledState (st : State) : Prop :=
  exists c rest, cards (trick st) = c :: rest /\ tsuit (trick st) = Some (suit c).

(** The hand dealt to a seat from a deck of cards. *)
Definition dealtHand (cs : list Card) (seat : nat) : list Card :=
  slice cs (seat * 13) ((1 + seat) * 13).

(** The player [createPlayer] builds for a seat at stamp [r]. *)
Definition newPlayer (cs : list Card) (r seat : nat) : Player :=
  mkPlayer (dealtHand cs seat) 0 [false; false; false; false] seat
           (r + seat) (r + seat).

(** What holds of a table throughout a game in mode [simp] whose deck is
    worth [total] points: four players, distinct objects with allocated
    stamps, each bound to the policy of its seat, hands without duplicates,
    and all the points of the deck in the scores, the hands or the trick. *)
Record TableInv {Trace : Type} (simp : bool) (total : Z) (st : State)
       (w : World Trace) : Prop := mkTableInv {
  ti_four : length (players st) = 4%nat;
  ti_refs : NoDup (map ref (players st));
  ti_fresh : forall p, In p (players st) -> (ref p < nextRef w)%nat;
  ti_policy : map policy (players st) = [0; 1; 2; 3]%nat;
  ti_leader : (trickLeader st < 4)%nat;
  ti_simp : simplified st = simp;
  ti_nodup : forall p, In p (players st) -> NoDup (hand p);
  ti_points :
    totalScore (players st) + pointsInHands simp (players st)
    + trickPoints (trick st) simp = total
}.

(** Between two rounds: no trick on the table, [n] cards in every hand. *)
Definition RoundInv {Trace : Type} (simp : bool) (total : Z) (n : nat)
           (st : State) (w : World Trace) : Prop :=
  TableInv simp total st w /\
  trick st = mkTrick None [] /\
  forall p, In p (players st) -> length (hand p) = n.

(** Seat [s] has played when [i] turns of a round led by [l] are done. *)
Definition played (l i s : nat) : bool := ((s + 4 - l) mod 4 <? i)%nat.

(** After [i] turns of a round that began with [S n] cards in every hand. *)
Definition TurnInv {Trace : Type} (simp : bool) (total : Z) (n i : nat)
           (st : State) (w : World Trace) : Prop :=
  TableInv simp total st w /\
  length (cards (trick st)) = i /\
  (i = 0%nat -> trick st = mkTrick None []) /\
  ((0 < i)%nat -> ledState st) /\
  forall s p, nth_error (players st) s = Some p ->
              length (hand p) = if played (trickLeader st) i s then n else S n.

(** The points of the deck. *)
Definition deckPoints (simplified : bool) : Z := handPoints simplified freshDeck.

(** The recorded plays of a log. *)
Definition isRecordAction {Trace : Type} (e : Event Trace) : bool :=
  match e with
  | RecordAction _ _ _ _ _ => true
  | _ => false
  end.

(** A policy call is legal when the player is seated in the state of the
    call and is offered the valid plays of its hand in that state. *)
Definition legalQuery {Trace : Type} (e : Event Trace) : Prop :=
  match e with
  | PolicyCall st p plays => In p (players st) /\ plays = validPlays st (hand p)
  | _ => True
  end.

(** A recorded play is legal when the card is one of the valid plays of the
    actor's hand in the state it is played in. *)
Definition legalPlay {Trace : Type} (e : Event Trace) : Prop :=
  match e with
  | RecordAction actor st a _ _ =>
      In actor (players st) /\ In a (validPlays st (hand actor))
  | _ => True
  end.

(** A computation only adds to the log, and only events that satisfy [P]. *)
Definition emits {Trace A : Type} (P : Event Trace -> Prop) (m : M Trace A) : Prop :=
  forall w, exists new, log (fst (m w)) = log w ++ new /\ Forall P new.

(** What the driver guarantees of every event it logs. *)
Definition driverEvent {Trace : Type} (policies : list (Policy Trace))
           (e : Event Trace) : Prop :=
  legalQuery e /\ ((forall f, In f policies -> answersOffered f) -> legalPlay e).

(** The cards an array holds: the defined values of its slots and of its
    other properties. *)
Fixpoint somes (l : list (option Card)) : list Card :=
  match l with
  | [] => []
  | Some c :: l' => c :: somes l'
  | None :: l' => somes l'
  end.

Definition heldCards (d : JsArray) : list Card :=
  somes (elems d ++ map snd (props d)).

(** What every draw keeps of the deck: property names are not repeated, the
    array still holds the 52 cards somewhere, and it has not shrunk. *)
Definition DeckInv (d : JsArray) : Prop :=
  NoDup (map fst (props d)) /\
  Permutation (heldCards d) freshDeck /\
  (52 <= length (elems d))%nat.


(** The table of a game: four players, distinct objects with allocated
    stamps, each with its four flags. *)
Definition Seated {Trace : Type} (st : State) (w : World Trace) : Prop :=
  length (players st) = 4%nat /\
  NoDup (map ref (players st)) /\
  (forall p, In p (players st) -> (ref p < nextRef w)%nat) /\
  (forall p, In p (players st) -> length (playsOutOfSuit p) = 4%nat).

(* ================================================================= *)
(** * Example data *)

(** The trick of the spec's scenario: hearts led, [2h, 5h, Kc, Ah]. *)
Definition trick_2h_5h_Kc_Ah : Trick :=
  mkTrick (Some hearts)
          [mkCard hearts 2; mkCard hearts 5; mkCard clubs 13; mkCard hearts 14].

(** A player at the end of a game, and a two-step history. *)
Definition example_player : Player :=
  mkPlayer [] 7 [false; false; false; false] 0 0 0.

Definition example_state : State :=
  mkState [example_player] (mkTrick None []) false false 0.

Definition example_steps : list (History unit) :=
  [Step example_state example_player (mkCard clubs 2) (9 # 10) (- (4 # 1)) tt;
   Step example_state example_player (mkCard hearts 5) (1 # 5) (1 # 2) tt].

(** A table in the middle of a trick: hearts led by seat 0, seat 2 to play
    and void in hearts. *)
Definition example_south : Player :=
  mkPlayer [mkCard clubs 13; mkCard spades 12; mkCard diamonds 3] 0
           [false; false; false; false] 2 2 2.

Definition example_table : State :=
  mkState
    [mkPlayer [mkCard diamonds 4] 0 [false; false; false; false] 0 0 0;
     mkPlayer [mkCard diamonds 9] 0 [false; false; false; false] 1 1 1;
     example_south;
     mkPlayer [mkCard hearts 14; mkCard clubs 3] 0 [false; false; false; false] 3 3 3]
    (mkTrick (Some hearts) [mkCard hearts 2; mkCard hearts 5])
    false false 0.

(** The resolution of the spec's scenario: the trick [2h, 5h, Kc, Ah] led
    by seat 0, standard mode. *)
Definition example_resolution : State :=
  mkState
    [mkPlayer [] 0 [false; false; false; false] 0 0 0;
     mkPlayer [] 0 [false; false; false; false] 1 1 1;
     mkPlayer [] 0 [false; false; false; true] 2 2 2;
     mkPlayer [] 0 [false; false; false; false] 3 3 3]
    trick_2h_5h_Kc_Ah false false 0.

(** A policy that rates every offered card alike, so that the first one is
    played; and one that answers the ace of hearts whatever it is offered. *)
Definition offerAll : Policy unit :=
  fun _ _ plays => map (fun c => mkSummary c 0 tt) plays.


(** Two random sources: one that answers two-digit fractions in [0, 1),
    and one that always answers -1. *)
Definition exampleRandom (k : nat) : Q :=
  inject_Z ((Z.of_nat k * 37 + 11) mod 100) / 100.

Definition minusOne (k : nat) : Q := - (1).

Definition emptyWorld : World unit := mkWorld [] 0.

(** A table about to start a round, for which no policy answers. *)
Definition silent : Policy unit := fun _ _ _ => [].


(** The last round of a game: one card in every hand, hearts broken, seat 1
    to lead. *)
Definition example_last_round : State :=
  mkState
    [mkPlayer [mkCard hearts 9] 3 [false; false; false; false] 0 0 0;
     mkPlayer [mkCard spades 4] 20 [false; false; false; false] 1 1 1;
     mkPlayer [mkCard spades 12] 0 [false; true; false; false] 2 2 2;
     mkPlayer [mkCard diamonds 7] 2 [false; false; false; false] 3 3 3]
    (mkTrick None []) true false 1.

(** A state in which a player leads before hearts are broken. *)
Definition example_lead : State :=
  mkState [] (mkTrick None []) false false 0.

(* ================================================================= *)
(** * Further vocabulary *)

(** A card follows the suit of a trick: it is of that suit, or no suit is
    set. *)
Definition followsSuit (s : option Suit) (c : Card) : bool :=
  match s with
  | Some s' => Suit_eqb (suit c) s'
  | None => true
  end.

(** The step of a reduction that keeps the first eligible element of
    greatest key: the shape of the reductions in [trickWinner] and in
    [playRound]. *)
Definition firstMaxStep {A K : Type} (elig : A -> bool) (key : A -> K)
           (gt : K -> K -> bool) (acc : option A) (x : A) : option A :=
  if elig x && (match acc with None => true | Some a => gt (key x) (key a) end)
  then Some x
  else acc.

(** How a seat may change over the rounds of a game: its score does not
    decrease, its hand gains no card, its flags are not cleared, and it
    keeps its policy and its recorder. *)
Definition seatKeeps (p p' : Player) : Prop :=
  score p <= score p' /\
  incl (hand p') (hand p) /\
  length (playsOutOfSuit p') = length (playsOutOfSuit p) /\
  (forall k, nth_error (playsOutOfSuit p) k = Some true ->
             nth_error (playsOutOfSuit p') k = Some true) /\
  policy p' = policy p /\
  recorder p' = recorder p.

(** A table about to start a round, every seat with a policy to call. *)
Definition Ready {Trace : Type} (policies : list (Policy Trace)) (st : State)
           (w : World Trace) : Prop :=
  Seated st w /\
  trick st = mkTrick None [] /\
  forall p, In p (players st) -> (policy p < length policies)%nat.

(** The history entry a feedback record was made from. *)
Definition stepOf {Trace : Type} (fb : FeedBack Trace) : History Trace :=
  Step (fb_state fb) (fb_actor fb) (fb_action fb) (fb_expected fb)
       (fb_reward fb) (fb_trace fb).

(** The feedback records are chained: the first one's [actual] is [start],
    and every later one's is its predecessor's [actual] plus its
    predecessor's [reward]. *)
Fixpoint chained {Trace : Type} (start : Q) (fbs : list (FeedBack Trace)) : Prop :=
  match fbs with
  | [] => True
  | fb :: rest =>
      fb_actual fb = start /\ chained (fb_actual fb + fb_reward fb)%Q rest
  end.

(** Where such a chain ends. *)
Definition chainEnd {Trace : Type} (start : Q) (fbs : list (FeedBack Trace)) : Q :=
  fold_left (fun acc fb => (acc + fb_reward fb)%Q) fbs start.

(** Four policies that rate every offered card alike, and four that answer
    nothing. *)
Definition four_offerAll : list (Policy unit) :=
  [offerAll; offerAll; offerAll; offerAll].

(** A deck of three cards. *)
Definition small_deck : JsArray :=
  mkJsArray (map Some [mkCard clubs 2; mkCard hearts 5; mkCard spades 12]) [].

Definition four_silent : list (Policy unit) := [silent; silent; silent; silent].

(** The plays of a log, in order: the card of each call of [recordAction],
    with the policy handle of the actor, which at the table of a game is
    its seat. *)
Definition recordedPlays {Trace : Type} (events : list (Event Trace))
  : list (nat * Card) :=
  flat_map (fun e => match e with
                     | RecordAction actor _ a _ _ => [(policy actor, a)]
                     | _ => []
                     end)
           events.

(** The cards played by a seat. *)
Definition playsOf {Trace : Type} (seat : nat) (events : list (Event Trace))
  : list Card :=
  map snd (filter (fun sc => (fst sc =? seat)%nat) (recordedPlays events)).

(** The seats of a table are bound to the policies in order. *)
Definition seatsInOrder (st : State) : Prop :=
  map policy (players st) = [0; 1; 2; 3]%nat.

(** Since the log was [base], every seat [s] has played cards of
    [hands0 s], each once, and holds the others. *)
Definition HandsFrom {Trace : Type} (hands0 : nat -> list Card)
           (base : list (Event Trace)) (st : State) (w : World Trace) : Prop :=
  exists new,
    log w = base ++ new /\
    forall s p, nth_error (players st) s = Some p ->
      NoDup (hand p) /\ Permutation (playsOf s new ++ hand p) (hands0 s).




(** A card worth points is among the plays of a log. *)
Definition pointPlayed {Trace : Type} (simp : bool) (events : list (Event Trace))
  : bool :=
  existsb (fun sc => negb (cardPoints (snd sc) simp =? 0)) (recordedPlays events).

(* ================================================================= *)
(** * Properties *)

(** ** Equality tests *)

Lemma Suit_eqb_eq (a b : Suit) : Suit_eqb a b = true <-> a = b.
Proof. destruct a, b; simpl; split; intro H; try reflexivity; discriminate H. Qed.

Lemma Suit_eqb_neq (a b : Suit) : Suit_eqb a b = false <-> a <> b.
Proof.
  rewrite <- Suit_eqb_eq. destruct (Suit_eqb a b); split; intro H;
    try reflexivity; try discriminate; try (intro H'; discriminate H').
  exfalso; apply H; reflexivity.
Qed.

Lemma Suit_eqb_refl (a : Suit) : Suit_eqb a a = true.
Proof. destruct a; reflexivity. Qed.

Lemma Card_eqb_eq (a b : Card) : Card_eqb a b = true <-> a = b.
Proof.
  unfold Card_eqb. rewrite andb_true_iff, Suit_eqb_eq, Z.eqb_eq.
  destruct a as [sa ra], b as [sb rb]; simpl. split.
  - intros [-> ->]. reflexivity.
  - intro H. inversion H. split; reflexivity.
Qed.

Lemma Card_eqb_refl (a : Card) : Card_eqb a a = true.
Proof. apply Card_eqb_eq. reflexivity. Qed.

Lemma Card_eqb_neq (a b : Card) : Card_eqb a b = false <-> a <> b.
Proof.
  rewrite <- Card_eqb_eq. destruct (Card_eqb a b); split; intro H;
    try reflexivity; try discriminate; try (intro H'; discriminate H').
  exfalso; apply H; reflexivity.
Qed.

(** ** Rules engine *)

Lemma fold_or_existsb {A : Type} (f : A -> bool) (l : list A) (b : bool) :
  fold_left (fun acc x => acc || f x) l b = b || existsb f l.
Proof.
  revert b. induction l as [|x l IH]; intro b; simpl.
  - rewrite orb_false_r. reflexivity.
  - rewrite IH, orb_assoc. reflexivity.
Qed.

Lemma filter_nil_iff {A : Type} (f : A -> bool) (l : list A) :
  filter f l = [] <-> forall x, In x l -> f x = false.
Proof.
  induction l as [|x l IH]; simpl.
  - split; [intros _ y [] | reflexivity].
  - destruct (f x) eqn:E; split.
    + discriminate.
    + intro H. specialize (H x (or_introl eq_refl)). congruence.
    + intros H y [<-|Hy]; [exact E | apply IH; assumption].
    + intro H. apply IH. intros y Hy. apply H. right. exact Hy.
Qed.

(** C1. [validPlays], case by case.  The trick is empty exactly when no suit
    is established (the first card played sets the suit, the resolution
    clears both), and the code tests the suit.
    (1) A suit is established and the hand holds a card of it: exactly the
        hand's cards of that suit.
    (2) A suit is established and the hand holds none of it: the hand.
    (3) No suit, and [simplified] or [heartsBroken]: the hand.
    (4) No suit, hearts not broken, standard mode: exactly the hand's cards
        worth zero points, when there is one;
    (5) and the hand when there is none. *)
Theorem validPlays_cases (st : State) (hand : list Card) :
  (forall s, tsuit (trick st) = Some s ->
     (exists c, In c hand /\ suit c = s) ->
     validPlays st hand = filter (fun c => Suit_eqb (suit c) s) hand) /\
  (forall s, tsuit (trick st) = Some s ->
     (forall c, In c hand -> suit c <> s) ->
     validPlays st hand = hand) /\
  (tsuit (trick st) = None ->
     simplified st = true \/ heartsBroken st = true ->
     validPlays st hand = hand) /\
  (tsuit (trick st) = None -> simplified st = false -> heartsBroken st = false ->
     (exists c, In c hand /\ cardPoints c false = 0) ->
     validPlays st hand = filter (fun c => cardPoints c false =? 0) hand) /\
  (tsuit (trick st) = None -> simplified st = false -> heartsBroken st = false ->
     (forall c, In c hand -> cardPoints c false <> 0) ->
     validPlays st hand = hand).
Proof.
  unfold validPlays. repeat split.
  - intros s Hs [c [Hin Hc]]. rewrite Hs, fold_or_existsb. simpl.
    assert (E : existsb (fun card => Suit_eqb (suit card) s) hand = true).
    { apply existsb_exists. exists c. split; [exact Hin|]. apply Suit_eqb_eq. exact Hc. }
    rewrite E. reflexivity.
  - intros s Hs Hnone. rewrite Hs, fold_or_existsb. simpl.
    destruct (existsb (fun card => Suit_eqb (suit card) s) hand) eqn:E; [|reflexivity].
    apply existsb_exists in E. destruct E as [c [Hin Hc]].
    apply Suit_eqb_eq in Hc. exfalso. exact (Hnone c Hin Hc).
  - intros Hs [H|H]; rewrite Hs, H; [reflexivity|].
    rewrite orb_true_r. reflexivity.
  - intros Hs Hsim Hhb [c [Hin Hc]]. rewrite Hs, Hsim, Hhb. simpl.
    destruct (filter (fun card => cardPoints card false =? 0) hand) eqn:E.
    + exfalso. rewrite filter_nil_iff in E. specialize (E c Hin).
      apply Z.eqb_neq in E. exact (E Hc).
    + reflexivity.
  - intros Hs Hsim Hhb Hnone. rewrite Hs, Hsim, Hhb. simpl.
    destruct (filter (fun card => cardPoints card false =? 0) hand) eqn:E.
    + reflexivity.
    + exfalso. assert (Hin : In c (filter (fun card => cardPoints card false =? 0) hand)).
      { rewrite E. left. reflexivity. }
      apply filter_In in Hin. destruct Hin as [Hin Hz]. apply Z.eqb_eq in Hz.
      exact (Hnone c Hin Hz).
Qed.

(** [validPlays] offers cards of the hand only, and at least one when the
    hand is not empty. *)
Lemma validPlays_incl (st : State) (hand : list Card) (c : Card) :
  In c (validPlays st hand) -> In c hand.
Proof.
  unfold validPlays.
  destruct (tsuit (trick st)) as [s|].
  - destruct (fold_left _ hand false); [|tauto].
    intro H. apply filter_In in H. tauto.
  - destruct (simplified st || heartsBroken st); [tauto|].
    destruct (length _ =? 0)%nat; [tauto|].
    intro H. apply filter_In in H. tauto.
Qed.

Lemma validPlays_nonempty (st : State) (hand : list Card) :
  hand <> [] -> validPlays st hand <> [].
Proof.
  intro Hne. unfold validPlays.
  destruct (tsuit (trick st)) as [s|].
  - rewrite fold_or_existsb. simpl.
    destruct (existsb _ hand) eqn:E; [|exact Hne].
    apply existsb_exists in E. destruct E as [c [Hin Hc]].
    intro Hnil. rewrite filter_nil_iff in Hnil. rewrite (Hnil c Hin) in Hc. discriminate.
  - destruct (simplified st || heartsBroken st); [exact Hne|].
    destruct (filter _ hand) eqn:E; simpl; [exact Hne | discriminate].
Qed.

(** The fold of [trickWinner], from any accumulator. *)
Lemma trickWinner_fold (s : Suit) (l : list Card) (acc : option Card) :
  match fold_left (trickWinner_step (Some s)) l acc with
  | None => acc = None /\ forall c, In c l -> suit c <> s
  | Some w =>
      (acc = Some w \/ (In w l /\ suit w = s)) /\
      (forall a, acc = Some a -> rank a <= rank w) /\
      (forall c, In c l -> suit c = s -> rank c <= rank w)
  end.
Proof.
  revert acc. induction l as [|x l IH]; intro acc; simpl.
  - destruct acc as [a|].
    + split; [left; reflexivity|]. split.
      * intros a' H. inversion H. lia.
      * intros c [].
    + split; [reflexivity | intros c []].
  - specialize (IH (trickWinner_step (Some s) acc x)).
    destruct (fold_left _ l _) as [w|].
    + destruct IH as [Hw [Hacc Hall]].
      unfold trickWinner_step in Hw, Hacc.
      destruct (Suit_eqb (suit x) s) eqn:Ex; simpl in Hw, Hacc.
      * apply Suit_eqb_eq in Ex.
        destruct acc as [a|].
        -- destruct (rank x >? rank a) eqn:Er.
           ++ apply Z.gtb_lt in Er. specialize (Hacc x eq_refl).
              split; [right|split].
              ** destruct Hw as [Hw|[Hw Hs]]; [inversion Hw; subst; tauto | tauto].
              ** intros a' Ha. inversion Ha. subst. lia.
              ** intros c [<-|Hc] Hcs; [lia | apply Hall; assumption].
           ++ assert (rank x <= rank a) by (rewrite Z.gtb_ltb in Er; apply Z.ltb_ge; exact Er).
              specialize (Hacc a eq_refl).
              split; [|split].
              ** destruct Hw as [Hw|[Hw Hs]]; [left; exact Hw | right; tauto].
              ** intros a' Ha. inversion Ha. subst. lia.
              ** intros c [<-|Hc] Hcs; [lia | apply Hall; assumption].
        -- specialize (Hacc x eq_refl).
           split; [right|split].
           ++ destruct Hw as [Hw|[Hw Hs]]; [inversion Hw; subst; tauto | tauto].
           ++ intros a' Ha. discriminate.
           ++ intros c [<-|Hc] Hcs; [lia | apply Hall; assumption].
      * apply Suit_eqb_neq in Ex.
        split; [|split].
        -- destruct Hw as [Hw|[Hw Hs]]; [left; exact Hw | right; tauto].
        -- exact Hacc.
        -- intros c [<-|Hc] Hcs; [contradiction | apply Hall; assumption].
    + destruct IH as [Hstep Hall]. unfold trickWinner_step in Hstep.
      destruct (Suit_eqb (suit x) s) eqn:Ex; simpl in Hstep.
      * destruct acc as [a|]; [|discriminate].
        destruct (rank x >? rank a); discriminate.
      * apply Suit_eqb_neq in Ex. split; [exact Hstep|].
        intros c [<-|Hc]; [exact Ex | apply Hall; exact Hc].
Qed.

(** C2. On a trick with an established suit of which it holds a card,
    [trickWinner] returns a card of the trick, of the trick's suit, and no
    card of that suit in the trick has a higher rank; so an off-suit card
    is never returned, whatever its rank. *)
Theorem trickWinner_highest_of_suit (t : Trick) (s : Suit) :
  tsuit t = Some s ->
  (exists c, In c (cards t) /\ suit c = s) ->
  exists w, trickWinner t = Some w /\ In w (cards t) /\ suit w = s /\
            forall c, In c (cards t) -> suit c = s -> rank c <= rank w.
Proof.
  intros Hs [c [Hin Hc]]. unfold trickWinner. rewrite Hs.
  pose proof (trickWinner_fold s (cards t) None) as H.
  destruct (fold_left _ (cards t) None) as [w|].
  - destruct H as [[H|[Hw Hws]] [_ Hall]]; [discriminate|].
    exists w. repeat split; assumption.
  - destruct H as [_ H]. exfalso. exact (H c Hin Hc).
Qed.

(** The scenario of the spec: hearts led, the king of clubs discarded; the
    ace of hearts wins. *)
Lemma trickWinner_highest_of_suit_witness :
  exists w, trickWinner trick_2h_5h_Kc_Ah = Some w /\
            In w (cards trick_2h_5h_Kc_Ah) /\ suit w = hearts /\
            forall c, In c (cards trick_2h_5h_Kc_Ah) -> suit c = hearts ->
                      rank c <= rank w.
Proof.
  apply (trickWinner_highest_of_suit trick_2h_5h_Kc_Ah hearts).
  - reflexivity.
  - exists (mkCard hearts 2). split; [left; reflexivity | reflexivity].
Defined.

Example trickWinner_ignores_higher_discard :
  trickWinner (mkTrick (Some hearts) [mkCard hearts 2; mkCard clubs 13])
  = Some (mkCard hearts 2).
Proof. reflexivity. Qed.

(** ** The monad *)

Section MonadFacts.
Context {Trace : Type}.

Lemma bind_ok {A B : Type} (m : M Trace A) (k : A -> M Trace B) (w w' : World Trace) (a : A) :
  m w = (w', Ok a) -> bind m k w = k a w'.
Proof. intro H. unfold bind. rewrite H. reflexivity. Qed.

(** A [map] that replaces no player. *)
Lemma mapM_keep (test : Player -> bool) (g : Player -> nat -> Player)
      (ps : list Player) (w : World Trace) :
  (forall p, In p ps -> test p = false) ->
  mapM (fun player =>
          if test player then bind newObject (fun r => ret (g player r))
          else ret player) ps w
  = (w, Ok ps).
Proof.
  revert w. induction ps as [|p ps IH]; intros w H; simpl.
  - reflexivity.
  - unfold bind at 1. rewrite (H p (or_introl eq_refl)). unfold ret at 1.
    unfold bind at 1. rewrite IH; [reflexivity|].
    intros q Hq. apply H. right. exact Hq.
Qed.

(** A [map] that replaces the one player whose stamp is [actor]'s. *)
Lemma mapM_replace_one (test : Player -> bool) (g : Player -> nat -> Player)
      (actor : Player) (ps : list Player) (seat : nat) (w : World Trace) :
  (forall p, test p = (ref p =? ref actor)%nat) ->
  nth_error ps seat = Some actor ->
  NoDup (map ref ps) ->
  mapM (fun player =>
          if test player then bind newObject (fun r => ret (g player r))
          else ret player) ps w
  = (mkWorld (log w) (S (nextRef w)),
     Ok (update seat (g actor (nextRef w)) ps)).
Proof.
  intro Htest. revert seat w.
  induction ps as [|p ps IH]; intros seat w Hnth Hnd.
  - destruct seat; discriminate Hnth.
  - simpl in Hnd. inversion Hnd as [|x l Hnotin Hnd']. subst.
    destruct seat as [|seat]; simpl in Hnth.
    + inversion Hnth. subst p. simpl.
      unfold bind at 1. rewrite Htest, Nat.eqb_refl.
      unfold bind at 1. unfold newObject at 1. unfold ret at 1.
      unfold bind at 1. rewrite mapM_keep; [reflexivity|].
      intros q Hq. rewrite Htest. apply Nat.eqb_neq. intro E.
      apply Hnotin. rewrite <- E. apply in_map. exact Hq.
    + simpl. unfold bind at 1.
      assert (Hne : test p = false).
      { rewrite Htest. apply Nat.eqb_neq. intro E. apply Hnotin.
        rewrite E. apply in_map. eapply nth_error_In. exact Hnth. }
      rewrite Hne. unfold ret at 1. unfold bind at 1.
      rewrite (IH seat w Hnth Hnd'). reflexivity.
Qed.

(** [forEach] of calls that each log one event. *)
Lemma forEach_emit (h : Player -> M Trace unit) (ev : Player -> Event Trace)
      (ps : list Player) (w : World Trace) :
  (forall p w0, h p w0 = (mkWorld (log w0 ++ [ev p]) (nextRef w0), Ok tt)) ->
  forEach h ps w = (mkWorld (log w ++ map ev ps) (nextRef w), Ok tt).
Proof.
  intro Hh. revert w. induction ps as [|p ps IH]; intro w; simpl.
  - unfold ret. rewrite app_nil_r. destruct w; reflexivity.
  - unfold bind. rewrite Hh, IH. simpl. rewrite <- app_assoc. reflexivity.
Qed.

End MonadFacts.

(** ** Lists updated at one index *)

Lemma update_length {A : Type} (i : nat) (v : A) (l : list A) :
  length (update i v l) = length l.
Proof.
  revert i. induction l as [|x l IH]; intros [|i]; simpl; try reflexivity.
  rewrite IH. reflexivity.
Qed.

Lemma nth_error_update_eq {A : Type} (i : nat) (v : A) (l : list A) :
  (i < length l)%nat -> nth_error (update i v l) i = Some v.
Proof.
  revert i. induction l as [|x l IH]; intros [|i] H; simpl in *; try lia.
  - reflexivity.
  - apply IH. lia.
Qed.

Lemma nth_error_update_neq {A : Type} (i j : nat) (v : A) (l : list A) :
  i <> j -> nth_error (update i v l) j = nth_error l j.
Proof.
  revert i j. induction l as [|x l IH]; intros [|i] [|j] H; simpl;
    try reflexivity; try (exfalso; apply H; reflexivity).
  apply IH. intro E. apply H. rewrite E. reflexivity.
Qed.

Lemma map_update {A B : Type} (f : A -> B) (i : nat) (v : A) (l : list A) :
  map f (update i v l) = update i (f v) (map f l).
Proof.
  revert i. induction l as [|x l IH]; intros [|i]; simpl; try reflexivity.
  rewrite IH. reflexivity.
Qed.

Lemma update_same {A : Type} (i : nat) (v : A) (l : list A) :
  nth_error l i = Some v -> update i v l = l.
Proof.
  revert i. induction l as [|x l IH]; intros [|i] H; simpl in *;
    try discriminate.
  - inversion H. reflexivity.
  - rewrite IH; [reflexivity | exact H].
Qed.

Lemma In_update {A : Type} (i : nat) (v x : A) (l : list A) :
  In x (update i v l) -> x = v \/ In x l.
Proof.
  revert i. induction l as [|y l IH]; intros [|i] H; simpl in *; try tauto.
  - destruct H as [H|H]; [left; symmetry; exact H | right; right; exact H].
  - destruct H as [H|H]; [right; left; exact H|].
    destruct (IH i H); tauto.
Qed.

Lemma NoDup_update {A : Type} (i : nat) (v : A) (l : list A) :
  NoDup l -> ~ In v l -> NoDup (update i v l).
Proof.
  revert i. induction l as [|y l IH]; intros [|i] Hnd Hv; simpl.
  - constructor.
  - constructor.
  - inversion Hnd. subst. constructor; [|assumption].
    intro H. apply Hv. right. exact H.
  - inversion Hnd as [|? ? Hy Hl]. subst. constructor.
    + intro H. apply In_update in H. destruct H as [H|H].
      * apply Hv. left. exact H.
      * exact (Hy H).
    + apply IH; [exact Hl|]. intro H. apply Hv. right. exact H.
Qed.

(** ** The reducers, as equations *)

Section ReducerFacts.
Context {Trace : Type}.

(** [playCard] on an actor seated in the state, the players being distinct
    objects: one recorded action, one player replaced. *)
Lemma playCard_eq (st : State) (seat : nat) (actor : Player)
      (summary : ActionSummary Trace) (w : World Trace) :
  nth_error (players st) seat = Some actor ->
  NoDup (map ref (players st)) ->
  playCard st actor summary w
  = (mkWorld (log w ++ [RecordAction actor st (action summary)
                                     (quality summary) (trace summary)])
             (S (nextRef w)),
     Ok (mkState
           (update seat
                   (afterPlay (trick st) (action summary) actor (nextRef w))
                   (players st))
           (mkTrick (match tsuit (trick st) with
                     | None => Some (suit (action summary))
                     | Some s => Some s
                     end)
                    (cards (trick st) ++ [action summary]))
           (heartsBroken st
            || negb (cardPoints (action summary) (simplified st) =? 0))
           (simplified st)
           (trickLeader st))).
Proof.
  intros Hnth Hnd. unfold playCard, recordAction, emit.
  unfold bind at 1.
  unfold bind at 1.
  rewrite (mapM_replace_one (fun p => (ref p =? ref actor)%nat)
             (afterPlay (trick st) (action summary)) actor (players st) seat);
    [reflexivity | reflexivity | exact Hnth | exact Hnd].
Qed.

(** [playCard] always returns a state. *)
Lemma mapM_total (test : Player -> bool) (g : Player -> nat -> Player)
      (ps : list Player) (w : World Trace) :
  exists ps' n,
    mapM (fun player =>
            if test player then bind newObject (fun r => ret (g player r))
            else ret player) ps w
    = (mkWorld (log w) n, Ok ps') /\ length ps' = length ps.
Proof.
  revert w. induction ps as [|p ps IH]; intro w; simpl.
  - exists [], (nextRef w). destruct w; split; reflexivity.
  - destruct (test p).
    + destruct (IH (mkWorld (log w) (S (nextRef w)))) as [ps' [n [E L]]].
      exists (g p (nextRef w) :: ps'), n. unfold bind at 1. unfold bind at 1.
      unfold newObject at 1. unfold ret at 1. unfold bind at 1.
      rewrite E. simpl. split; [reflexivity | rewrite L; reflexivity].
    + destruct (IH w) as [ps' [n [E L]]].
      exists (p :: ps'), n. unfold bind at 1. unfold ret at 1.
      unfold bind at 1. rewrite E. simpl.
      split; [reflexivity | rewrite L; reflexivity].
Qed.

Lemma playCard_total (st : State) (actor : Player)
      (summary : ActionSummary Trace) (w : World Trace) :
  exists ps' n,
    playCard st actor summary w
    = (mkWorld (log w ++ [RecordAction actor st (action summary)
                                       (quality summary) (trace summary)]) n,
       Ok (mkState
             ps'
             (mkTrick (match tsuit (trick st) with
                       | None => Some (suit (action summary))
                       | Some s => Some s
                       end)
                      (cards (trick st) ++ [action summary]))
             (heartsBroken st
              || negb (cardPoints (action summary) (simplified st) =? 0))
             (simplified st)
             (trickLeader st))).
Proof.
  unfold playCard, recordAction, emit. unfold bind at 1. unfold bind at 1.
  destruct (mapM_total (fun p => (ref p =? ref actor)%nat)
              (afterPlay (trick st) (action summary)) (players st)
              (mkWorld (log w ++ [RecordAction actor st (action summary)
                                     (quality summary) (trace summary)])
                       (nextRef w)))
    as [ps' [n [E _]]].
  exists ps', n. rewrite E. reflexivity.
Qed.

(** [resolveTrick] once the winner is known. *)
Lemma resolveTrick_eq (st : State) (card : Card) (cardIndex : nat)
      (winningPlayer : Player) (w : World Trace) :
  trickWinner (trick st) = Some card ->
  indexOf card (cards (trick st)) = Some cardIndex ->
  nth_error (players st) ((cardIndex + trickLeader st) mod 4) = Some winningPlayer ->
  NoDup (map ref (players st)) ->
  let points := trickPoints (trick st) (simplified st) in
  let winningSeat := ((cardIndex + trickLeader st) mod 4)%nat in
  let w1 := mkWorld (log w ++ map (rewardEvent (simplified st) points winningPlayer)
                                  (players st)) (nextRef w) in
  resolveTrick st w
  = if points =? 0
    then (w1, Ok (mkState (players st) (mkTrick None []) (heartsBroken st)
                          (simplified st) winningSeat))
    else (mkWorld (log w1) (S (nextRef w)),
          Ok (mkState (update winningSeat
                              (withPoints points winningPlayer (nextRef w))
                              (players st))
                      (mkTrick None []) (heartsBroken st)
                      (simplified st) winningSeat)).
Proof.
  intros Hw Hi Hn Hnd points winningSeat w1.
  unfold resolveTrick. rewrite Hw, Hi, Hn.
  change (trickPoints (trick st) (simplified st)) with points.
  unfold bind at 1.
  rewrite (forEach_emit _ (rewardEvent (simplified st) points winningPlayer)).
  2:{ intros p w0. unfold rewardEvent, assignReward, emit.
      destruct (negb (points =? 0) && (ref p =? ref winningPlayer)%nat);
        reflexivity. }
  fold w1. unfold bind at 1.
  destruct (points =? 0) eqn:Ep.
  - rewrite (mapM_keep (fun player => negb true && (ref player =? ref winningPlayer)%nat)
                       (withPoints points)).
    + reflexivity.
    + intros p _. reflexivity.
  - rewrite (mapM_replace_one
               (fun player => negb false && (ref player =? ref winningPlayer)%nat)
               (withPoints points) winningPlayer (players st)
               ((cardIndex + trickLeader st) mod 4)).
    + reflexivity.
    + intro p. reflexivity.
    + exact Hn.
    + exact Hnd.
Qed.

End ReducerFacts.

(** ** The history interpreter *)



(** On a history of length one the interpretation is immediate. *)
Example interpretHistory_terminal_only :
  @interpretHistory unit [Terminal (3 # 1) example_player]
  = Ok (mkInterpretation (3 # 1) [] 7).
Proof. reflexivity. Qed.

Example interpretHistory_two_steps :
  option_map (fun res => (i_reward res, map fb_actual (i_feedBack res),
                          map fb_expected (i_feedBack res)))
             (match interpretHistory (example_steps ++ [Terminal (3 # 1) example_player]) with
              | Ok res => Some res
              | Err _ => None
              end)
  = Some ((3 # 1) + (1 # 2) + - (4 # 1), [3 # 1; (3 # 1) + (1 # 2)], [1 # 5; 9 # 10])%Q.
Proof. reflexivity. Qed.

(** ** The play-a-card transition *)

Lemma nth_error_mapi_from {A B : Type} (f : A -> nat -> B) (l : list A) (i k : nat) :
  nth_error (mapi_from i f l) k = option_map (fun x => f x (i + k)%nat) (nth_error l k).
Proof.
  revert i k. induction l as [|x l IH]; intros i [|k]; simpl; try reflexivity.
  - rewrite Nat.add_0_r. reflexivity.
  - rewrite IH. replace (S i + k)%nat with (i + S k)%nat by lia. reflexivity.
Qed.

Lemma nth_error_mapi {A B : Type} (f : A -> nat -> B) (l : list A) (k : nat) :
  nth_error (mapi f l) k = option_map (fun x => f x k) (nth_error l k).
Proof. unfold mapi. rewrite nth_error_mapi_from. reflexivity. Qed.

Lemma length_mapi_from {A B : Type} (f : A -> nat -> B) (l : list A) (i : nat) :
  length (mapi_from i f l) = length l.
Proof.
  revert i. induction l as [|x l IH]; intro i; simpl; [reflexivity|].
  rewrite IH. reflexivity.
Qed.

Lemma filter_remove_perm (c : Card) (h : list Card) :
  NoDup h -> In c h ->
  Permutation h (c :: filter (fun x => negb (Card_eqb x c)) h).
Proof.
  induction h as [|x h IH]; intros Hnd Hin; [destruct Hin|].
  inversion Hnd as [|? ? Hx Hh]. subst. simpl.
  destruct (Card_eqb x c) eqn:E; simpl.
  - apply Card_eqb_eq in E. subst x. constructor.
    assert (Hf : filter (fun x => negb (Card_eqb x c)) h = h).
    { clear -Hx. induction h as [|y h IH]; simpl; [reflexivity|].
      destruct (Card_eqb y c) eqn:E; simpl.
      - apply Card_eqb_eq in E. subst y. exfalso. apply Hx. left. reflexivity.
      - rewrite IH; [reflexivity|]. intro H. apply Hx. right. exact H. }
    rewrite Hf. reflexivity.
  - destruct Hin as [Hin|Hin].
    + apply Card_eqb_neq in E. contradiction.
    + eapply perm_trans; [|apply perm_swap]. constructor. apply IH; assumption.
Qed.

Lemma In_filter_other (c a : Card) (h : list Card) :
  In c (filter (fun x => negb (Card_eqb x a)) h) <-> In c h /\ c <> a.
Proof.
  rewrite filter_In. rewrite negb_true_iff, Card_eqb_neq. reflexivity.
Qed.

(** C7. Play-a-card by an actor seated at [seat] among players that are
    distinct objects, the actor having its four flags and the card in its
    hand (so it is in every turn of a game, see [playTurn_Seated]).  The
    new actor holds the old hand without the card (the other cards, in
    order; one card fewer when the hand has no duplicate); its flag for the
    trick's suit is set when the card is of another suit, and no flag that
    was set is cleared; the card is appended to the trick, which takes the
    card's suit if it had none; the players at the other seats, every
    score, [trickLeader] and [simplified] are those of the old state. *)
Theorem playCard_frame {Trace : Type} (st : State) (seat : nat) (actor : Player)
        (summary : ActionSummary Trace) (w : World Trace) :
  nth_error (players st) seat = Some actor ->
  NoDup (map ref (players st)) ->
  length (playsOutOfSuit actor) = 4%nat ->
  In (action summary) (hand actor) ->
  exists st' w' actor',
    playCard st actor summary w = (w', Ok st') /\
    nth_error (players st') seat = Some actor' /\
    hand actor'
      = filter (fun c => negb (Card_eqb c (action summary))) (hand actor) /\
    ~ In (action summary) (hand actor') /\
    (forall c, c <> action summary -> (In c (hand actor') <-> In c (hand actor))) /\
    (NoDup (hand actor) ->
       Permutation (hand actor) (action summary :: hand actor')) /\
    length (playsOutOfSuit actor') = length (playsOutOfSuit actor) /\
    (forall ts, tsuit (trick st) = Some ts -> suit (action summary) <> ts ->
                nth_error (playsOutOfSuit actor') (suits ts) = Some true) /\
    (forall k, nth_error (playsOutOfSuit actor) k = Some true ->
               nth_error (playsOutOfSuit actor') k = Some true) /\
    cards (trick st') = cards (trick st) ++ [action summary] /\
    tsuit (trick st')
      = match tsuit (trick st) with
        | None => Some (suit (action summary))
        | Some s => Some s
        end /\
    (forall s, s <> seat -> nth_error (players st') s = nth_error (players st) s) /\
    length (players st') = length (players st) /\
    map score (players st') = map score (players st) /\
    trickLeader st' = trickLeader st /\
    simplified st' = simplified st.
Proof.
  intros Hnth Hnd Hflags Hin.
  assert (Hlt : (seat < length (players st))%nat).
  { apply nth_error_Some. rewrite Hnth. discriminate. }
  eexists. eexists.
  exists (afterPlay (trick st) (action summary) actor (nextRef w)).
  split; [apply (playCard_eq st seat); assumption|].
  simpl.
  split; [apply nth_error_update_eq; exact Hlt|].
  split; [reflexivity|].
  split; [rewrite In_filter_other; intros [_ H]; apply H; reflexivity|].
  split; [intros c Hc; rewrite In_filter_other; tauto|].
  split; [intro Hh; apply filter_remove_perm; assumption|].
  split.
  { destruct (tsuit (trick st)) as [ts|]; [|reflexivity].
    destruct (negb (Suit_eqb ts (suit (action summary)))); [|reflexivity].
    apply length_mapi_from. }
  split.
  { intros ts Hts Hne. rewrite Hts.
    assert (Hlen : (suits ts < length (playsOutOfSuit actor))%nat)
      by (rewrite Hflags; destruct ts; simpl; lia).
    assert (E : Suit_eqb ts (suit (action summary)) = false).
    { apply Suit_eqb_neq. intro H. apply Hne. symmetry. exact H. }
    rewrite E. simpl. rewrite nth_error_mapi.
    destruct (nth_error (playsOutOfSuit actor) (suits ts)) as [b|] eqn:Eb.
    - simpl. rewrite Nat.eqb_refl. reflexivity.
    - apply nth_error_None in Eb. lia. }
  split.
  { intros k Hk.
    destruct (tsuit (trick st)) as [ts|]; [|exact Hk].
    destruct (negb (Suit_eqb ts (suit (action summary)))); [|exact Hk].
    rewrite nth_error_mapi, Hk. simpl.
    destruct (k =? suits ts)%nat; reflexivity. }
  split; [reflexivity|].
  split; [reflexivity|].
  split; [intros s Hs; apply nth_error_update_neq; intro E; apply Hs; symmetry; exact E|].
  split; [apply update_length|].
  split.
  { rewrite map_update. apply update_same.
    simpl. rewrite nth_error_map, Hnth. reflexivity. }
  split; reflexivity.
Qed.

(** Seat 2, void in hearts, discards the king of clubs on a heart lead. *)
Lemma playCard_frame_witness :
  exists st' w' actor',
    @playCard unit example_table example_south (mkSummary (mkCard clubs 13) 1 tt)
             (mkWorld [] 4) = (w', Ok st') /\
    nth_error (players st') 2 = Some actor' /\
    hand actor' = [mkCard spades 12; mkCard diamonds 3] /\
    nth_error (playsOutOfSuit actor') (suits hearts) = Some true /\
    cards (trick st') = [mkCard hearts 2; mkCard hearts 5; mkCard clubs 13].
Proof.
  destruct (playCard_frame example_table 2 example_south
              (mkSummary (mkCard clubs 13) 1%Q tt) (mkWorld [] 4))
    as [st' [w' [actor' [E [Hn [Hh [_ [_ [_ [_ [Hf [_ [Hc _]]]]]]]]]]]]].
  - reflexivity.
  - repeat constructor; simpl; intuition discriminate.
  - reflexivity.
  - left. reflexivity.
  - exists st', w', actor'. split; [exact E|].
    split; [exact Hn|]. split; [exact Hh|].
    split; [apply Hf; [reflexivity | discriminate]|].
    exact Hc.
Defined.

(** ** One turn, one round *)

Section TurnFacts.
Context {Trace : Type}.

Lemma selectPlay_fold_In (l : list (ActionSummary Trace))
      (acc : option (ActionSummary Trace)) (s : ActionSummary Trace) :
  fold_left selectStep l acc = Some s -> acc = Some s \/ In s l.
Proof.
  revert acc. induction l as [|x l IH]; intros acc H; simpl in H.
  - left. exact H.
  - apply IH in H. destruct H as [H|H]; [|right; right; exact H].
    unfold selectStep in H. destruct acc as [a|].
    + destruct (Qgtb (quality x) (quality a)).
      * inversion H. right. left. reflexivity.
      * left. exact H.
    + inversion H. right. left. reflexivity.
Qed.

Lemma selectPlay_fold_some (l : list (ActionSummary Trace))
      (a : ActionSummary Trace) :
  fold_left selectStep l (Some a) <> None.
Proof.
  revert a. induction l as [|x l IH]; intro a; simpl; [discriminate|].
  destruct (Qgtb (quality x) (quality a)); apply IH.
Qed.

Lemma selectPlay_In (l : list (ActionSummary Trace)) (s : ActionSummary Trace) :
  selectPlay l = Some s -> In s l.
Proof.
  intro H. apply (selectPlay_fold_In l None s) in H.
  destruct H as [H|H]; [discriminate | exact H].
Qed.

Lemma selectPlay_nonempty (l : list (ActionSummary Trace)) :
  l <> [] -> selectPlay l <> None.
Proof.
  destruct l as [|x l]; intro H; [exfalso; apply H; reflexivity|].
  apply (selectPlay_fold_some l x).
Qed.

(** What a turn does, by cases. *)
Lemma playTurn_cases (policies : list (Policy Trace)) (st : State) (i : nat)
      (w : World Trace) :
  match nth_error (players st) ((trickLeader st + i) mod 4) with
  | None => playTurn policies st i w = (w, Err TypeError)
  | Some player =>
      match nth_error policies (policy player) with
      | None => playTurn policies st i w = (w, Err TypeError)
      | Some f =>
          let plays := validPlays st (hand player) in
          let w1 := mkWorld (log w ++ [PolicyCall st player plays]) (nextRef w) in
          match selectPlay (f st player plays) with
          | None => playTurn policies st i w = (w1, Err NoPlay)
          | Some play => playTurn policies st i w = playCard st player play w1
          end
      end
  end.
Proof.
  unfold playTurn, callPolicy.
  destruct (nth_error (players st) _) as [player|]; [|reflexivity].
  destruct (nth_error policies (policy player)) as [f|]; [|reflexivity].
  unfold bind, emit, ret, throw. simpl.
  destruct (selectPlay _); reflexivity.
Qed.

(** A turn that returns a state returns the one [playCard] builds. *)
Lemma playTurn_ok_inv (policies : list (Policy Trace)) (st st' : State) (i : nat)
      (w w' : World Trace) :
  playTurn policies st i w = (w', Ok st') ->
  exists player f play,
    nth_error (players st) ((trickLeader st + i) mod 4) = Some player /\
    nth_error policies (policy player) = Some f /\
    selectPlay (f st player (validPlays st (hand player))) = Some play /\
    playCard st player play
             (mkWorld (log w ++ [PolicyCall st player (validPlays st (hand player))])
                      (nextRef w))
    = (w', Ok st').
Proof.
  intro H. pose proof (playTurn_cases policies st i w) as C.
  destruct (nth_error (players st) _) as [player|] eqn:Ep;
    [|rewrite C in H; discriminate].
  destruct (nth_error policies (policy player)) as [f|] eqn:Ef;
    [|rewrite C in H; discriminate].
  simpl in C. destruct (selectPlay _) as [play|] eqn:E; [|rewrite C in H; discriminate].
  exists player, f, play. rewrite <- C. repeat split; assumption.
Qed.

(** A turn fails only for want of a player, a policy or a play. *)
Lemma playTurn_err_inv (policies : list (Policy Trace)) (st : State) (i : nat)
      (w w' : World Trace) (e : error) :
  playTurn policies st i w = (w', Err e) -> e = TypeError \/ e = NoPlay.
Proof.
  intro H. pose proof (playTurn_cases policies st i w) as C.
  destruct (nth_error (players st) _) as [player|];
    [|rewrite C in H; inversion H; left; reflexivity].
  destruct (nth_error policies (policy player)) as [f|];
    [|rewrite C in H; inversion H; left; reflexivity].
  simpl in C. destruct (selectPlay _) as [play|];
    [|rewrite C in H; inversion H; right; reflexivity].
  rewrite C in H.
  destruct (playCard_total st player play
              (mkWorld (log w ++ [PolicyCall st player (validPlays st (hand player))])
                       (nextRef w))) as [ps' [n E]].
  rewrite E in H. discriminate.
Qed.

(** A property of states kept by the body is kept by the loop. *)
Lemma forOf_preserves {A S : Type} (P : S -> Prop) (body : S -> A -> M Trace S) :
  (forall s x w s' w', body s x w = (w', Ok s') -> P s -> P s') ->
  forall xs s w s' w', forOf xs body s w = (w', Ok s') -> P s -> P s'.
Proof.
  intros Hbody xs. induction xs as [|x xs IH]; intros s w s' w' H Hs; simpl in H.
  - inversion H. subst. exact Hs.
  - unfold bind in H. destruct (body s x w) as [w1 [s1|e]] eqn:E; [|discriminate].
    eapply IH; [exact H|]. eapply Hbody; eassumption.
Qed.

(** The errors of the loop are errors of its body. *)
Lemma forOf_errors {A S : Type} (E : error -> Prop) (body : S -> A -> M Trace S) :
  (forall s x w w' e, body s x w = (w', Err e) -> E e) ->
  forall xs s w w' e, forOf xs body s w = (w', Err e) -> E e.
Proof.
  intros Hbody xs. induction xs as [|x xs IH]; intros s w w' e H; simpl in H.
  - discriminate.
  - unfold bind in H. destruct (body s x w) as [w1 [s1|e1]] eqn:Eb.
    + eapply IH. exact H.
    + inversion H. subst. eapply Hbody. exact Eb.
Qed.

Lemma resolveTrick_ok_inv (st st' : State) (w w' : World Trace) :
  resolveTrick st w = (w', Ok st') ->
  exists card cardIndex winningPlayer,
    trickWinner (trick st) = Some card /\
    indexOf card (cards (trick st)) = Some cardIndex /\
    nth_error (players st) ((cardIndex + trickLeader st) mod 4) = Some winningPlayer.
Proof.
  unfold resolveTrick. intro H.
  destruct (trickWinner (trick st)) as [card|] eqn:Ec; [|discriminate].
  destruct (indexOf card (cards (trick st))) as [cardIndex|] eqn:Ei; [|discriminate].
  destruct (nth_error (players st) _) as [wp|] eqn:E; [|discriminate].
  exists card, cardIndex, wp. repeat split; assumption.
Qed.

Lemma resolveTrick_heartsBroken (st st' : State) (w w' : World Trace) :
  resolveTrick st w = (w', Ok st') -> heartsBroken st' = heartsBroken st.
Proof.
  unfold resolveTrick. intro H.
  destruct (trickWinner (trick st)) as [card|]; [|discriminate].
  destruct (indexOf card (cards (trick st))) as [cardIndex|]; [|discriminate].
  destruct (nth_error (players st) _) as [wp|] eqn:E; [|discriminate].
  unfold bind in H.
  destruct (forEach _ _ w) as [w1 [[]|e]]; [|discriminate].
  destruct (mapM _ _ w1) as [w2 [ps'|e]]; [|discriminate].
  unfold ret in H. inversion H. reflexivity.
Qed.

Lemma playTurn_heartsBroken (policies : list (Policy Trace)) (st st' : State)
      (i : nat) (w w' : World Trace) :
  playTurn policies st i w = (w', Ok st') ->
  heartsBroken st = true -> heartsBroken st' = true.
Proof.
  intros H Hb. apply playTurn_ok_inv in H.
  destruct H as [player [f [play [_ [_ [_ H]]]]]].
  destruct (playCard_total st player play
              (mkWorld (log w ++ [PolicyCall st player (validPlays st (hand player))])
                       (nextRef w))) as [ps' [n E]].
  rewrite E in H. inversion H. simpl. rewrite Hb. reflexivity.
Qed.

Lemma playRound_heartsBroken (policies : list (Policy Trace)) (st st' : State)
      (w w' : World Trace) :
  playRound policies st w = (w', Ok st') ->
  heartsBroken st = true -> heartsBroken st' = true.
Proof.
  unfold playRound. intros H Hb. unfold bind in H.
  destruct (forOf (range 4) (playTurn policies) st w) as [w1 [s1|e]] eqn:E;
    [|discriminate].
  rewrite (resolveTrick_heartsBroken _ _ _ _ H).
  revert E Hb. apply (forOf_preserves (fun s => heartsBroken s = true)).
  intros s x w0 s' w0' Hs. exact (playTurn_heartsBroken policies s s' x w0 w0' Hs).
Qed.

End TurnFacts.

(** C6. [heartsBroken] is one-way.  Play-a-card always returns a state, in
    which the flag is set exactly when it was set or the played card is
    worth points; the resolution of a trick leaves the flag as it is; and a
    flag that is set is still set after a round and after any number of
    rounds. *)
Theorem heartsBroken_one_way {Trace : Type} (policies : list (Policy Trace))
        (st : State) (w : World Trace) :
  (forall actor summary,
     exists st' w',
       playCard st actor summary w = (w', Ok st') /\
       (heartsBroken st' = true <->
        heartsBroken st = true \/ cardPoints (action summary) (simplified st) <> 0)) /\
  (forall st' w',
     resolveTrick st w = (w', Ok st') -> heartsBroken st' = heartsBroken st) /\
  (forall st' w',
     playRound policies st w = (w', Ok st') ->
     heartsBroken st = true -> heartsBroken st' = true) /\
  (forall n st' w',
     forOf (range n) (fun state _ => playRound policies state) st w = (w', Ok st') ->
     heartsBroken st = true -> heartsBroken st' = true).
Proof.
  split; [|split; [|split]].
  - intros actor summary.
    destruct (playCard_total st actor summary w) as [ps' [k E]].
    eexists. eexists. split; [exact E|]. simpl.
    rewrite orb_true_iff, negb_true_iff, Z.eqb_neq. reflexivity.
  - intros st' w'. apply resolveTrick_heartsBroken.
  - intros st' w'. apply playRound_heartsBroken.
  - intros n st' w'. apply (forOf_preserves (fun s => heartsBroken s = true)).
    intros s x w0 s' w0'. apply playRound_heartsBroken.
Qed.

(** ** The resolve-a-trick transition *)

Lemma ref_eqb_seat (ps : list Player) (i j : nat) (p q : Player) :
  NoDup (map ref ps) ->
  nth_error ps i = Some p -> nth_error ps j = Some q ->
  (ref p =? ref q)%nat = (i =? j)%nat.
Proof.
  intros Hnd Hi Hj.
  destruct (i =? j)%nat eqn:E.
  - apply Nat.eqb_eq in E. subst j. rewrite Hi in Hj. inversion Hj.
    apply Nat.eqb_refl.
  - apply Nat.eqb_neq. intro Hr. apply Nat.eqb_neq in E. apply E.
    rewrite NoDup_nth_error in Hnd. apply Hnd.
    + rewrite length_map. apply nth_error_Some. rewrite Hi. discriminate.
    + rewrite !nth_error_map, Hi, Hj. simpl. rewrite Hr. reflexivity.
Qed.

(** C3. A resolution that goes through, at a table of four distinct
    players, makes exactly four calls of [assignReward], one per seat in
    seat order: minus the trick's points to the winning seat when the
    points are not zero, and the bonus (1/2, or 1/4 in simplified mode) to
    every other seat, and to every seat when the points are zero. *)
Theorem resolveTrick_rewards {Trace : Type} (st st' : State) (w w' : World Trace) :
  length (players st) = 4%nat ->
  NoDup (map ref (players st)) ->
  resolveTrick st w = (w', Ok st') ->
  exists card cardIndex rewards,
    trickWinner (trick st) = Some card /\
    indexOf card (cards (trick st)) = Some cardIndex /\
    trickLeader st' = ((cardIndex + trickLeader st) mod 4)%nat /\
    log w' = log w ++ rewards /\
    length rewards = 4%nat /\
    forall seat p,
      nth_error (players st) seat = Some p ->
      nth_error rewards seat
      = Some (AssignReward p
                (seatReward (simplified st)
                            (trickPoints (trick st) (simplified st))
                            ((cardIndex + trickLeader st) mod 4) seat)).
Proof.
  intros Hlen Hnd H.
  destruct (resolveTrick_ok_inv st st' w w' H) as [card [cardIndex [wp [Hc [Hi Hn]]]]].
  exists card, cardIndex,
    (map (rewardEvent (simplified st) (trickPoints (trick st) (simplified st)) wp)
         (players st)).
  split; [exact Hc|]. split; [exact Hi|].
  pose proof (resolveTrick_eq st card cardIndex wp w Hc Hi Hn Hnd) as E.
  simpl in E. rewrite E in H. clear E.
  assert (Hres : trickLeader st' = ((cardIndex + trickLeader st) mod 4)%nat /\
                 log w' = log w ++ map (rewardEvent (simplified st)
                                          (trickPoints (trick st) (simplified st)) wp)
                                       (players st)).
  { destruct (trickPoints (trick st) (simplified st) =? 0);
      inversion H; split; reflexivity. }
  destruct Hres as [Hl Hlog].
  split; [exact Hl|]. split; [exact Hlog|].
  split; [rewrite length_map; exact Hlen|].
  intros seat p Hp. rewrite nth_error_map, Hp. simpl.
  unfold rewardEvent, seatReward.
  rewrite (ref_eqb_seat (players st) seat ((cardIndex + trickLeader st) mod 4) p wp Hnd Hp Hn).
  reflexivity.
Qed.

(** The scenario of the spec: seat 3 takes three points, the others the
    bonus. *)
Lemma resolveTrick_rewards_witness :
  exists st' w' rewards,
    @resolveTrick unit example_resolution (mkWorld [] 4) = (w', Ok st') /\
    trickLeader st' = 3%nat /\
    log w' = rewards /\
    map (fun e => match e with AssignReward p r => Some (policy p, r) | _ => None end)
        rewards
    = [Some (0%nat, 1 # 2); Some (1%nat, 1 # 2); Some (2%nat, 1 # 2);
       Some (3%nat, inject_Z (-3))].
Proof.
  destruct (@resolveTrick unit example_resolution (mkWorld [] 4)) as [w' [st'|e]] eqn:E;
    [|vm_compute in E; discriminate E].
  destruct (resolveTrick_rewards example_resolution st' (mkWorld [] 4) w')
    as [card [cardIndex [rewards [Hc [Hi [Hl [Hlog _]]]]]]].
  - reflexivity.
  - repeat constructor; simpl; intuition discriminate.
  - exact E.
  - exists st', w', (log w'). split; [reflexivity|].
    vm_compute in E. inversion E. split; [reflexivity|]. split; reflexivity.
Defined.

(** ** When [trickWinner] finds no winner *)

Lemma trickWinner_step_some (s : option Suit) (l : list Card) (a : Card) :
  fold_left (trickWinner_step s) l (Some a) <> None.
Proof.
  revert a. induction l as [|x l IH]; intro a; simpl; [discriminate|].
  unfold trickWinner_step at 2.
  destruct (_ && _); apply IH.
Qed.

Lemma trickWinner_none_fold (s : option Suit) (l : list Card) :
  fold_left (trickWinner_step s) l None = None <->
  forall c, In c l -> match s with Some s' => suit c <> s' | None => False end.
Proof.
  induction l as [|x l IH]; simpl.
  - split; [intros _ c [] | reflexivity].
  - unfold trickWinner_step at 2. rewrite andb_true_r.
    destruct s as [s'|].
    + destruct (Suit_eqb (suit x) s') eqn:E.
      * split.
        -- intro H. exfalso. exact (trickWinner_step_some _ _ _ H).
        -- intro H. exfalso. apply Suit_eqb_eq in E.
           exact (H x (or_introl eq_refl) E).
      * rewrite IH. apply Suit_eqb_neq in E. split.
        -- intros H c [<-|Hc]; [exact E | apply H; exact Hc].
        -- intros H c Hc. apply H. right. exact Hc.
    + split.
      * intro H. exfalso. exact (trickWinner_step_some _ _ _ H).
      * intro H. exfalso. exact (H x (or_introl eq_refl)).
Qed.

(** A trick is led when its suit is that of its first card. *)
Lemma led_trickWinner (t : Trick) (c : Card) (rest : list Card) :
  cards t = c :: rest -> tsuit t = Some (suit c) -> trickWinner t <> None.
Proof.
  intros Hc Hs H. unfold trickWinner in H. rewrite trickWinner_none_fold in H.
  rewrite Hs in H. apply (H c); [rewrite Hc; left; reflexivity | reflexivity].
Qed.

Section RoundErrors.
Context {Trace : Type}.

Lemma playTurn_led (policies : list (Policy Trace)) (st st' : State) (i : nat)
      (w w' : World Trace) :
  playTurn policies st i w = (w', Ok st') ->
  trick st = mkTrick None [] \/ ledState st ->
  ledState st'.
Proof.
  intros H Hst. apply playTurn_ok_inv in H.
  destruct H as [player [f [play [_ [_ [_ H]]]]]].
  destruct (playCard_total st player play
              (mkWorld (log w ++ [PolicyCall st player (validPlays st (hand player))])
                       (nextRef w))) as [ps' [n E]].
  rewrite E in H. inversion H. subst. clear H E. unfold ledState. simpl.
  destruct Hst as [Hst|[c [rest [Hc Hs]]]].
  - rewrite Hst. simpl. exists (action play), []. split; reflexivity.
  - rewrite Hc, Hs. simpl. exists c, (rest ++ [action play]). split; reflexivity.
Qed.

(** A resolution whose winner is found returns a state. *)
Lemma resolveTrick_total (st : State) (card : Card) (cardIndex : nat)
      (winningPlayer : Player) (w : World Trace) :
  trickWinner (trick st) = Some card ->
  indexOf card (cards (trick st)) = Some cardIndex ->
  nth_error (players st) ((cardIndex + trickLeader st) mod 4) = Some winningPlayer ->
  exists ps' n,
    resolveTrick st w
    = (mkWorld (log w ++ map (rewardEvent (simplified st)
                                (trickPoints (trick st) (simplified st))
                                winningPlayer)
                             (players st)) n,
       Ok (mkState ps' (mkTrick None []) (heartsBroken st) (simplified st)
                   ((cardIndex + trickLeader st) mod 4))) /\
    length ps' = length (players st).
Proof.
  intros Hw Hi Hn. unfold resolveTrick. rewrite Hw, Hi, Hn.
  unfold bind at 1.
  rewrite (forEach_emit _ (rewardEvent (simplified st)
                             (trickPoints (trick st) (simplified st)) winningPlayer)).
  2:{ intros p w0. unfold rewardEvent, assignReward, emit.
      destruct (negb (trickPoints (trick st) (simplified st) =? 0)
                && (ref p =? ref winningPlayer)%nat);
        reflexivity. }
  unfold bind at 1.
  match goal with
  | |- context [mapM _ _ ?w1] =>
      destruct (mapM_total
                  (fun player => negb (trickPoints (trick st) (simplified st) =? 0)
                                 && (ref player =? ref winningPlayer)%nat)
                  (withPoints (trickPoints (trick st) (simplified st)))
                  (players st) w1) as [ps' [n [E L]]]
  end.
  exists ps', n. rewrite E. split; [reflexivity | exact L].
Qed.

(** A resolution fails only at one of its three checks. *)
Lemma resolveTrick_err_inv (st : State) (w w' : World Trace) (e : error) :
  resolveTrick st w = (w', Err e) ->
  (e = NoTrickWinner /\ trickWinner (trick st) = None) \/
  e = WinningCardNotFound \/ e = NoWinningPlayer.
Proof.
  intro H.
  destruct (trickWinner (trick st)) as [card|] eqn:Hw.
  - destruct (indexOf card (cards (trick st))) as [cardIndex|] eqn:Hi.
    + destruct (nth_error (players st) ((cardIndex + trickLeader st) mod 4))
        as [wp|] eqn:Hn.
      * destruct (resolveTrick_total st card cardIndex wp w Hw Hi Hn)
          as [ps' [n [E _]]].
        rewrite E in H. discriminate.
      * unfold resolveTrick in H. rewrite Hw, Hi, Hn in H.
        inversion H. right. right. reflexivity.
    + unfold resolveTrick in H. rewrite Hw, Hi in H.
      inversion H. right. left. reflexivity.
  - unfold resolveTrick in H. rewrite Hw in H. inversion H.
    left. split; reflexivity.
Qed.

Lemma playRound_never_without_winner (policies : list (Policy Trace)) (st : State)
      (w : World Trace) :
  trick st = mkTrick None [] ->
  snd (playRound policies st w) <> Err NoTrickWinner.
Proof.
  intro Hst. unfold playRound. unfold bind at 1.
  destruct (forOf (range 4) (playTurn policies) st w) as [w1 [s1|e]] eqn:E.
  - assert (Hled : ledState s1).
    { simpl in E. unfold bind at 1 in E.
      destruct (playTurn policies st 0 w) as [w0 [s0|e0]] eqn:E0; [|discriminate].
      assert (H0 : ledState s0) by (eapply playTurn_led; [exact E0 | left; exact Hst]).
      revert E H0.
      apply (forOf_preserves ledState (playTurn policies)
               (fun s x w0 s' w0' Hs Hl => playTurn_led policies s s' x w0 w0' Hs (or_intror Hl))
               [1; 2; 3]%nat). }
    destruct Hled as [c [rest [Hc Hs]]].
    pose proof (led_trickWinner (trick s1) c rest Hc Hs) as Hw.
    destruct (resolveTrick s1 w1) as [w2 [s2|e]] eqn:Er; simpl; [discriminate|].
    apply resolveTrick_err_inv in Er.
    destruct Er as [[_ Hnone]|[->| ->]]; [contradiction | discriminate | discriminate].
  - simpl. intro H. inversion H. subst e.
    apply (forOf_errors (fun e => e = TypeError \/ e = NoPlay) (playTurn policies)
             (fun s x w0 w0' e => playTurn_err_inv policies s x w0 w0' e)) in E.
    destruct E; discriminate.
Qed.

End RoundErrors.

(** C9, as the code has it.  [trickWinner] finds no winner exactly when no
    card of the trick follows the trick's suit (every card does when no
    suit is set, so an empty trick is then the only case); a trick whose
    suit is that of its first card has a winner; and a round that starts
    from an empty trick never ends in 'No trick winner could be determined
    at round end'. *)
Theorem trickWinner_none_iff_no_card_of_suit {Trace : Type}
        (policies : list (Policy Trace)) (t : Trick) (st : State) (w : World Trace) :
  (trickWinner t = None <->
   forall c, In c (cards t) ->
             match tsuit t with Some s => suit c <> s | None => False end) /\
  (forall c rest, cards t = c :: rest -> tsuit t = Some (suit c) ->
                  exists winner, trickWinner t = Some winner) /\
  (trick st = mkTrick None [] ->
   snd (playRound policies st w) <> Err NoTrickWinner).
Proof.
  split; [apply trickWinner_none_fold|]. split.
  - intros c rest Hc Hs. pose proof (led_trickWinner t c rest Hc Hs) as H.
    destruct (trickWinner t) as [winner|]; [exists winner; reflexivity|].
    exfalso. apply H. reflexivity.
  - apply playRound_never_without_winner.
Qed.

(** C9, as stated, fails: a trick with a card and no winner. *)
Lemma trickWinner_nonempty_without_winner :
  cards (mkTrick (Some hearts) [mkCard clubs 2]) <> [] /\
  trickWinner (mkTrick (Some hearts) [mkCard clubs 2]) = None /\
  ~ (forall t : Trick, cards t <> [] -> exists c, trickWinner t = Some c).
Proof.
  split; [discriminate|]. split; [reflexivity|].
  intro H. destruct (H (mkTrick (Some hearts) [mkCard clubs 2])) as [c Hc].
  - discriminate.
  - discriminate Hc.
Qed.

(** ** The shuffle *)

Lemma toInt32_small (z : Z) (x : Q) :
  Z.quot (Qnum x) (Zpos (Qden x)) = z -> 0 <= z < 2 ^ 31 -> toInt32 x = z.
Proof.
  intros Hq Hz. unfold toInt32. rewrite Hq.
  rewrite Z.mod_small; lia.
Qed.

(** A draw in [0, 1) picks an index of the array. *)
Lemma draw_in_range (r : Q) (n : Z) :
  (0 <= r)%Q -> (r < 1)%Q -> 0 < n < 2 ^ 31 ->
  0 <= toInt32 (r * inject_Z n) < n.
Proof.
  intros H0 H1 Hn. destruct r as [a b].
  unfold Qle in H0. unfold Qlt in H1. simpl in H0, H1.
  assert (Ha : 0 <= a) by lia.
  assert (Hb : a < Zpos b) by lia.
  assert (Hq : 0 <= Z.quot (a * n) (Zpos (b * 1)) < n).
  { rewrite Pos.mul_1_r. rewrite Z.quot_div_nonneg by nia.
    split.
    - apply Z.div_pos; nia.
    - apply Z.div_lt_upper_bound; nia. }
  rewrite (toInt32_small (Z.quot (a * n) (Zpos (b * 1)))).
  - exact Hq.
  - reflexivity.
  - assert (2 ^ 31 = 2147483648) by reflexivity. lia.
Qed.

Lemma update_swap_head {A : Type} (d x : A) (l : list A) (j : nat) :
  (j < length l)%nat ->
  Permutation (nth j l d :: update j x l) (x :: l).
Proof.
  revert j. induction l as [|y l IH]; intros [|j] H; simpl in *; try lia.
  - apply perm_swap.
  - eapply perm_trans; [apply perm_swap|].
    eapply perm_trans; [|apply perm_swap].
    constructor. apply IH. lia.
Qed.

(** Exchanging two slots of a list permutes it. *)
Lemma swap_permutation {A : Type} (d : A) (l : list A) (i j : nat) :
  (i < length l)%nat -> (j < length l)%nat ->
  Permutation (update j (nth i l d) (update i (nth j l d) l)) l.
Proof.
  revert i j. induction l as [|x l IH]; intros i j Hi Hj; simpl in *; [lia|].
  destruct i as [|i], j as [|j]; simpl.
  - reflexivity.
  - apply update_swap_head. lia.
  - apply update_swap_head. lia.
  - constructor. apply IH; lia.
Qed.

(** One iteration with an index in range exchanges slots [i] and [j]. *)
Lemma shuffle_step_in_range (deck : JsArray) (i : nat) (j : Z) :
  (i < length (elems deck))%nat ->
  0 <= j < Z.of_nat (length (elems deck)) ->
  jsSet (jsSet deck (Z.of_nat i) (jsGet deck j)) j (jsGet deck (Z.of_nat i))
  = mkJsArray (update (Z.to_nat j) (nth i (elems deck) None)
                      (update i (nth (Z.to_nat j) (elems deck) None) (elems deck)))
              (props deck).
Proof.
  intros Hi Hj. unfold jsGet, jsSet.
  assert (E1 : (Z.of_nat i <? 0) = false) by (apply Z.ltb_ge; lia).
  assert (E2 : (j <? 0) = false) by (apply Z.ltb_ge; lia).
  rewrite E1, E2. rewrite Nat2Z.id.
  assert (E3 : (i <? length (elems deck))%nat = true) by (apply Nat.ltb_lt; exact Hi).
  rewrite E3. simpl. rewrite update_length.
  assert (E4 : (Z.to_nat j <? length (elems deck))%nat = true)
    by (apply Nat.ltb_lt; lia).
  rewrite E4. reflexivity.
Qed.

(** With draws in [0, 1) the loop ends after [length - i] more iterations
    and has permuted the array. *)
Lemma shuffleLoop_permutes (random : nat -> Q) (k : nat) :
  unitRange random ->
  forall (i fuel : nat) (deck : JsArray),
    (i + k = length (elems deck))%nat ->
    (k <= fuel)%nat ->
    Z.of_nat (length (elems deck)) < 2 ^ 31 ->
    exists deck',
      shuffleLoop fuel random i deck = Some deck' /\
      props deck' = props deck /\
      Permutation (elems deck') (elems deck).
Proof.
  intro Hr. induction k as [|k IH]; intros i fuel deck Hik Hfuel Hlen.
  - exists deck. split; [|split; reflexivity].
    destruct fuel; simpl;
      (assert (E : (i <? length (elems deck))%nat = false)
         by (apply Nat.ltb_ge; lia)); rewrite E; reflexivity.
  - destruct fuel as [|fuel]; [lia|].
    simpl.
    assert (E : (i <? length (elems deck))%nat = true) by (apply Nat.ltb_lt; lia).
    rewrite E.
    destruct (Hr i) as [H0 H1].
    pose proof (draw_in_range (random i) (Z.of_nat (length (elems deck))) H0 H1) as Hj.
    specialize (Hj ltac:(lia)).
    rewrite shuffle_step_in_range by lia.
    match goal with
    | |- context [shuffleLoop fuel random (S i) ?d] =>
        destruct (IH (S i) fuel d) as [deck' [Hs [Hp Hperm]]]
    end.
    + simpl. rewrite !update_length. lia.
    + lia.
    + simpl. rewrite !update_length. exact Hlen.
    + exists deck'. split; [exact Hs|]. split; [exact Hp|].
      eapply perm_trans; [exact Hperm|]. simpl.
      apply swap_permutation; lia.
Qed.

Lemma freshDeck_length : length freshDeck = 52%nat.
Proof. reflexivity. Qed.

Lemma NoDup_by_check (l : list Card) :
  (fix check (l : list Card) : bool :=
     match l with
     | [] => true
     | x :: l' => negb (existsb (Card_eqb x) l') && check l'
     end) l = true ->
  NoDup l.
Proof.
  induction l as [|x l IH]; intro H; [constructor|].
  apply andb_true_iff in H. destruct H as [Hx Hl]. constructor.
  - intro Hin. apply negb_true_iff in Hx.
    assert (E : existsb (Card_eqb x) l = true).
    { apply existsb_exists. exists x. split; [exact Hin | apply Card_eqb_refl]. }
    rewrite E in Hx. discriminate.
  - apply IH. exact Hl.
Qed.

Lemma freshDeck_NoDup : NoDup freshDeck.
Proof. apply NoDup_by_check. vm_compute. reflexivity. Qed.

(** The shuffled deck, with draws in [0, 1): the 52 cards in some order. *)
Lemma shuffleDeck_permutes (random : nat -> Q) (fuel : nat) :
  unitRange random -> (52 <= fuel)%nat ->
  exists cs,
    shuffleDeck fuel (mkJsArray (map Some freshDeck) []) random
    = Some (mkJsArray (map Some cs) []) /\
    Permutation cs freshDeck.
Proof.
  intros Hr Hfuel. unfold shuffleDeck.
  destruct (shuffleLoop_permutes random 52 Hr 0 fuel
              (mkJsArray (map Some freshDeck) [])) as [deck' [Hs [Hp Hperm]]].
  - reflexivity.
  - exact Hfuel.
  - cbn [elems]. rewrite length_map, freshDeck_length. lia.
  - cbn [elems props] in Hp, Hperm.
    apply Permutation_map_inv in Hperm. destruct Hperm as [cs [Hcs Hperm']].
    exists cs. split.
    + rewrite Hs. destruct deck' as [el pr]. cbn [elems props] in Hp, Hcs.
      subst. reflexivity.
    + apply Permutation_sym. exact Hperm'.
Qed.

(** ** The shuffle under any draw *)

Lemma somes_app (l l' : list (option Card)) : somes (l ++ l') = somes l ++ somes l'.
Proof.
  induction l as [|[c|] l IH]; simpl; [reflexivity | rewrite IH; reflexivity | exact IH].
Qed.

Lemma somes_perm (l l' : list (option Card)) :
  Permutation l l' -> Permutation (somes l) (somes l').
Proof.
  intro H. induction H as [|x l l' H IH|x y l|l l' l'' H1 IH1 H2 IH2].
  - constructor.
  - destruct x; simpl; [constructor|]; exact IH.
  - destruct x, y; simpl; try reflexivity. apply perm_swap.
  - eapply perm_trans; eassumption.
Qed.

Lemma somes_map_Some (cs : list Card) : somes (map Some cs) = cs.
Proof. induction cs as [|c cs IH]; simpl; [reflexivity | rewrite IH; reflexivity]. Qed.

Lemma somes_repeat_None (k : nat) : somes (repeat None k) = [].
Proof. induction k; simpl; [reflexivity | assumption]. Qed.

Lemma filter_other_key_id (j : Z) (ps : list (Z * option Card)) :
  ~ In j (map fst ps) -> filter (fun kv => negb (fst kv =? j)) ps = ps.
Proof.
  induction ps as [|[k x] ps IH]; intro H; simpl; [reflexivity|].
  destruct (k =? j) eqn:E.
  - apply Z.eqb_eq in E. exfalso. apply H. left. exact E.
  - simpl. rewrite IH; [reflexivity|]. intro Hin. apply H. right. exact Hin.
Qed.

Lemma filter_other_key_notin (j : Z) (ps : list (Z * option Card)) :
  ~ In j (map fst (filter (fun kv => negb (fst kv =? j)) ps)).
Proof.
  intro H. apply in_map_iff in H. destruct H as [[k x] [E H]].
  apply filter_In in H. destruct H as [_ H]. simpl in E, H. subst k.
  rewrite Z.eqb_refl in H. discriminate.
Qed.

Lemma filter_other_key_NoDup (j : Z) (ps : list (Z * option Card)) :
  NoDup (map fst ps) -> NoDup (map fst (filter (fun kv => negb (fst kv =? j)) ps)).
Proof.
  induction ps as [|[k x] ps IH]; intro H; simpl; [constructor|].
  inversion H as [|? ? Hk Hps]. subst.
  destruct (k =? j); simpl; [apply IH; exact Hps|].
  constructor; [|apply IH; exact Hps].
  intro Hin. apply Hk. apply in_map_iff in Hin. destruct Hin as [kv [E Hin]].
  apply filter_In in Hin. apply in_map_iff. exists kv. tauto.
Qed.

(** Taking the value of a property out of the property list. *)
Lemma props_take (j : Z) (ps : list (Z * option Card)) :
  NoDup (map fst ps) ->
  Permutation (somes (map snd ps))
              (somes (lookupProp j ps
                        :: map snd (filter (fun kv => negb (fst kv =? j)) ps))).
Proof.
  induction ps as [|[k x] ps IH]; intro H; [reflexivity|].
  inversion H as [|? ? Hk Hps]. subst. cbn [lookupProp filter fst map snd].
  destruct (k =? j) eqn:E.
  - apply Z.eqb_eq in E. subst k. cbn [negb].
    rewrite (filter_other_key_id j ps Hk). reflexivity.
  - cbn [negb map snd].
    change (x :: map snd ps) with ([x] ++ map snd ps).
    rewrite somes_app.
    eapply perm_trans; [apply Permutation_app_head; apply IH; exact Hps|].
    rewrite <- somes_app. apply somes_perm. cbn [app]. apply perm_swap.
Qed.

Lemma jsGet_index (d : JsArray) (i : nat) :
  jsGet d (Z.of_nat i) = nth i (elems d) None.
Proof.
  unfold jsGet. assert (E : (Z.of_nat i <? 0) = false) by (apply Z.ltb_ge; lia).
  rewrite E, Nat2Z.id. reflexivity.
Qed.

Lemma jsSet_index (d : JsArray) (i : nat) (v : option Card) :
  (i < length (elems d))%nat ->
  jsSet d (Z.of_nat i) v = mkJsArray (update i v (elems d)) (props d).
Proof.
  intro H. unfold jsSet.
  assert (E : (Z.of_nat i <? 0) = false) by (apply Z.ltb_ge; lia).
  rewrite E, Nat2Z.id.
  assert (E' : (i <? length (elems d))%nat = true) by (apply Nat.ltb_lt; exact H).
  rewrite E'. reflexivity.
Qed.

(** One iteration of the shuffle, whatever the draw. *)
Lemma shuffle_step_inv (d : JsArray) (i : nat) (j : Z) :
  (i < length (elems d))%nat ->
  DeckInv d ->
  DeckInv (jsSet (jsSet d (Z.of_nat i) (jsGet d j)) j (jsGet d (Z.of_nat i))).
Proof.
  intros Hi [Hkeys [Hheld Hlen]].
  rewrite jsGet_index, (jsSet_index d i _ Hi).
  set (t := nth i (elems d) None).
  destruct (Z.ltb_spec j 0) as [Hneg|Hnn].
  - (* a negative index names a property *)
    unfold jsGet, jsSet. cbn [elems props].
    assert (E : (j <? 0) = true) by (apply Z.ltb_lt; exact Hneg).
    rewrite E. split; [|split].
    + cbn [props map fst]. constructor;
        [apply filter_other_key_notin | apply filter_other_key_NoDup; exact Hkeys].
    + unfold heldCards in *. cbn [elems props map snd].
      eapply perm_trans; [|exact Hheld].
      rewrite !somes_app.
      set (R := map snd (filter (fun kv => negb (fst kv =? j)) (props d))).
      set (v := lookupProp j (props d)).
      change (t :: R) with ([t] ++ R). rewrite somes_app, app_assoc.
      eapply perm_trans;
        [apply Permutation_app_tail; apply Permutation_app_comm|].
      rewrite <- somes_app. cbn [app].
      eapply perm_trans;
        [apply Permutation_app_tail; apply somes_perm;
         apply (update_swap_head None v (elems d) i Hi)|].
      change (v :: elems d) with ([v] ++ elems d). rewrite somes_app.
      eapply perm_trans;
        [apply Permutation_app_tail; apply Permutation_app_comm|].
      rewrite <- app_assoc. apply Permutation_app_head.
      rewrite <- somes_app. cbn [app]. apply Permutation_sym.
      apply props_take. exact Hkeys.
    + cbn [elems]. rewrite update_length. exact Hlen.
  - unfold jsGet, jsSet. cbn [elems props].
    assert (E : (j <? 0) = false) by (apply Z.ltb_ge; exact Hnn).
    rewrite E, update_length.
    destruct (Nat.ltb_spec (Z.to_nat j) (length (elems d))) as [Hin|Hout].
    + (* an index of the array: two slots are exchanged *)
      split; [exact Hkeys|]. split.
      * unfold heldCards in *. cbn [elems props].
        eapply perm_trans; [|exact Hheld].
        rewrite !somes_app. apply Permutation_app_tail. apply somes_perm.
        apply swap_permutation; assumption.
      * cbn [elems]. rewrite !update_length. exact Hlen.
    + (* past the end: the array grows *)
      rewrite (nth_overflow (elems d) None Hout).
      split; [exact Hkeys|]. split.
      * unfold heldCards in *. cbn [elems props].
        eapply perm_trans; [|exact Hheld].
        rewrite !somes_app, somes_repeat_None. cbn [app].
        apply Permutation_app_tail.
        eapply perm_trans; [apply Permutation_app_comm|].
        rewrite <- somes_app. cbn [app].
        apply (somes_perm (t :: update i None (elems d)) (None :: elems d)).
        apply update_swap_head. exact Hi.
      * cbn [elems]. rewrite !length_app, update_length. lia.
Qed.

Lemma freshDeck_DeckInv : DeckInv (mkJsArray (map Some freshDeck) []).
Proof.
  split; [constructor|]. split.
  - unfold heldCards. cbn [elems props map]. rewrite app_nil_r, somes_map_Some.
    reflexivity.
  - cbn [elems]. rewrite length_map, freshDeck_length. lia.
Qed.

(** Whatever the random source, a shuffle that ends keeps the 52 cards. *)
Lemma shuffleLoop_inv (random : nat -> Q) (fuel : nat) :
  forall (i : nat) (d d' : JsArray),
    DeckInv d -> shuffleLoop fuel random i d = Some d' -> DeckInv d'.
Proof.
  induction fuel as [|fuel IH]; intros i d d' Hd H; simpl in H.
  - destruct (i <? length (elems d))%nat; [discriminate|]. inversion H. subst. exact Hd.
  - destruct (Nat.ltb_spec i (length (elems d))) as [Hi|Hi].
    + eapply IH; [|exact H]. apply shuffle_step_inv; assumption.
    + inversion H. subst. exact Hd.
Qed.

(** ** The deal and the first state *)

Lemma definedCards_map_Some (l : list Card) : definedCards (map Some l) = Some l.
Proof.
  induction l as [|c l IH]; simpl; [reflexivity|]. rewrite IH. reflexivity.
Qed.

Lemma slice_map {A B : Type} (f : A -> B) (l : list A) (a b : nat) :
  slice (map f l) a b = map f (slice l a b).
Proof. unfold slice. rewrite skipn_map, firstn_map. reflexivity. Qed.

Lemma dealtHand_eq (cs : list Card) (seat : nat) :
  dealtHand cs seat = firstn 13 (skipn (seat * 13) cs).
Proof.
  unfold dealtHand, slice. f_equal. lia.
Qed.

Lemma deck_in_four (cs : list Card) :
  length cs = 52%nat ->
  cs = dealtHand cs 0 ++ dealtHand cs 1 ++ dealtHand cs 2 ++ dealtHand cs 3.
Proof.
  intro H. rewrite !dealtHand_eq.
  change (0 * 13)%nat with 0%nat. change (1 * 13)%nat with 13%nat.
  change (2 * 13)%nat with (13 + 13)%nat.
  change (3 * 13)%nat with (13 + (13 + 13))%nat.
  rewrite <- !skipn_skipn. rewrite skipn_O.
  rewrite <- (firstn_skipn 13 cs) at 1. f_equal.
  rewrite <- (firstn_skipn 13 (skipn 13 cs)) at 1. f_equal.
  rewrite <- (firstn_skipn 13 (skipn 13 (skipn 13 cs))) at 1. f_equal.
  symmetry. apply firstn_all2. rewrite !length_skipn. lia.
Qed.

Lemma dealtHand_length (cs : list Card) (seat : nat) :
  length cs = 52%nat -> (seat < 4)%nat -> length (dealtHand cs seat) = 13%nat.
Proof.
  intros H Hs. unfold dealtHand, slice.
  rewrite length_firstn, length_skipn. lia.
Qed.

Section DealFacts.
Context {Trace : Type}.

(** The deal of a deck without holes. *)
Lemma deal_eq (policies : list (Policy Trace)) (cs : list Card) (w : World Trace) :
  length policies = 4%nat ->
  deal policies (mkJsArray (map Some cs) []) w
  = (mkWorld (log w) (4 + nextRef w),
     Ok (map (newPlayer cs (nextRef w)) [0; 1; 2; 3]%nat)).
Proof.
  intro H. unfold deal. rewrite H. cbn [seq elems mapM].
  unfold dealtHand, newPlayer.
  rewrite !slice_map, !definedCards_map_Some.
  unfold createPlayer, bind, newObject, ret. cbn [log nextRef map].
  rewrite !Nat.add_succ_r, !Nat.add_0_r.
  reflexivity.
Qed.

Lemma find_card_In (s : Suit) (r : Z) (h : list Card) :
  (exists c, find (fun card => Suit_eqb (suit card) s && (rank card =? r)) h = Some c)
  <-> In (mkCard s r) h.
Proof.
  induction h as [|x h IH]; simpl.
  - split; [intros [c H]; discriminate | intros []].
  - destruct (Suit_eqb (suit x) s && (rank x =? r)) eqn:E.
    + split; [|intros _; exists x; reflexivity].
      intros _. left. apply andb_true_iff in E. destruct E as [E1 E2].
      apply Suit_eqb_eq in E1. apply Z.eqb_eq in E2.
      destruct x; simpl in *; subst; reflexivity.
    + rewrite IH. split; [intro H; right; exact H|].
      intros [H|H]; [|exact H].
      subst x. simpl in E. rewrite Suit_eqb_refl, Z.eqb_refl in E. discriminate.
Qed.

Lemma holds_card_iff (s : Suit) (r : Z) (p : Player) :
  match find (fun card => Suit_eqb (suit card) s && (rank card =? r)) (hand p) with
  | Some _ => true
  | None => false
  end = true <-> In (mkCard s r) (hand p).
Proof.
  rewrite <- find_card_In.
  destruct (find _ (hand p)) as [c|].
  - split; [intros _; exists c; reflexivity | reflexivity].
  - split; [discriminate | intros [c H]; discriminate].
Qed.

(** [playerWithCard] returns the first player, in seat order, whose hand
    holds the card. *)
Lemma playerWithCard_first (ps : list Player) (s : Suit) (r : Z) (seat : nat)
      (p : Player) :
  nth_error ps seat = Some p ->
  In (mkCard s r) (hand p) ->
  (forall k q, (k < seat)%nat -> nth_error ps k = Some q -> ~ In (mkCard s r) (hand q)) ->
  playerWithCard ps s r = Some p.
Proof.
  unfold playerWithCard. revert seat.
  induction ps as [|x ps IH]; intros seat Hn Hin Hbefore.
  - destruct seat; discriminate.
  - simpl. destruct seat as [|seat]; simpl in Hn.
    + inversion Hn. subst x.
      destruct (holds_card_iff s r p) as [_ H]. rewrite (H Hin). reflexivity.
    + assert (Hx : ~ In (mkCard s r) (hand x)).
      { apply (Hbefore 0%nat x); [lia | reflexivity]. }
      destruct (holds_card_iff s r x) as [H _].
      destruct (match find _ (hand x) with Some _ => true | None => false end).
      * exfalso. apply Hx. apply H. reflexivity.
      * apply (IH seat Hn Hin). intros k q Hk Hq.
        apply (Hbefore (S k) q); [lia | exact Hq].
Qed.

Lemma indexOfPlayer_nth (ps : list Player) (seat : nat) (p : Player) :
  NoDup (map ref ps) -> nth_error ps seat = Some p ->
  indexOfPlayer p ps = Some seat.
Proof.
  revert seat. induction ps as [|x ps IH]; intros seat Hnd Hn.
  - destruct seat; discriminate.
  - simpl in Hnd. inversion Hnd as [|? ? Hx Hps]. subst.
    destruct seat as [|seat]; simpl in Hn |- *.
    + inversion Hn. rewrite Nat.eqb_refl. reflexivity.
    + assert (E : (ref x =? ref p)%nat = false).
      { apply Nat.eqb_neq. intro E. apply Hx. rewrite E. apply in_map.
        eapply nth_error_In. exact Hn. }
      rewrite E, (IH seat Hps Hn). reflexivity.
Qed.

End DealFacts.

(** The points of a hand do not depend on the order of its cards. *)
Lemma handPoints_perm (simp : bool) (h h' : list Card) :
  Permutation h h' -> handPoints simp h = handPoints simp h'.
Proof.
  intro H. induction H; simpl; lia.
Qed.

Lemma handPoints_app (simp : bool) (h h' : list Card) :
  handPoints simp (h ++ h') = handPoints simp h + handPoints simp h'.
Proof. induction h as [|c h IH]; simpl; lia. Qed.

Lemma deckPoints_standard : deckPoints false = 26.
Proof. reflexivity. Qed.

Lemma deckPoints_simplified : deckPoints true = 13.
Proof. reflexivity. Qed.

Lemma NoDup_app_l {A : Type} (l l' : list A) : NoDup (l ++ l') -> NoDup l.
Proof.
  induction l as [|x l IH]; simpl; intro H; [constructor|].
  inversion H as [|? ? Hx Hl]. subst. constructor.
  - intro Hin. apply Hx. apply in_or_app. left. exact Hin.
  - apply IH. exact Hl.
Qed.

Lemma NoDup_app_r {A : Type} (l l' : list A) : NoDup (l ++ l') -> NoDup l'.
Proof.
  induction l as [|x l IH]; simpl; intro H; [exact H|].
  inversion H. apply IH. assumption.
Qed.

Lemma NoDup_app_disjoint {A : Type} (l l' : list A) (x : A) :
  NoDup (l ++ l') -> In x l -> In x l' -> False.
Proof.
  induction l as [|y l IH]; simpl; intros H Hl Hl'; [exact Hl|].
  inversion H as [|? ? Hy Hnd]. subst. destruct Hl as [<-|Hl].
  - apply Hy. apply in_or_app. right. exact Hl'.
  - exact (IH Hnd Hl Hl').
Qed.

(** In a deck without duplicates a card is dealt to one seat at most. *)
Lemma dealt_once (cs : list Card) (c : Card) (s s' : nat) :
  length cs = 52%nat -> NoDup cs -> (s < 4)%nat -> (s' < 4)%nat ->
  In c (dealtHand cs s) -> In c (dealtHand cs s') -> s = s'.
Proof.
  intros Hlen Hnd Hs Hs' Hin Hin'.
  rewrite (deck_in_four cs Hlen) in Hnd.
  pose proof (NoDup_app_disjoint (dealtHand cs 0)
                (dealtHand cs 1 ++ dealtHand cs 2 ++ dealtHand cs 3) c Hnd) as D0.
  apply NoDup_app_r in Hnd.
  pose proof (NoDup_app_disjoint (dealtHand cs 1)
                (dealtHand cs 2 ++ dealtHand cs 3) c Hnd) as D1.
  apply NoDup_app_r in Hnd.
  pose proof (NoDup_app_disjoint (dealtHand cs 2) (dealtHand cs 3) c Hnd) as D2.
  destruct s as [|[|[|[|s]]]]; try lia;
    destruct s' as [|[|[|[|s']]]]; try lia; try reflexivity; exfalso;
    first [ apply D0; [assumption | repeat (apply in_or_app; first [left; assumption | right]); assumption]
          | apply D1; [assumption | repeat (apply in_or_app; first [left; assumption | right]); assumption]
          | apply D2; assumption ].
Qed.

Lemma dealt_somewhere (cs : list Card) (c : Card) :
  length cs = 52%nat -> In c cs ->
  exists s, (s < 4)%nat /\ In c (dealtHand cs s).
Proof.
  intros Hlen Hin. rewrite (deck_in_four cs Hlen) in Hin.
  apply in_app_or in Hin. destruct Hin as [H|Hin]; [exists 0%nat; split; [lia|exact H]|].
  apply in_app_or in Hin. destruct Hin as [H|Hin]; [exists 1%nat; split; [lia|exact H]|].
  apply in_app_or in Hin. destruct Hin as [H|H];
    [exists 2%nat | exists 3%nat]; (split; [lia|exact H]).
Qed.

Lemma dealtHand_NoDup (cs : list Card) (s : nat) :
  length cs = 52%nat -> NoDup cs -> (s < 4)%nat -> NoDup (dealtHand cs s).
Proof.
  intros Hlen Hnd Hs. rewrite (deck_in_four cs Hlen) in Hnd.
  destruct s as [|[|[|[|s]]]]; try lia.
  - apply NoDup_app_l in Hnd. exact Hnd.
  - apply NoDup_app_r, NoDup_app_l in Hnd. exact Hnd.
  - apply NoDup_app_r, NoDup_app_r, NoDup_app_l in Hnd. exact Hnd.
  - apply NoDup_app_r, NoDup_app_r, NoDup_app_r in Hnd. exact Hnd.
Qed.

(** The four players of a deal are distinct objects. *)
Lemma newPlayers_refs (cs : list Card) (r : nat) :
  NoDup (map ref (map (newPlayer cs r) [0; 1; 2; 3]%nat)).
Proof.
  cbn [map newPlayer ref].
  repeat constructor; cbn [In]; intro H;
    repeat (destruct H as [H|H]; [lia|]); exact H.
Qed.


(** ** The deal of any deck *)

Lemma definedCards_Some (l : list (option Card)) (h : list Card) :
  definedCards l = Some h -> l = map Some h.
Proof.
  revert h. induction l as [|[c|] l IH]; intros h H; simpl in H.
  - inversion H. reflexivity.
  - destruct (definedCards l) as [cs|]; [|discriminate].
    inversion H. simpl. rewrite (IH cs eq_refl). reflexivity.
  - discriminate.
Qed.

Lemma firstn_plus {A : Type} (a b : nat) (l : list A) :
  firstn (a + b) l = firstn a l ++ firstn b (skipn a l).
Proof.
  revert l. induction a as [|a IH]; intro l; [reflexivity|].
  destruct l as [|x l]; simpl.
  - rewrite firstn_nil. reflexivity.
  - rewrite IH. reflexivity.
Qed.

Lemma slice_eq {A : Type} (l : list A) (seat : nat) :
  slice l (seat * 13) ((1 + seat) * 13) = firstn 13 (skipn (seat * 13) l).
Proof. unfold slice. f_equal. lia. Qed.

(** The first 52 slots of an array are the four dealt slices. *)
Lemma firstn_52_slices {A : Type} (l : list A) :
  firstn 52 l
  = slice l (0 * 13) ((1 + 0) * 13) ++ slice l (1 * 13) ((1 + 1) * 13)
    ++ slice l (2 * 13) ((1 + 2) * 13) ++ slice l (3 * 13) ((1 + 3) * 13).
Proof.
  rewrite !slice_eq.
  change (0 * 13)%nat with 0%nat. change (1 * 13)%nat with 13%nat.
  change (2 * 13)%nat with (13 + 13)%nat.
  change (3 * 13)%nat with (13 + (13 + 13))%nat.
  rewrite <- !skipn_skipn. rewrite skipn_O.
  change 52%nat with (13 + (13 + (13 + 13)))%nat.
  rewrite !firstn_plus. reflexivity.
Qed.

Lemma map_Some_inj (l l' : list Card) : map Some l = map Some l' -> l = l'.
Proof.
  revert l'. induction l as [|c l IH]; intros [|c' l'] H; simpl in H;
    try discriminate; [reflexivity|].
  inversion H. f_equal. apply IH. assumption.
Qed.

Section DealAnyDeck.
Context {Trace : Type}.

(** The deal fails on an undefined slot, and else seats four players. *)
Lemma deal_cases (policies : list (Policy Trace)) (d : JsArray) (w : World Trace) :
  length policies = 4%nat ->
  (exists w', deal policies d w = (w', Err UndefinedCard)) \/
  (exists h0 h1 h2 h3,
     definedCards (slice (elems d) (0 * 13) ((1 + 0) * 13)) = Some h0 /\
     definedCards (slice (elems d) (1 * 13) ((1 + 1) * 13)) = Some h1 /\
     definedCards (slice (elems d) (2 * 13) ((1 + 2) * 13)) = Some h2 /\
     definedCards (slice (elems d) (3 * 13) ((1 + 3) * 13)) = Some h3 /\
     deal policies d w
     = (mkWorld (log w) (4 + nextRef w),
        Ok [mkPlayer h0 0 [false; false; false; false] 0 (nextRef w + 0) (nextRef w + 0);
            mkPlayer h1 0 [false; false; false; false] 1 (nextRef w + 1) (nextRef w + 1);
            mkPlayer h2 0 [false; false; false; false] 2 (nextRef w + 2) (nextRef w + 2);
            mkPlayer h3 0 [false; false; false; false] 3 (nextRef w + 3) (nextRef w + 3)])).
Proof.
  intro H. unfold deal. rewrite H. cbn [seq mapM].
  unfold createPlayer, bind, newObject, ret, throw. cbn [log nextRef].
  destruct (definedCards (slice (elems d) (0 * 13) ((1 + 0) * 13))) as [h0|];
    [|left; eexists; reflexivity].
  destruct (definedCards (slice (elems d) (1 * 13) ((1 + 1) * 13))) as [h1|];
    [|left; eexists; reflexivity].
  destruct (definedCards (slice (elems d) (2 * 13) ((1 + 2) * 13))) as [h2|];
    [|left; eexists; reflexivity].
  destruct (definedCards (slice (elems d) (3 * 13) ((1 + 3) * 13))) as [h3|];
    [|left; eexists; reflexivity].
  right. exists h0, h1, h2, h3. repeat (split; [reflexivity|]).
  rewrite !Nat.add_succ_r, !Nat.add_0_r. reflexivity.
Qed.

(** A deal that succeeds has dealt the 52 cards. *)
Lemma deal_ok_inv (policies : list (Policy Trace)) (d : JsArray)
      (w w' : World Trace) (ps : list Player) :
  length policies = 4%nat -> DeckInv d ->
  deal policies d w = (w', Ok ps) ->
  exists cs,
    Permutation cs freshDeck /\
    w' = mkWorld (log w) (4 + nextRef w) /\
    ps = map (newPlayer cs (nextRef w)) [0; 1; 2; 3]%nat.
Proof.
  intros Hpol [Hkeys [Hheld Hlen]] Hdeal.
  destruct (deal_cases policies d w Hpol) as [[w1 E]|[h0 [h1 [h2 [h3 [E0 [E1 [E2 [E3 E]]]]]]]]];
    [rewrite E in Hdeal; discriminate|].
  rewrite E in Hdeal. inversion Hdeal. subst w' ps. clear Hdeal E.
  apply definedCards_Some in E0, E1, E2, E3.
  set (cs := h0 ++ h1 ++ h2 ++ h3).
  assert (Hfirst : firstn 52 (elems d) = map Some cs).
  { rewrite firstn_52_slices, E0, E1, E2, E3. unfold cs.
    rewrite !map_app. reflexivity. }
  assert (Hcslen : length cs = 52%nat).
  { rewrite <- (length_map Some cs), <- Hfirst, length_firstn. lia. }
  assert (Hperm : Permutation cs freshDeck).
  { unfold heldCards in Hheld.
    rewrite <- (firstn_skipn 52 (elems d)), Hfirst in Hheld.
    rewrite <- app_assoc, somes_app, somes_map_Some in Hheld.
    pose proof (Permutation_length Hheld) as L.
    rewrite length_app, Hcslen, freshDeck_length in L.
    assert (Hnil : somes (skipn 52 (elems d) ++ map snd (props d)) = []).
    { apply length_zero_iff_nil. lia. }
    rewrite Hnil, app_nil_r in Hheld. exact Hheld. }
  assert (Hhand : forall s h, (s < 4)%nat ->
             slice (elems d) (s * 13) ((1 + s) * 13) = map Some h ->
             h = dealtHand cs s).
  { intros s h Hs Hh. apply map_Some_inj. rewrite <- Hh.
    unfold dealtHand. rewrite <- slice_map, <- Hfirst.
    unfold slice. rewrite <- (firstn_skipn 52 (elems d)) at 1.
    rewrite skipn_app, firstn_app.
    assert (Z1 : ((1 + s) * 13 - s * 13 - length (skipn (s * 13) (firstn 52 (elems d)))
                  = 0)%nat).
    { rewrite length_skipn, length_firstn. lia. }
    rewrite Z1. cbn [firstn]. rewrite app_nil_r. reflexivity. }
  exists cs. split; [exact Hperm|]. split; [reflexivity|].
  cbn [map]. unfold newPlayer.
  rewrite <- (Hhand 0%nat h0 ltac:(lia) E0), <- (Hhand 1%nat h1 ltac:(lia) E1),
          <- (Hhand 2%nat h2 ltac:(lia) E2), <- (Hhand 3%nat h3 ltac:(lia) E3).
  reflexivity.
Qed.

Lemma deal_err_inv (policies : list (Policy Trace)) (d : JsArray)
      (w w' : World Trace) (e : error) :
  length policies = 4%nat ->
  deal policies d w = (w', Err e) -> e = UndefinedCard.
Proof.
  intros Hpol H.
  destruct (deal_cases policies d w Hpol) as [[w1 E]|[h0 [h1 [h2 [h3 [_ [_ [_ [_ E]]]]]]]]];
    rewrite E in H; inversion H; reflexivity.
Qed.

(** Whatever the random source: when the first half of [playGame] ends, it
    has either met an undefined slot at the deal, or built the first state
    from a deck of the 52 cards, led by the seat of the two of clubs. *)
Lemma initialState_cases (policies : list (Policy Trace)) (simplified : bool)
      (random : nat -> Q) (fuel : nat) (w w' : World Trace) (res : result State) :
  length policies = 4%nat ->
  initialState fuel policies simplified random w = Some (w', res) ->
  res = Err UndefinedCard \/
  exists cs seat,
    Permutation cs freshDeck /\
    (seat < 4)%nat /\
    In (mkCard clubs 2) (dealtHand cs seat) /\
    w' = mkWorld (log w) (4 + nextRef w) /\
    res = Ok (mkState (map (newPlayer cs (nextRef w)) [0; 1; 2; 3]%nat)
                      (mkTrick None []) false simplified seat).
Proof.
  intros Hpol H. unfold initialState, shuffleDeck in H.
  destruct (shuffleLoop fuel random 0 (mkJsArray (map Some freshDeck) []))
    as [d|] eqn:Es; [|discriminate].
  pose proof (shuffleLoop_inv random fuel 0 _ d freshDeck_DeckInv Es) as Hd.
  inversion H as [H']. clear H. unfold bind at 1 in H'.
  destruct (deal policies d w) as [w1 [ps|e]] eqn:Ed.
  - destruct (deal_ok_inv policies d w w1 ps Hpol Hd Ed) as [cs [Hperm [-> ->]]].
    right.
    assert (Hlen : length cs = 52%nat)
      by (rewrite (Permutation_length Hperm); apply freshDeck_length).
    assert (Hnd : NoDup cs)
      by (eapply Permutation_NoDup; [apply Permutation_sym; exact Hperm | apply freshDeck_NoDup]).
    assert (H2c : In (mkCard clubs 2) cs)
      by (eapply Permutation_in; [apply Permutation_sym; exact Hperm | left; reflexivity]).
    destruct (dealt_somewhere cs _ Hlen H2c) as [seat [Hseat Hin]].
    exists cs, seat. split; [exact Hperm|]. split; [exact Hseat|]. split; [exact Hin|].
    assert (Hnth : nth_error (map (newPlayer cs (nextRef w)) [0; 1; 2; 3]%nat) seat
                   = Some (newPlayer cs (nextRef w) seat)).
    { clear -Hseat. destruct seat as [|[|[|[|s]]]]; try lia; reflexivity. }
    rewrite (playerWithCard_first _ clubs 2 seat (newPlayer cs (nextRef w) seat) Hnth)
      in H'.
    + rewrite (indexOfPlayer_nth _ seat _ (newPlayers_refs cs (nextRef w)) Hnth) in H'.
      unfold ret in H'. inversion H'. split; reflexivity.
    + exact Hin.
    + intros k q Hk Hq Hin'.
      assert (Hq' : q = newPlayer cs (nextRef w) k).
      { clear -Hq Hk Hseat. destruct k as [|[|[|[|k]]]]; try lia;
          simpl in Hq; inversion Hq; reflexivity. }
      subst q. cbn [hand newPlayer] in Hin'.
      assert (k = seat) by (apply (dealt_once cs (mkCard clubs 2)); try assumption; lia).
      lia.
  - left. inversion H'. subst. f_equal. eapply deal_err_inv; eassumption.
Qed.

End DealAnyDeck.

(** ** Seats and turns *)

Ltac seat_cases l :=
  destruct l as [|[|[|[|l]]]]; try lia.

Lemma played_turn_seat (l i : nat) :
  (l < 4)%nat -> (i < 4)%nat -> played l i ((l + i) mod 4) = false.
Proof. intros Hl Hi. seat_cases l; seat_cases i; reflexivity. Qed.

Lemma played_after_turn (l i : nat) :
  (l < 4)%nat -> (i < 4)%nat -> played l (S i) ((l + i) mod 4) = true.
Proof. intros Hl Hi. seat_cases l; seat_cases i; reflexivity. Qed.

Lemma played_other_seat (l i s : nat) :
  (l < 4)%nat -> (i < 4)%nat -> (s < 4)%nat -> s <> ((l + i) mod 4)%nat ->
  played l (S i) s = played l i s.
Proof.
  intros Hl Hi Hs. seat_cases l; seat_cases i; seat_cases s;
    simpl; intro H; try reflexivity; exfalso; apply H; reflexivity.
Qed.

Lemma played_none (l s : nat) : played l 0 s = false.
Proof. reflexivity. Qed.

Lemma played_all (l s : nat) : (l < 4)%nat -> (s < 4)%nat -> played l 4 s = true.
Proof. intros Hl Hs. seat_cases l; seat_cases s; reflexivity. Qed.

(** ** Sums over a table *)

Lemma totalScore_update (ps : list Player) (seat : nat) (p p' : Player) :
  nth_error ps seat = Some p ->
  totalScore (update seat p' ps) = totalScore ps - score p + score p'.
Proof.
  revert seat. induction ps as [|x ps IH]; intros [|seat] H; simpl in *;
    try discriminate.
  - inversion H. subst. lia.
  - rewrite (IH seat H). lia.
Qed.

Lemma pointsInHands_update (simp : bool) (ps : list Player) (seat : nat)
      (p p' : Player) :
  nth_error ps seat = Some p ->
  pointsInHands simp (update seat p' ps)
  = pointsInHands simp ps - handPoints simp (hand p) + handPoints simp (hand p').
Proof.
  revert seat. induction ps as [|x ps IH]; intros [|seat] H; simpl in *;
    try discriminate.
  - inversion H. subst. lia.
  - rewrite (IH seat H). lia.
Qed.

Lemma fold_left_points (simp : bool) (cs : list Card) (acc : Z) :
  fold_left (fun total card => total + cardPoints card simp) cs acc
  = acc + handPoints simp cs.
Proof.
  revert acc. induction cs as [|c cs IH]; intro acc; simpl; [lia|].
  rewrite IH. lia.
Qed.

Lemma trickPoints_handPoints (t : Trick) (simp : bool) :
  trickPoints t simp = handPoints simp (cards t).
Proof. unfold trickPoints. rewrite fold_left_points. lia. Qed.

Lemma indexOf_In (c : Card) (cs : list Card) :
  In c cs -> exists i, indexOf c cs = Some i /\ (i < length cs)%nat.
Proof.
  induction cs as [|x cs IH]; intro H; [destruct H|].
  simpl. destruct (Card_eqb x c) eqn:E.
  - exists 0%nat. split; [reflexivity | lia].
  - destruct H as [H|H]; [subst; rewrite Card_eqb_refl in E; discriminate|].
    destruct (IH H) as [i [Hi Hlt]]. rewrite Hi. exists (S i).
    split; [reflexivity | lia].
Qed.

Lemma trickWinner_In (t : Trick) (c : Card) :
  trickWinner t = Some c -> In c (cards t).
Proof.
  unfold trickWinner. generalize (cards t). intro l.
  assert (G : forall acc, fold_left (trickWinner_step (tsuit t)) l acc = Some c ->
                          acc = Some c \/ In c l).
  { induction l as [|x l IH]; intros acc H; simpl in H.
    - left. exact H.
    - apply IH in H. destruct H as [H|H]; [|right; right; exact H].
      unfold trickWinner_step in H.
      destruct (_ && _); [inversion H; right; left; reflexivity | left; exact H]. }
  intro H. destruct (G None H) as [H'|H']; [discriminate | exact H'].
Qed.

Lemma nth_error_four {A : Type} (l : list A) (s : nat) :
  length l = 4%nat -> (s < 4)%nat -> exists x, nth_error l s = Some x.
Proof.
  intros H Hs. destruct (nth_error l s) as [x|] eqn:E; [exists x; reflexivity|].
  apply nth_error_None in E. lia.
Qed.

Section RoundFacts.
Context {Trace : Type}.
Variable policies : list (Policy Trace).
Hypothesis four_policies : length policies = 4%nat.
Hypothesis policies_choose : forall f, In f policies -> choosesOffered f.

(** A turn of a round under way: the seat in turn plays a card offered to
    it, and the table is as before but for that card. *)
Lemma playTurn_step (simp : bool) (total : Z) (n i : nat) (st : State)
      (w : World Trace) :
  (i < 4)%nat ->
  TurnInv simp total n i st w ->
  exists st' w' player c q t,
    playTurn policies st i w = (w', Ok st') /\
    TurnInv simp total n (S i) st' w' /\
    trickLeader st' = trickLeader st /\
    log w' = log w ++ [PolicyCall st player (validPlays st (hand player));
                       RecordAction player st c q t].
Proof.
  intros Hi [T [Hlen [Hempty [Hled Hhands]]]].
  destruct T as [T4 Trefs Tfresh Tpol Tlead Tsimp Tnd Tpts].
  set (seat := ((trickLeader st + i) mod 4)%nat).
  assert (Hseat : (seat < 4)%nat) by (apply Nat.mod_upper_bound; lia).
  destruct (nth_error_four (players st) seat T4 Hseat) as [player Hp].
  assert (Hpol : policy player = seat).
  { assert (H : nth_error (map policy (players st)) seat = Some (policy player))
      by (rewrite nth_error_map, Hp; reflexivity).
    rewrite Tpol in H. clear -H Hseat.
    destruct seat as [|[|[|[|s]]]]; try lia; simpl in H; inversion H; reflexivity. }
  destruct (nth_error_four policies seat four_policies Hseat) as [f Hf].
  assert (Hplayer : In player (players st)) by (eapply nth_error_In; exact Hp).
  assert (Hhand : length (hand player) = S n).
  { rewrite (Hhands seat player Hp). unfold seat.
    rewrite played_turn_seat by assumption. reflexivity. }
  assert (Hne : hand player <> []) by (intro E; rewrite E in Hhand; discriminate).
  destruct (policies_choose f (nth_error_In _ _ Hf) st player
              (validPlays st (hand player))) as [Hoff Hsome].
  specialize (Hsome (validPlays_nonempty st (hand player) Hne)).
  destruct (selectPlay (f st player (validPlays st (hand player)))) as [play|] eqn:Esel;
    [|exfalso; exact (selectPlay_nonempty _ Hsome Esel)].
  assert (Hlegal : In (action play) (validPlays st (hand player))).
  { apply Hoff. apply selectPlay_In. exact Esel. }
  assert (Hin : In (action play) (hand player))
    by (eapply validPlays_incl; exact Hlegal).
  pose proof (playTurn_cases policies st i w) as C.
  fold seat in C. rewrite Hp, Hpol, Hf in C. cbv zeta in C. rewrite Esel in C.
  rewrite (playCard_eq st seat player play _ Hp Trefs) in C.
  cbn [log nextRef] in C.
  set (player' := afterPlay (trick st) (action play) player (nextRef w)) in *.
  eexists. eexists. exists player, (action play), (quality play), (trace play).
  split; [exact C|].
  assert (Hperm : Permutation (hand player) (action play :: hand player')).
  { apply filter_remove_perm; [apply Tnd; exact Hplayer | exact Hin]. }
  split; [|split; [reflexivity | cbn [log]; rewrite <- app_assoc; reflexivity]].
  split; [|split; [|split; [|split]]].
  - constructor; cbn [players trick simplified trickLeader nextRef].
    + rewrite update_length. exact T4.
    + rewrite map_update. apply NoDup_update; [exact Trefs|].
      cbn [ref player' afterPlay]. intro H. apply in_map_iff in H.
      destruct H as [p0 [E H]]. specialize (Tfresh p0 H). lia.
    + intros p0 H. apply In_update in H. destruct H as [->|H].
      * cbn [ref player' afterPlay]. lia.
      * specialize (Tfresh p0 H). lia.
    + rewrite map_update. rewrite update_same; [exact Tpol|].
      rewrite nth_error_map, Hp. reflexivity.
    + exact Tlead.
    + exact Tsimp.
    + intros p0 H. apply In_update in H. destruct H as [->|H].
      * cbn [hand player' afterPlay]. apply NoDup_filter. apply Tnd. exact Hplayer.
      * apply Tnd. exact H.
    + rewrite (totalScore_update _ seat player player' Hp).
      rewrite (pointsInHands_update simp _ seat player player' Hp).
      rewrite (handPoints_perm simp _ _ Hperm).
      rewrite !trickPoints_handPoints in *. cbn [cards].
      rewrite handPoints_app.
      change (handPoints simp (action play :: hand player'))
        with (cardPoints (action play) simp + handPoints simp (hand player')).
      change (handPoints simp [action play])
        with (cardPoints (action play) simp + 0).
      change (score player') with (score player).
      lia.
  - cbn [trick cards]. rewrite length_app, Hlen. simpl. lia.
  - discriminate.
  - intros _. unfold ledState. cbn [trick cards tsuit].
    destruct i as [|i].
    + rewrite (Hempty eq_refl). simpl. exists (action play), [].
      split; reflexivity.
    + destruct (Hled ltac:(lia)) as [c0 [rest [Hc Hs]]].
      rewrite Hc, Hs. exists c0, (rest ++ [action play]). split; reflexivity.
  - cbn [players trickLeader]. intros s p0 Hs.
    assert (Hs4 : (s < 4)%nat).
    { assert (H : nth_error (update seat player' (players st)) s <> None)
        by (rewrite Hs; discriminate).
      apply nth_error_Some in H. rewrite update_length in H. lia. }
    destruct (Nat.eq_dec s seat) as [->|Hneq].
    + rewrite nth_error_update_eq in Hs by lia. inversion Hs. subst p0.
      unfold seat at 1. rewrite played_after_turn by assumption.
      apply Permutation_length in Hperm. cbn [length] in Hperm. lia.
    + rewrite nth_error_update_neq in Hs by (intro E; apply Hneq; symmetry; exact E).
      rewrite played_other_seat by assumption.
      apply Hhands. exact Hs.
Qed.

(** The four turns of a round. *)
Lemma playTurns_step (simp : bool) (total : Z) (n : nat) (st : State)
      (w : World Trace) :
  TurnInv simp total n 0 st w ->
  exists st' w' new,
    forOf (range 4) (playTurn policies) st w = (w', Ok st') /\
    TurnInv simp total n 4 st' w' /\
    log w' = log w ++ new /\
    map kindOf new
    = [KPolicyCall; KRecordAction; KPolicyCall; KRecordAction;
       KPolicyCall; KRecordAction; KPolicyCall; KRecordAction].
Proof.
  intro H0.
  destruct (playTurn_step simp total n 0 st w ltac:(lia) H0)
    as [s1 [w1 [p1 [c1 [q1 [t1 [E1 [H1 [_ L1]]]]]]]]].
  destruct (playTurn_step simp total n 1 s1 w1 ltac:(lia) H1)
    as [s2 [w2 [p2 [c2 [q2 [t2 [E2 [H2 [_ L2]]]]]]]]].
  destruct (playTurn_step simp total n 2 s2 w2 ltac:(lia) H2)
    as [s3 [w3 [p3 [c3 [q3 [t3 [E3 [H3 [_ L3]]]]]]]]].
  destruct (playTurn_step simp total n 3 s3 w3 ltac:(lia) H3)
    as [s4 [w4 [p4 [c4 [q4 [t4 [E4 [H4 [_ L4]]]]]]]]].
  exists s4, w4. eexists.
  split; [|split; [exact H4|split]].
  - cbn [range seq forOf].
    rewrite (bind_ok _ _ _ _ _ E1), (bind_ok _ _ _ _ _ E2),
            (bind_ok _ _ _ _ _ E3), (bind_ok _ _ _ _ _ E4).
    reflexivity.
  - rewrite L4, L3, L2, L1. rewrite <- !app_assoc. reflexivity.
  - reflexivity.
Qed.

(** A whole round, from [S n] cards in every hand to [n]. *)
Lemma playRound_step (simp : bool) (total : Z) (n : nat) (st : State)
      (w : World Trace) :
  RoundInv simp total (S n) st w ->
  exists st' w' new,
    playRound policies st w = (w', Ok st') /\
    RoundInv simp total n st' w' /\
    log w' = log w ++ new /\
    map kindOf new = roundShape.
Proof.
  intros [T [Htrick Hhands]].
  assert (H0 : TurnInv simp total n 0 st w).
  { split; [exact T|]. split; [rewrite Htrick; reflexivity|].
    split; [intros _; exact Htrick|]. split; [intro H; lia|].
    intros s p Hp. rewrite played_none. apply Hhands.
    eapply nth_error_In. exact Hp. }
  destruct (playTurns_step simp total n st w H0)
    as [s4 [w4 [new4 [E4 [[T4 [Hlen [_ [Hled Hh4]]]] [L4 K4]]]]]].
  destruct T4 as [F4 Frefs Ffresh Fpol Flead Fsimp Fnd Fpts].
  destruct (Hled ltac:(lia)) as [c0 [rest [Hc Hs]]].
  destruct (trickWinner (trick s4)) as [card|] eqn:Ew;
    [|exfalso; exact (led_trickWinner _ _ _ Hc Hs Ew)].
  destruct (indexOf_In card (cards (trick s4)) (trickWinner_In _ _ Ew))
    as [cardIndex [Ei Hidx]].
  set (seat := ((cardIndex + trickLeader s4) mod 4)%nat).
  assert (Hseat : (seat < 4)%nat) by (apply Nat.mod_upper_bound; lia).
  destruct (nth_error_four (players s4) seat F4 Hseat) as [wp Hwp].
  pose proof (resolveTrick_eq s4 card cardIndex wp w4 Ew Ei Hwp Frefs) as R.
  cbv zeta in R. fold seat in R.
  set (points := trickPoints (trick s4) (simplified s4)) in *.
  assert (Hall : forall s p, nth_error (players s4) s = Some p -> length (hand p) = n).
  { intros s p Hp. rewrite (Hh4 s p Hp). rewrite played_all; [reflexivity | exact Flead|].
    assert (H : nth_error (players s4) s <> None) by (rewrite Hp; discriminate).
    apply nth_error_Some in H. lia. }
  assert (Hkinds : map kindOf (new4 ++ map (@rewardEvent Trace (simplified s4) points wp)
                                           (players s4)) = roundShape).
  { rewrite map_app, K4, map_map. unfold roundShape.
    destruct (players s4) as [|a [|b [|c [|d [|e l]]]]]; try discriminate F4.
    reflexivity. }
  unfold playRound. rewrite (bind_ok _ _ _ _ _ E4). rewrite R.
  destruct (points =? 0) eqn:Ep.
  - apply Z.eqb_eq in Ep.
    eexists. eexists. eexists. split; [reflexivity|].
    split; [|split; [cbn [log]; rewrite L4, <- app_assoc; reflexivity | exact Hkinds]].
    split; [|split; [reflexivity|]].
    + constructor; cbn [players trick simplified trickLeader nextRef];
        try assumption.
      rewrite <- Fpts. unfold points in Ep. rewrite Fsimp in Ep. rewrite Ep.
      unfold trickPoints. simpl. lia.
    + cbn [players]. intros p Hp. apply In_nth_error in Hp.
      destruct Hp as [s Hp]. exact (Hall s p Hp).
  - eexists. eexists. eexists. split; [reflexivity|].
    split; [|split; [cbn [log]; rewrite L4, <- app_assoc; reflexivity | exact Hkinds]].
    split; [|split; [reflexivity|]].
    + constructor; cbn [players trick simplified trickLeader nextRef].
      * rewrite update_length. exact F4.
      * rewrite map_update. apply NoDup_update; [exact Frefs|].
        cbn [ref withPoints]. intro H. apply in_map_iff in H.
        destruct H as [p0 [E H]]. specialize (Ffresh p0 H). lia.
      * intros p0 H. apply In_update in H. destruct H as [->|H].
        -- cbn [ref withPoints]. lia.
        -- specialize (Ffresh p0 H). lia.
      * rewrite map_update. rewrite update_same; [exact Fpol|].
        rewrite nth_error_map, Hwp. reflexivity.
      * exact Hseat.
      * exact Fsimp.
      * intros p0 H. apply In_update in H. destruct H as [->|H].
        -- cbn [hand withPoints]. apply Fnd. eapply nth_error_In. exact Hwp.
        -- apply Fnd. exact H.
      * rewrite (totalScore_update _ seat wp _ Hwp).
        rewrite (pointsInHands_update simp _ seat wp _ Hwp).
        cbn [score hand withPoints]. rewrite <- Fpts.
        unfold points. rewrite Fsimp. unfold trickPoints at 2. simpl. lia.
    + cbn [players]. intros p Hp. apply In_update in Hp. destruct Hp as [->|Hp].
      * cbn [hand withPoints]. exact (Hall seat wp Hwp).
      * apply In_nth_error in Hp. destruct Hp as [s Hp]. exact (Hall s p Hp).
Qed.

(** [n] rounds, from [n] cards in every hand to none. *)
Lemma playRounds_all (simp : bool) (total : Z) (n : nat) :
  forall (a : nat) (st : State) (w : World Trace),
    RoundInv simp total n st w ->
    exists st' w' new,
      forOf (seq a n) (fun state _ => playRound policies state) st w = (w', Ok st') /\
      RoundInv simp total 0 st' w' /\
      log w' = log w ++ new /\
      map kindOf new = concat (repeat roundShape n).
Proof.
  induction n as [|n IH]; intros a st w H.
  - exists st, w, []. split; [reflexivity|]. split; [exact H|].
    split; [rewrite app_nil_r; reflexivity | reflexivity].
  - destruct (playRound_step simp total n st w H) as [s1 [w1 [new1 [E1 [H1 [L1 K1]]]]]].
    destruct (IH (S a) s1 w1 H1) as [s2 [w2 [new2 [E2 [H2 [L2 K2]]]]]].
    exists s2, w2, (new1 ++ new2).
    split; [|split; [exact H2|split]].
    + cbn [seq forOf]. rewrite (bind_ok _ _ _ _ _ E1). exact E2.
    + rewrite L2, L1, <- app_assoc. reflexivity.
    + rewrite map_app, K1, K2. reflexivity.
Qed.

End RoundFacts.

(** ** The table of a game *)

Section SeatedFacts.
Context {Trace : Type}.
Variable policies : list (Policy Trace).

Lemma afterPlay_flags (tr : Trick) (act : Card) (p : Player) (r : nat) :
  length (playsOutOfSuit (afterPlay tr act p r)) = length (playsOutOfSuit p).
Proof.
  cbn [afterPlay playsOutOfSuit].
  destruct (tsuit tr) as [ts|]; [|reflexivity].
  destruct (negb (Suit_eqb ts (suit act))); [|reflexivity].
  apply length_mapi_from.
Qed.

Lemma Seated_update (st : State) (w : World Trace) (seat : nat) (p p' : Player)
      (tr : Trick) (hb simp : bool) (leader : nat) (events : list (Event Trace)) :
  Seated st w ->
  nth_error (players st) seat = Some p ->
  ref p' = nextRef w ->
  length (playsOutOfSuit p') = length (playsOutOfSuit p) ->
  Seated (mkState (update seat p' (players st)) tr hb simp leader)
         (mkWorld events (S (nextRef w))).
Proof.
  intros [H4 [Hnd [Hfresh Hflags]]] Hp Hr Hf.
  assert (Hin : In p (players st)) by (eapply nth_error_In; exact Hp).
  split; [|split; [|split]]; cbn [players nextRef].
  - rewrite update_length. exact H4.
  - rewrite map_update. apply NoDup_update; [exact Hnd|].
    rewrite Hr. intro H. apply in_map_iff in H. destruct H as [q [E H]].
    specialize (Hfresh q H). lia.
  - intros q H. apply In_update in H. destruct H as [->|H].
    + lia.
    + specialize (Hfresh q H). lia.
  - intros q H. apply In_update in H. destruct H as [->|H].
    + rewrite Hf. apply Hflags. exact Hin.
    + apply Hflags. exact H.
Qed.

(** Every turn is taken by a seated player, and keeps the table. *)
Lemma playTurn_Seated (st st' : State) (i : nat) (w w' : World Trace) :
  Seated st w -> playTurn policies st i w = (w', Ok st') -> Seated st' w'.
Proof.
  intros Hs H. apply playTurn_ok_inv in H.
  destruct H as [player [f [play [Hp [_ [_ H]]]]]].
  pose proof Hs as [H4 [Hnd [Hfresh Hflags]]].
  rewrite (playCard_eq st _ player play _ Hp Hnd) in H.
  inversion H. subst. clear H.
  apply (Seated_update st w _ player); try assumption.
  - reflexivity.
  - apply afterPlay_flags.
Qed.

Lemma resolveTrick_Seated (st st' : State) (w w' : World Trace) :
  Seated st w -> resolveTrick st w = (w', Ok st') -> Seated st' w'.
Proof.
  intros Hs H.
  destruct (resolveTrick_ok_inv st st' w w' H) as [card [cardIndex [wp [Hc [Hi Hn]]]]].
  pose proof Hs as [H4 [Hnd [Hfresh Hflags]]].
  pose proof (resolveTrick_eq st card cardIndex wp w Hc Hi Hn Hnd) as E.
  cbv zeta in E. rewrite E in H. clear E.
  destruct (trickPoints (trick st) (simplified st) =? 0); inversion H; subst; clear H.
  - split; [|split; [|split]]; cbn [players nextRef]; assumption.
  - apply (Seated_update st w _ wp); try assumption; reflexivity.
Qed.

Lemma playRound_Seated (st st' : State) (w w' : World Trace) :
  Seated st w -> playRound policies st w = (w', Ok st') -> Seated st' w'.
Proof.
  unfold playRound. unfold bind at 1. intros Hs H.
  destruct (forOf (range 4) (playTurn policies) st w) as [w1 [s1|e]] eqn:E;
    [|discriminate].
  apply (resolveTrick_Seated s1 st' w1 w'); [|exact H].
  clear H. revert st w Hs E. generalize (range 4). intro xs.
  induction xs as [|x xs IH]; intros st w Hs E; simpl in E.
  - inversion E. subst. exact Hs.
  - unfold bind in E. destruct (playTurn policies st x w) as [w0 [s0|e0]] eqn:E0;
      [|discriminate].
    apply (IH s0 w0); [|exact E]. eapply playTurn_Seated; eassumption.
Qed.

(** The first state of a game is a table, whatever the random source. *)
Lemma initialState_Seated (simplified : bool) (random : nat -> Q) (fuel : nat)
      (w w' : World Trace) (st : State) :
  length policies = 4%nat ->
  initialState fuel policies simplified random w = Some (w', Ok st) ->
  Seated st w'.
Proof.
  intros Hpol H.
  destruct (initialState_cases policies simplified random fuel w w' (Ok st) Hpol H)
    as [E | [cs [seat [_ [_ [_ [-> E]]]]]]]; [discriminate|].
  inversion E. subst st. clear E.
  split; [reflexivity|]. cbn [players nextRef].
  split; [apply newPlayers_refs|]. split.
  - intros p Hp. destruct Hp as [<-|[<-|[<-|[<-|[]]]]]; cbn [ref newPlayer]; lia.
  - intros p Hp. destruct Hp as [<-|[<-|[<-|[<-|[]]]]]; reflexivity.
Qed.

(** So is the state after any number of rounds. *)
Lemma playRounds_Seated (xs : list nat) :
  forall (st st' : State) (w w' : World Trace),
    Seated st w ->
    forOf xs (fun state _ => playRound policies state) st w = (w', Ok st') ->
    Seated st' w'.
Proof.
  induction xs as [|x xs IH]; intros st st' w w' Hs E; simpl in E.
  - inversion E. subst. exact Hs.
  - unfold bind in E. destruct (playRound policies st w) as [w0 [s0|e0]] eqn:E0;
      [|discriminate].
    apply (IH s0 st' w0 w'); [|exact E]. eapply playRound_Seated; eassumption.
Qed.

(** Hence every state [playGame] passes through a round with is a table. *)
Lemma playGameState_Seated (simplified : bool) (random : nat -> Q) (fuel : nat)
      (w w' : World Trace) (st : State) :
  length policies = 4%nat ->
  playGameState fuel policies simplified random w = Some (w', Ok st) ->
  Seated st w'.
Proof.
  intros Hpol H. unfold playGameState in H.
  destruct (initialState fuel policies simplified random w) as [[w0 [s0|e]]|] eqn:E;
    try discriminate.
  apply (playRounds_Seated (range 13) s0 st w0 w').
  - eapply initialState_Seated; eassumption.
  - congruence.
Qed.

End SeatedFacts.

(** ** The whole game *)

Section GameFacts.
Context {Trace : Type}.

Lemma two_of_clubs_in_freshDeck : In (mkCard clubs 2) freshDeck.
Proof. left. reflexivity. Qed.

(** With draws in [0, 1): the first state of the game.  The deck is the 52
    cards in some order [cs]; seat [s] holds [dealtHand cs s]; the leader is
    the seat that holds the two of clubs. *)
Lemma initialState_in_range (policies : list (Policy Trace)) (simplified : bool)
      (random : nat -> Q) (fuel : nat) (w : World Trace) :
  unitRange random -> length policies = 4%nat -> (52 <= fuel)%nat ->
  exists cs seat,
    shuffleDeck fuel (mkJsArray (map Some freshDeck) []) random
    = Some (mkJsArray (map Some cs) []) /\
    Permutation cs freshDeck /\
    (seat < 4)%nat /\
    In (mkCard clubs 2) (dealtHand cs seat) /\
    initialState fuel policies simplified random w
    = Some (mkWorld (log w) (4 + nextRef w),
            Ok (mkState (map (newPlayer cs (nextRef w)) [0; 1; 2; 3]%nat)
                        (mkTrick None []) false simplified seat)).
Proof.
  intros Hr Hpol Hfuel.
  destruct (shuffleDeck_permutes random fuel Hr Hfuel) as [cs [Hs Hperm]].
  assert (Hlen : length cs = 52%nat)
    by (rewrite (Permutation_length Hperm); apply freshDeck_length).
  assert (Hnd : NoDup cs)
    by (eapply Permutation_NoDup; [apply Permutation_sym; exact Hperm | apply freshDeck_NoDup]).
  assert (H2c : In (mkCard clubs 2) cs)
    by (eapply Permutation_in; [apply Permutation_sym; exact Hperm | apply two_of_clubs_in_freshDeck]).
  destruct (dealt_somewhere cs _ Hlen H2c) as [seat [Hseat Hin]].
  exists cs, seat. split; [exact Hs|].
  split; [exact Hperm|]. split; [exact Hseat|]. split; [exact Hin|].
  unfold initialState. rewrite Hs. f_equal.
  rewrite (bind_ok _ _ _ _ _ (deal_eq policies cs w Hpol)).
  assert (Hnth : nth_error (map (newPlayer cs (nextRef w)) [0; 1; 2; 3]%nat) seat
                 = Some (newPlayer cs (nextRef w) seat)).
  { clear -Hseat. destruct seat as [|[|[|[|s]]]]; try lia; reflexivity. }
  rewrite (playerWithCard_first _ clubs 2 seat (newPlayer cs (nextRef w) seat) Hnth).
  - rewrite (indexOfPlayer_nth _ seat _ (newPlayers_refs cs (nextRef w)) Hnth).
    reflexivity.
  - exact Hin.
  - intros k q Hk Hq Hin'.
    assert (Hq' : q = newPlayer cs (nextRef w) k).
    { clear -Hq Hk Hseat. destruct k as [|[|[|[|k]]]]; try lia;
        simpl in Hq; inversion Hq; reflexivity. }
    subst q. cbn [hand newPlayer] in Hin'.
    assert (k = seat) by (apply (dealt_once cs (mkCard clubs 2)); try assumption; lia).
    lia.
Qed.

(** The first state is between two rounds, 13 cards in every hand. *)
Lemma initial_RoundInv (cs : list Card) (seat r : nat) (simp : bool)
      (events : list (Event Trace)) :
  Permutation cs freshDeck -> (seat < 4)%nat ->
  RoundInv simp (deckPoints simp) 13
           (mkState (map (newPlayer cs r) [0; 1; 2; 3]%nat)
                    (mkTrick None []) false simp seat)
           (mkWorld events (4 + r)).
Proof.
  intros Hperm Hseat.
  assert (Hlen : length cs = 52%nat)
    by (rewrite (Permutation_length Hperm); apply freshDeck_length).
  assert (Hnd : NoDup cs)
    by (eapply Permutation_NoDup; [apply Permutation_sym; exact Hperm | apply freshDeck_NoDup]).
  assert (Hp : forall p, In p (map (newPlayer cs r) [0; 1; 2; 3]%nat) ->
                         exists s, (s < 4)%nat /\ p = newPlayer cs r s).
  { intros p H. apply in_map_iff in H. destruct H as [s [E H]].
    exists s. split; [|symmetry; exact E].
    cbn [In] in H. repeat (destruct H as [H|H]; [lia|]). destruct H. }
  split; [|split].
  - constructor; cbn [players trick simplified trickLeader nextRef].
    + reflexivity.
    + apply newPlayers_refs.
    + intros p H. destruct (Hp p H) as [s [Hs ->]]. cbn [ref newPlayer]. lia.
    + reflexivity.
    + exact Hseat.
    + reflexivity.
    + intros p H. destruct (Hp p H) as [s [Hs ->]]. cbn [hand newPlayer].
      apply dealtHand_NoDup; assumption.
    + unfold deckPoints. rewrite <- (handPoints_perm simp _ _ Hperm).
      pose proof (f_equal (handPoints simp) (deck_in_four cs Hlen)) as Hsum.
      rewrite !handPoints_app in Hsum.
      cbn [map totalScore pointsInHands fold_right score hand newPlayer].
      unfold trickPoints. cbn [cards fold_left]. lia.
  - reflexivity.
  - cbn [players]. intros p H. destruct (Hp p H) as [s [Hs ->]].
    cbn [hand newPlayer]. apply dealtHand_length; assumption.
Qed.

Lemma mapM_terminate (ps : list Player) (w : World Trace) :
  mapM terminate ps w
  = (w, Ok (map (fun p => recorded (recorder p) (log w) ++ [Terminal 0 p]) ps)).
Proof.
  induction ps as [|p ps IH]; [reflexivity|].
  cbn [mapM map]. unfold bind at 1. unfold terminate at 1.
  unfold bind at 1. rewrite IH. reflexivity.
Qed.

Lemma pointsInHands_empty (simp : bool) (ps : list Player) :
  (forall p, In p ps -> hand p = []) -> pointsInHands simp ps = 0.
Proof.
  induction ps as [|p ps IH]; intro H; [reflexivity|].
  cbn [pointsInHands fold_right]. rewrite (H p (or_introl eq_refl)).
  fold (pointsInHands simp ps). rewrite IH; [reflexivity|].
  intros q Hq. apply H. right. exact Hq.
Qed.

Lemma count_records (new : list (Event Trace)) :
  length (filter isRecordAction new)
  = count_occ (fun a b : EventKind => ltac:(decide equality)) (map kindOf new) KRecordAction.
Proof.
  induction new as [|e new IH]; [reflexivity|].
  destruct e; simpl; rewrite IH; reflexivity.
Qed.

End GameFacts.

(** C5, as the code has it.  For a random source that answers in [0, 1)
    and four policies that choose among the plays they are offered,
    [playGame] returns four histories; the log of the game is thirteen
    rounds, each of four plays and four rewards, so 52 recorded plays in
    all; every player's hand is empty in the last state, and in every
    history's terminal entry; and the scores add up to the points of the
    deck, 26 in standard mode (13 in simplified mode). *)
Theorem playGame_plays_all_cards {Trace : Type} (policies : list (Policy Trace))
        (simplified : bool) (random : nat -> Q) (fuel : nat) (w : World Trace) :
  unitRange random ->
  length policies = 4%nat ->
  (forall f, In f policies -> choosesOffered f) ->
  (52 <= fuel)%nat ->
  exists st w' histories new,
    playGameState fuel policies simplified random w = Some (w', Ok st) /\
    playGame fuel policies simplified random w = Some (w', Ok histories) /\
    log w' = log w ++ new /\
    map kindOf new = concat (repeat roundShape 13) /\
    length (filter isRecordAction new) = 52%nat /\
    length (players st) = 4%nat /\
    (forall p, In p (players st) -> hand p = []) /\
    length histories = 4%nat /\
    (forall h, In h histories ->
       exists steps p, h = steps ++ [Terminal 0 p] /\ hand p = []) /\
    totalScore (players st) = (if simplified then 13 else 26).
Proof.
  intros Hr Hpol Hch Hfuel.
  destruct (initialState_in_range policies simplified random fuel w Hr Hpol Hfuel)
    as [cs [seat [_ [Hperm [Hseat [_ Einit]]]]]].
  pose proof (initial_RoundInv cs seat (nextRef w) simplified (log w) Hperm Hseat) as H0.
  destruct (playRounds_all policies Hpol Hch simplified (deckPoints simplified) 13 0 _ _ H0)
    as [st [w' [new [Eloop [[T [Htrick Hhands]] [Hlog Hkinds]]]]]].
  assert (Hempty : forall p, In p (players st) -> hand p = []).
  { intros p Hp. apply length_zero_iff_nil. apply Hhands. exact Hp. }
  exists st, w'. eexists. exists new.
  assert (Estate : playGameState fuel policies simplified random w = Some (w', Ok st)).
  { unfold playGameState. rewrite Einit. unfold range. rewrite Eloop. reflexivity. }
  split; [exact Estate|].
  split; [unfold playGame; rewrite Estate, mapM_terminate; reflexivity|].
  split; [exact Hlog|]. split; [exact Hkinds|].
  split; [rewrite count_records, Hkinds; reflexivity|].
  destruct T as [T4 _ _ _ _ _ _ Tpts].
  split; [exact T4|]. split; [exact Hempty|].
  split; [rewrite length_map; exact T4|].
  split.
  - intros h Hh. apply in_map_iff in Hh. destruct Hh as [p [<- Hp]].
    exists (recorded (recorder p) (log w')), p. split; [reflexivity|].
    apply Hempty. exact Hp.
  - rewrite (pointsInHands_empty simplified _ Hempty) in Tpts.
    rewrite trickPoints_handPoints, Htrick in Tpts. cbn [cards handPoints fold_right] in Tpts.
    destruct simplified;
      [rewrite deckPoints_simplified in Tpts | rewrite deckPoints_standard in Tpts];
      lia.
Qed.

(** ** The start player *)


Section StartFacts.
Context {Trace : Type}.



End StartFacts.


(** ** Only legal plays *)

Section LogFacts.
Context {Trace : Type}.
Variable P : Event Trace -> Prop.

Lemma emits_ret {A : Type} (a : A) : emits P (ret a).
Proof. intro w. exists []. split; [rewrite app_nil_r; reflexivity | constructor]. Qed.

Lemma emits_throw {A : Type} (e : error) : emits P (@throw Trace A e).
Proof. intro w. exists []. split; [rewrite app_nil_r; reflexivity | constructor]. Qed.

Lemma emits_newObject : emits P (@newObject Trace).
Proof. intro w. exists []. split; [rewrite app_nil_r; reflexivity | constructor]. Qed.

Lemma emits_emit (e : Event Trace) : P e -> emits P (emit e).
Proof.
  intros He w. exists [e]. split; [reflexivity|].
  constructor; [exact He | constructor].
Qed.

Lemma emits_bind {A B : Type} (m : M Trace A) (k : A -> M Trace B) :
  emits P m -> (forall a, emits P (k a)) -> emits P (bind m k).
Proof.
  intros Hm Hk w. unfold bind. destruct (Hm w) as [new [Hl Hf]].
  destruct (m w) as [w1 [a|e]]; cbn [fst] in Hl.
  - destruct (Hk a w1) as [new' [Hl' Hf']].
    exists (new ++ new'). split.
    + rewrite Hl', Hl, app_assoc. reflexivity.
    + apply Forall_app. split; assumption.
  - exists new. split; assumption.
Qed.

Lemma emits_mapM {A B : Type} (f : A -> M Trace B) (xs : list A) :
  (forall x, emits P (f x)) -> emits P (mapM f xs).
Proof.
  intro Hf. induction xs as [|x xs IH]; cbn [mapM].
  - apply emits_ret.
  - apply emits_bind; [apply Hf|]. intro y.
    apply emits_bind; [exact IH|]. intro ys. apply emits_ret.
Qed.

Lemma emits_forEach {A : Type} (f : A -> M Trace unit) (xs : list A) :
  (forall x, emits P (f x)) -> emits P (forEach f xs).
Proof.
  intro Hf. induction xs as [|x xs IH]; cbn [forEach].
  - apply emits_ret.
  - apply emits_bind; [apply Hf|]. intros _. exact IH.
Qed.

Lemma emits_forOf {A S : Type} (body : S -> A -> M Trace S) (xs : list A) (s : S) :
  (forall s x, emits P (body s x)) -> emits P (forOf xs body s).
Proof.
  intro Hb. revert s. induction xs as [|x xs IH]; intro s; cbn [forOf].
  - apply emits_ret.
  - apply emits_bind; [apply Hb|]. exact IH.
Qed.

End LogFacts.

Section LegalFacts.
Context {Trace : Type}.
Variable policies : list (Policy Trace).

Lemma driverEvent_reward (p : Player) (r : Q) :
  driverEvent policies (AssignReward p r).
Proof. split; [exact I | intros _; exact I]. Qed.

Lemma playTurn_emits (st : State) (i : nat) :
  emits (driverEvent policies) (playTurn policies st i).
Proof.
  intro w. pose proof (playTurn_cases policies st i w) as C.
  destruct (nth_error (players st) _) as [player|] eqn:Ep;
    [|rewrite C; exists []; split; [symmetry; apply app_nil_r | constructor]].
  assert (Hin : In player (players st)) by (eapply nth_error_In; exact Ep).
  destruct (nth_error policies (policy player)) as [f|] eqn:Ef;
    [|rewrite C; exists []; split; [symmetry; apply app_nil_r | constructor]].
  cbv zeta in C.
  assert (Hq : driverEvent policies
                 (PolicyCall st player (validPlays st (hand player)))).
  { split; [|intros _; exact I]. split; [exact Hin | reflexivity]. }
  destruct (selectPlay (f st player (validPlays st (hand player)))) as [play|] eqn:Es.
  - rewrite C.
    destruct (playCard_total st player play
                (mkWorld (log w ++ [PolicyCall st player (validPlays st (hand player))])
                         (nextRef w))) as [ps' [n E]].
    rewrite E. cbn [fst log]. eexists. split; [rewrite <- app_assoc; reflexivity|].
    constructor; [exact Hq|]. constructor; [|constructor].
    split; [exact I|]. intro Hall. split; [exact Hin|].
    apply (Hall f (nth_error_In _ _ Ef) st player). apply selectPlay_In. exact Es.
  - rewrite C. cbn [fst log]. eexists. split; [reflexivity|].
    constructor; [exact Hq | constructor].
Qed.

Lemma resolveTrick_emits (st : State) :
  emits (driverEvent policies) (resolveTrick st).
Proof.
  unfold resolveTrick.
  destruct (trickWinner (trick st)) as [card|]; [|apply emits_throw].
  destruct (indexOf card (cards (trick st))) as [cardIndex|]; [|apply emits_throw].
  destruct (nth_error (players st) _) as [wp|]; [|apply emits_throw].
  apply emits_bind.
  - apply emits_forEach. intro p.
    destruct (_ && _); apply emits_emit; apply driverEvent_reward.
  - intros _. apply emits_bind; [|intro ps'; apply emits_ret].
    apply emits_mapM. intro p.
    destruct (_ && _); [|apply emits_ret].
    apply emits_bind; [apply emits_newObject | intro r; apply emits_ret].
Qed.

Lemma playRound_emits (st : State) :
  emits (driverEvent policies) (playRound policies st).
Proof.
  unfold playRound. apply emits_bind.
  - apply emits_forOf. intros s x. apply playTurn_emits.
  - apply resolveTrick_emits.
Qed.



End LegalFacts.


(** ** The theorems at work *)

Lemma offerAll_chooses : choosesOffered offerAll.
Proof.
  intros st p plays. split.
  - intros s Hs. unfold offerAll in Hs. apply in_map_iff in Hs.
    destruct Hs as [c [<- Hc]]. exact Hc.
  - intros Hne E. unfold offerAll in E. apply map_eq_nil in E. exact (Hne E).
Qed.

Lemma offerAll_four_choose :
  forall f, In f [offerAll; offerAll; offerAll; offerAll] -> choosesOffered f.
Proof.
  intros f Hf. cbn [In] in Hf.
  repeat (destruct Hf as [<-|Hf]; [exact offerAll_chooses|]). destruct Hf.
Qed.

Lemma exampleRandom_unitRange : unitRange exampleRandom.
Proof.
  intro k. unfold exampleRandom.
  pose proof (Z.mod_pos_bound (Z.of_nat k * 37 + 11) 100 ltac:(lia)) as H.
  unfold Qle, Qlt, Qdiv, Qmult, Qinv, inject_Z. simpl. lia.
Qed.

(** A game of four [offerAll] players on [exampleRandom]. *)
Lemma playGame_plays_all_cards_witness :
  exists st w' histories new,
    playGameState 52 [offerAll; offerAll; offerAll; offerAll] false exampleRandom
                  emptyWorld = Some (w', Ok st) /\
    playGame 52 [offerAll; offerAll; offerAll; offerAll] false exampleRandom
             emptyWorld = Some (w', Ok histories) /\
    log w' = log emptyWorld ++ new /\
    map kindOf new = concat (repeat roundShape 13) /\
    length (filter isRecordAction new) = 52%nat /\
    length (players st) = 4%nat /\
    (forall p, In p (players st) -> hand p = []) /\
    length histories = 4%nat /\
    (forall h, In h histories ->
       exists steps p, h = steps ++ [Terminal 0 p] /\ hand p = []) /\
    totalScore (players st) = 26.
Proof.
  apply (playGame_plays_all_cards [offerAll; offerAll; offerAll; offerAll] false
           exampleRandom 52 emptyWorld).
  - exact exampleRandom_unitRange.
  - reflexivity.
  - exact offerAll_four_choose.
  - lia.
Defined.

Example playGame_example_scores :
  match playGameState 52 [offerAll; offerAll; offerAll; offerAll] false
                      exampleRandom emptyWorld with
  | Some (_, Ok st) => Some (map score (players st), map hand (players st))
  | _ => None
  end = Some ([0; 14; 0; 12], [[]; []; []; []]).
Proof. vm_compute. reflexivity. Qed.

(** More fuel does not change the outcome of a shuffle that has ended. *)
Lemma shuffleLoop_more_fuel (random : nat -> Q) (fuel : nat) :
  forall (fuel' i : nat) (deck deck' : JsArray),
    shuffleLoop fuel random i deck = Some deck' ->
    (fuel <= fuel')%nat ->
    shuffleLoop fuel' random i deck = Some deck'.
Proof.
  induction fuel as [|fuel IH]; intros fuel' i deck deck' H Hle.
  - simpl in H. destruct (i <? length (elems deck))%nat eqn:E; [discriminate|].
    destruct fuel'; simpl; rewrite E; exact H.
  - destruct fuel' as [|fuel']; [lia|]. simpl in H |- *.
    destruct (i <? length (elems deck))%nat; [|exact H].
    apply IH; [exact H | lia].
Qed.

(** C5, as stated, fails: a random source that answers -1 draws the index
    -52 every time, which leaves slot 0 of the deck undefined; seat 0 is
    dealt that slot and the game stops before any card is played, although
    the policies choose among what they are offered. *)
Lemma playGame_stops_on_negative_draws :
  (forall f, In f [offerAll; offerAll; offerAll; offerAll] -> choosesOffered f) /\
  (forall k, toInt32 (minusOne k * inject_Z 52) = -52) /\
  (exists d, shuffleDeck 52 (mkJsArray (map Some freshDeck) []) minusOne = Some d /\
             nth 0 (elems d) None = None) /\
  forall fuel, (52 <= fuel)%nat ->
    playGame fuel [offerAll; offerAll; offerAll; offerAll] false minusOne emptyWorld
    = Some (emptyWorld, Err UndefinedCard).
Proof.
  split; [exact offerAll_four_choose|]. split; [intro k; reflexivity|].
  destruct (shuffleLoop 52 minusOne 0 (mkJsArray (map Some freshDeck) []))
    as [deck|] eqn:E; [|vm_compute in E; discriminate E].
  split.
  - exists deck. split; [exact E|]. vm_compute in E. inversion E. reflexivity.
  - intros fuel Hfuel. unfold playGame, playGameState, initialState, shuffleDeck.
    rewrite (shuffleLoop_more_fuel minusOne 52 fuel 0 _ deck E Hfuel).
    vm_compute in E. inversion E. subst deck. vm_compute. reflexivity.
Qed.






Example initialState_example_leader :
  match initialState 52 [offerAll; offerAll; offerAll; offerAll] false
                     exampleRandom emptyWorld with
  | Some (_, Ok st) =>
      Some (trickLeader st,
            map (fun p => existsb (Card_eqb (mkCard clubs 2)) (hand p)) (players st))
  | _ => None
  end = Some (2%nat, [false; false; true; false]).
Proof. vm_compute. reflexivity. Qed.

(** The five cases of [validPlays], each on a hand. *)
Lemma validPlays_cases_witness :
  validPlays example_table [mkCard hearts 14; mkCard clubs 3] = [mkCard hearts 14] /\
  validPlays example_table (hand example_south) = hand example_south /\
  validPlays example_last_round [mkCard hearts 9; mkCard clubs 3]
  = [mkCard hearts 9; mkCard clubs 3] /\
  validPlays example_lead [mkCard hearts 3; mkCard clubs 4; mkCard spades 12]
  = [mkCard clubs 4] /\
  validPlays example_lead [mkCard hearts 3; mkCard spades 12]
  = [mkCard hearts 3; mkCard spades 12].
Proof.
  split; [|split; [|split; [|split]]].
  - destruct (validPlays_cases example_table [mkCard hearts 14; mkCard clubs 3])
      as [H _].
    rewrite (H hearts); [reflexivity | reflexivity |].
    exists (mkCard hearts 14). split; [left; reflexivity | reflexivity].
  - destruct (validPlays_cases example_table (hand example_south)) as [_ [H _]].
    apply (H hearts); [reflexivity|].
    intros c Hc. cbn [hand example_south In] in Hc.
    repeat (destruct Hc as [<-|Hc]; [discriminate|]). destruct Hc.
  - destruct (validPlays_cases example_last_round [mkCard hearts 9; mkCard clubs 3])
      as [_ [_ [H _]]].
    apply H; [reflexivity | right; reflexivity].
  - destruct (validPlays_cases example_lead
                [mkCard hearts 3; mkCard clubs 4; mkCard spades 12])
      as [_ [_ [_ [H _]]]].
    rewrite H; [reflexivity | reflexivity | reflexivity | reflexivity |].
    exists (mkCard clubs 4). split; [right; left; reflexivity | reflexivity].
  - destruct (validPlays_cases example_lead [mkCard hearts 3; mkCard spades 12])
      as [_ [_ [_ [_ H]]]].
    apply H; [reflexivity | reflexivity | reflexivity |].
    intros c Hc. cbn [In] in Hc.
    repeat (destruct Hc as [<-|Hc]; [discriminate|]). destruct Hc.
Defined.

(** A card played and a round played with hearts broken. *)
Lemma heartsBroken_one_way_witness :
  (exists st' w',
     @playCard unit example_last_round
               (mkPlayer [mkCard spades 4] 20 [false; false; false; false] 1 1 1)
               (mkSummary (mkCard spades 4) 0 tt) (mkWorld [] 4) = (w', Ok st') /\
     (heartsBroken st' = true <->
      heartsBroken example_last_round = true \/
      cardPoints (mkCard spades 4) (simplified example_last_round) <> 0)) /\
  (exists st' w',
     playRound [offerAll; offerAll; offerAll; offerAll] example_last_round
               (mkWorld [] 4) = (w', Ok st') /\
     heartsBroken st' = true).
Proof.
  destruct (heartsBroken_one_way [offerAll; offerAll; offerAll; offerAll]
              example_last_round (mkWorld [] 4)) as [H1 [_ [H3 _]]].
  split.
  - exact (H1 (mkPlayer [mkCard spades 4] 20 [false; false; false; false] 1 1 1)
              (mkSummary (mkCard spades 4) 0 tt)).
  - destruct (playRound [offerAll; offerAll; offerAll; offerAll] example_last_round
                        (mkWorld [] 4)) as [w' [st'|e]] eqn:E;
      [|vm_compute in E; discriminate E].
    exists st', w'. split; [reflexivity|]. apply (H3 st' w' eq_refl). reflexivity.
Defined.

(** The trick of the scenario has a winner; a round from an empty trick does
    not end without one, whether the policies answer or not. *)
Lemma trickWinner_none_iff_no_card_of_suit_witness :
  (exists winner, trickWinner trick_2h_5h_Kc_Ah = Some winner) /\
  snd (playRound [silent; silent; silent; silent] example_last_round (mkWorld [] 4))
  <> Err NoTrickWinner /\
  snd (playRound [offerAll; offerAll; offerAll; offerAll] example_last_round
                 (mkWorld [] 4))
  <> Err NoTrickWinner.
Proof.
  split; [|split].
  - destruct (trickWinner_none_iff_no_card_of_suit
                [silent; silent; silent; silent] trick_2h_5h_Kc_Ah
                example_last_round (mkWorld [] 4)) as [_ [H _]].
    apply (H (mkCard hearts 2) [mkCard hearts 5; mkCard clubs 13; mkCard hearts 14]);
      reflexivity.
  - destruct (trickWinner_none_iff_no_card_of_suit
                [silent; silent; silent; silent] trick_2h_5h_Kc_Ah
                example_last_round (mkWorld [] 4)) as [_ [_ H]].
    apply H. reflexivity.
  - destruct (trickWinner_none_iff_no_card_of_suit
                [offerAll; offerAll; offerAll; offerAll] trick_2h_5h_Kc_Ah
                example_last_round (mkWorld [] 4)) as [_ [_ H]].
    apply H. reflexivity.
Defined.

Example playRound_last_round :
  match playRound [offerAll; offerAll; offerAll; offerAll] example_last_round
                  (mkWorld [] 4) with
  | (_, Ok st) => Some (map score (players st), trickLeader st, heartsBroken st)
  | _ => None
  end = Some ([3; 20; 14; 2], 2%nat, true).
Proof. vm_compute. reflexivity. Qed.

Example playRound_silent_policies :
  snd (playRound [silent; silent; silent; silent] example_last_round (mkWorld [] 4))
  = Err NoPlay.
Proof. reflexivity. Qed.

(* ================================================================= *)
(** * Further properties of the rules engine *)

(** ** Points *)

Lemma cardPoints_nonneg (c : Card) (simp : bool) : 0 <= cardPoints c simp.
Proof.
  unfold cardPoints. destruct (Suit_eqb (suit c) hearts); [lia|].
  destruct (negb simp && (rank c =? 12) && Suit_eqb (suit c) spades); lia.
Qed.

Lemma cardPoints_le_13 (c : Card) (simp : bool) : cardPoints c simp <= 13.
Proof.
  unfold cardPoints. destruct (Suit_eqb (suit c) hearts); [lia|].
  destruct (negb simp && (rank c =? 12) && Suit_eqb (suit c) spades); lia.
Qed.

Lemma cardPoints_simplified_le (c : Card) : cardPoints c true <= cardPoints c false.
Proof.
  unfold cardPoints. destruct (Suit_eqb (suit c) hearts); [lia|]. simpl.
  destruct ((rank c =? 12) && Suit_eqb (suit c) spades); lia.
Qed.

Lemma handPoints_bounds (simp : bool) (cs : list Card) :
  0 <= handPoints simp cs <= 13 * Z.of_nat (length cs).
Proof.
  induction cs as [|c cs IH]; [simpl; lia|].
  change (handPoints simp (c :: cs)) with (cardPoints c simp + handPoints simp cs).
  pose proof (cardPoints_nonneg c simp). pose proof (cardPoints_le_13 c simp).
  cbn [length]. lia.
Qed.

Lemma handPoints_simplified_le (cs : list Card) :
  handPoints true cs <= handPoints false cs.
Proof.
  induction cs as [|c cs IH]; [simpl; lia|].
  change (handPoints true (c :: cs)) with (cardPoints c true + handPoints true cs).
  change (handPoints false (c :: cs)) with (cardPoints c false + handPoints false cs).
  pose proof (cardPoints_simplified_le c). lia.
Qed.

(** X1. [trickPoints] reads the cards of the trick only and adds up over
    them: the points of two runs of cards played one after the other are
    the sum of their points, whatever the suits of the tricks; the order of
    the cards does not matter; the points are never negative, at most 13 a
    card, and simplified mode never counts more than standard mode. *)
Theorem trickPoints_additive (s s1 s2 : option Suit) (cs1 cs2 : list Card)
        (simp : bool) :
  trickPoints (mkTrick s (cs1 ++ cs2)) simp
  = trickPoints (mkTrick s1 cs1) simp + trickPoints (mkTrick s2 cs2) simp /\
  trickPoints (mkTrick s (rev cs1)) simp = trickPoints (mkTrick s cs1) simp /\
  0 <= trickPoints (mkTrick s cs1) simp <= 13 * Z.of_nat (length cs1) /\
  trickPoints (mkTrick s cs1) true <= trickPoints (mkTrick s cs1) false.
Proof.
  rewrite !trickPoints_handPoints. cbn [cards].
  split; [apply handPoints_app|].
  split; [apply handPoints_perm; apply Permutation_sym; apply Permutation_rev|].
  split; [apply handPoints_bounds | apply handPoints_simplified_le].
Qed.

(** ** The first of the greatest *)

Section FirstMax.
Variables (A K : Type) (elig : A -> bool) (key : A -> K) (gt : K -> K -> bool).
Variables (lt le : K -> K -> Prop).
Hypothesis gt_lt : forall a b, gt a b = true -> lt b a.
Hypothesis ngt_le : forall a b, gt a b = false -> le a b.
Hypothesis lt_trans : forall a b c, lt a b -> lt b c -> lt a c.
Hypothesis le_lt_trans : forall a b c, le a b -> lt b c -> lt a c.

(** From an accumulator [acc], the reduction either keeps [acc], no
    eligible element having a greater key, or moves to the first eligible
    element whose key is greater than those of [acc] and of the eligible
    elements before it, and not smaller than those after it. *)
Lemma firstMax_fold (l : list A) :
  forall acc : option A,
    (fold_left (firstMaxStep elig key gt) l acc = acc /\
     forall j c, nth_error l j = Some c -> elig c = true ->
                 match acc with Some a => le (key c) (key a) | None => False end)
    \/
    exists k w,
      fold_left (firstMaxStep elig key gt) l acc = Some w /\
      nth_error l k = Some w /\ elig w = true /\
      (forall a, acc = Some a -> lt (key a) (key w)) /\
      (forall j c, (j < k)%nat -> nth_error l j = Some c -> elig c = true ->
                   lt (key c) (key w)) /\
      (forall j c, (k < j)%nat -> nth_error l j = Some c -> elig c = true ->
                   le (key c) (key w)).
Proof.
  induction l as [|x l IH]; intro acc.
  - left. split; [reflexivity|]. intros j c H. destruct j; discriminate H.
  - cbn [fold_left].
    destruct (elig x && match acc with None => true | Some a => gt (key x) (key a) end)
      eqn:Estep.
    + (* the head is taken *)
      assert (Hs : firstMaxStep elig key gt acc x = Some x)
        by (unfold firstMaxStep; rewrite Estep; reflexivity).
      rewrite Hs. apply andb_true_iff in Estep. destruct Estep as [Hel Hgt].
      assert (Hacc : forall a, acc = Some a -> lt (key a) (key x)).
      { intros a ->. apply gt_lt. exact Hgt. }
      right. destruct (IH (Some x)) as [[Hkeep Hle] | [k [w [Hf [Hn [Hw [Hx [Hb Ha]]]]]]]].
      * exists 0%nat, x. split; [exact Hkeep|]. split; [reflexivity|].
        split; [exact Hel|]. split; [exact Hacc|]. split.
        -- intros j c Hj. lia.
        -- intros j c Hj Hc Hec. destruct j as [|j]; [lia|].
           exact (Hle j c Hc Hec).
      * exists (S k), w. split; [exact Hf|]. split; [exact Hn|].
        split; [exact Hw|]. specialize (Hx x eq_refl). split.
        -- intros a Ha'. eapply lt_trans; [apply Hacc; exact Ha' | exact Hx].
        -- split.
           ++ intros j c Hj Hc Hec. destruct j as [|j].
              ** inversion Hc. subst c. exact Hx.
              ** apply (Hb j c); [lia | exact Hc | exact Hec].
           ++ intros j c Hj Hc Hec. destruct j as [|j]; [lia|].
              apply (Ha j c); [lia | exact Hc | exact Hec].
    + (* the head is passed over *)
      assert (Hs : firstMaxStep elig key gt acc x = acc)
        by (unfold firstMaxStep; rewrite Estep; reflexivity).
      rewrite Hs.
      assert (Hhead : elig x = true ->
                      match acc with Some a => le (key x) (key a) | None => False end).
      { intro Hel. rewrite Hel in Estep. destruct acc as [a|]; [|discriminate].
        apply ngt_le. exact Estep. }
      destruct (IH acc) as [[Hkeep Hle] | [k [w [Hf [Hn [Hw [Hx [Hb Ha]]]]]]]].
      * left. split; [exact Hkeep|]. intros j c Hc Hec. destruct j as [|j].
        -- inversion Hc. subst c. exact (Hhead Hec).
        -- exact (Hle j c Hc Hec).
      * right. exists (S k), w. split; [exact Hf|]. split; [exact Hn|].
        split; [exact Hw|]. split; [exact Hx|]. split.
        -- intros j c Hj Hc Hec. destruct j as [|j].
           ++ inversion Hc. subst c. specialize (Hhead Hec).
              destruct acc as [a|]; [|destruct Hhead].
              eapply le_lt_trans; [exact Hhead | apply Hx; reflexivity].
           ++ apply (Hb j c); [lia | exact Hc | exact Hec].
        -- intros j c Hj Hc Hec. destruct j as [|j]; [lia|].
           apply (Ha j c); [lia | exact Hc | exact Hec].
Qed.

End FirstMax.

Lemma trickWinner_step_firstMax (s : option Suit) :
  trickWinner_step s = firstMaxStep (followsSuit s) rank Z.gtb.
Proof. reflexivity. Qed.

(** X2. The winner of a trick is the first card, among those that follow
    the trick's suit, of the highest rank: it follows the suit, every card
    before it that follows the suit is of strictly lower rank, and none
    after it is of higher rank.  With no suit set every card follows. *)
Theorem trickWinner_first_highest (t : Trick) (w : Card) :
  trickWinner t = Some w ->
  exists k,
    nth_error (cards t) k = Some w /\
    followsSuit (tsuit t) w = true /\
    (forall j c, (j < k)%nat -> nth_error (cards t) j = Some c ->
                 followsSuit (tsuit t) c = true -> rank c < rank w) /\
    (forall j c, (k < j)%nat -> nth_error (cards t) j = Some c ->
                 followsSuit (tsuit t) c = true -> rank c <= rank w).
Proof.
  unfold trickWinner. rewrite trickWinner_step_firstMax. intro H.
  destruct (firstMax_fold Card Z (followsSuit (tsuit t)) rank Z.gtb Z.lt Z.le
              ltac:(intros a b E; apply Z.gtb_lt in E; exact E)
              ltac:(intros a b E; rewrite Z.gtb_ltb in E; apply Z.ltb_ge in E; exact E)
              Z.lt_trans Z.le_lt_trans (cards t) None)
    as [[Hkeep _] | [k [w' [Hf [Hn [Hw [_ [Hb Ha]]]]]]]].
  - rewrite Hkeep in H. discriminate H.
  - rewrite Hf in H. inversion H. subst w'.
    exists k. repeat split; assumption.
Qed.

(** A tie with no suit set: of two aces, the first one wins. *)
Lemma trickWinner_first_highest_witness :
  exists k,
    nth_error (cards (mkTrick None [mkCard clubs 9; mkCard hearts 14;
                                    mkCard spades 14])) k
    = Some (mkCard hearts 14) /\
    followsSuit None (mkCard hearts 14) = true /\
    (forall j c, (j < k)%nat ->
                 nth_error [mkCard clubs 9; mkCard hearts 14; mkCard spades 14] j
                 = Some c ->
                 followsSuit None c = true -> rank c < 14) /\
    (forall j c, (k < j)%nat ->
                 nth_error [mkCard clubs 9; mkCard hearts 14; mkCard spades 14] j
                 = Some c ->
                 followsSuit None c = true -> rank c <= 14).
Proof.
  apply (trickWinner_first_highest
           (mkTrick None [mkCard clubs 9; mkCard hearts 14; mkCard spades 14])
           (mkCard hearts 14)).
  reflexivity.
Defined.

(** ** Valid plays *)

Lemma filter_all {A : Type} (l : list A) : filter (fun _ => true) l = l.
Proof. induction l as [|x l IH]; simpl; [reflexivity | rewrite IH; reflexivity]. Qed.

Lemma filter_twice {A : Type} (f : A -> bool) (l : list A) :
  filter f (filter f l) = filter f l.
Proof.
  induction l as [|x l IH]; simpl; [reflexivity|].
  destruct (f x) eqn:E; simpl; [rewrite E, IH; reflexivity | exact IH].
Qed.

Lemma existsb_filter_self {A : Type} (f : A -> bool) (l : list A) :
  existsb f (filter f l) = existsb f l.
Proof.
  induction l as [|x l IH]; simpl; [reflexivity|].
  destruct (f x) eqn:E; simpl; [rewrite E; reflexivity | exact IH].
Qed.

(** X3. [validPlays] selects cards of the hand, in the order of the hand,
    without inventing or repeating one; it offers nothing only when the hand
    is empty; and offering again among the offered cards changes nothing. *)
Theorem validPlays_selects (st : State) (hand : list Card) :
  (exists f, validPlays st hand = filter f hand) /\
  (validPlays st hand = [] <-> hand = []) /\
  validPlays st (validPlays st hand) = validPlays st hand.
Proof.
  split; [|split].
  - unfold validPlays.
    destruct (tsuit (trick st)) as [s|].
    + destruct (fold_left _ hand false).
      * eexists. reflexivity.
      * exists (fun _ => true). symmetry. apply filter_all.
    + destruct (simplified st || heartsBroken st);
        [exists (fun _ => true); symmetry; apply filter_all|].
      destruct (length _ =? 0)%nat.
      * exists (fun _ => true). symmetry. apply filter_all.
      * eexists. reflexivity.
  - split.
    + intro H. destruct hand as [|c hand]; [reflexivity|].
      exfalso. apply (validPlays_nonempty st (c :: hand)); [discriminate | exact H].
    + intros ->. unfold validPlays.
      destruct (tsuit (trick st)); [reflexivity|].
      destruct (simplified st || heartsBroken st); reflexivity.
  - unfold validPlays.
    destruct (tsuit (trick st)) as [s|].
    + rewrite !fold_or_existsb. cbn [orb].
      destruct (existsb (fun card => Suit_eqb (suit card) s) hand) eqn:E.
      * rewrite existsb_filter_self, E. apply filter_twice.
      * rewrite E. reflexivity.
    + destruct (simplified st || heartsBroken st); [reflexivity|].
      destruct (filter (fun card => cardPoints card (simplified st) =? 0) hand)
        as [|c plays] eqn:E.
      * cbn [length Nat.eqb]. rewrite E. reflexivity.
      * cbn [length Nat.eqb]. rewrite <- E, filter_twice, E. reflexivity.
Qed.

(** A legal play of another suit than the trick's shows a hand without
    that suit. *)
Lemma validPlays_off_suit_void (st : State) (hand : list Card) (c : Card)
      (ts : Suit) :
  tsuit (trick st) = Some ts ->
  In c (validPlays st hand) -> suit c <> ts ->
  forall c', In c' hand -> suit c' <> ts.
Proof.
  unfold validPlays. intros Hts Hin Hne. rewrite Hts in Hin.
  rewrite fold_or_existsb in Hin. cbn [orb] in Hin.
  destruct (existsb (fun card => Suit_eqb (suit card) ts) hand) eqn:E.
  - apply filter_In in Hin. destruct Hin as [_ Hs]. apply Suit_eqb_eq in Hs.
    contradiction.
  - intros c' Hc' Hs. assert (E' : existsb (fun card => Suit_eqb (suit card) ts) hand = true).
    { apply existsb_exists. exists c'. split; [exact Hc' | apply Suit_eqb_eq; exact Hs]. }
    rewrite E' in E. discriminate.
Qed.

(** ** Finding a card *)

(** X4. [playerWithCard] finds nobody exactly when no player holds the
    card; when it finds a player, that player is one of the players, holds
    the card, and no player before it does. *)
Theorem playerWithCard_spec (ps : list Player) (s : Suit) (r : Z) :
  match playerWithCard ps s r with
  | None => forall p, In p ps -> ~ In (mkCard s r) (hand p)
  | Some p =>
      exists seat,
        nth_error ps seat = Some p /\
        In (mkCard s r) (hand p) /\
        forall k q, (k < seat)%nat -> nth_error ps k = Some q ->
                    ~ In (mkCard s r) (hand q)
  end.
Proof.
  unfold playerWithCard. induction ps as [|x ps IH]; cbn [find].
  - intros p [].
  - pose proof (@holds_card_iff s r x) as Hx.
    destruct (match find _ (hand x) with Some _ => true | None => false end).
    + exists 0%nat. split; [reflexivity|]. split; [apply Hx; reflexivity|].
      intros k q Hk. lia.
    + assert (Hnot : ~ In (mkCard s r) (hand x)).
      { intro H. apply Hx in H. discriminate H. }
      destruct (find _ ps) as [p|].
      * destruct IH as [seat [Hn [Hin Hbefore]]].
        exists (S seat). split; [exact Hn|]. split; [exact Hin|].
        intros k q Hk Hq. destruct k as [|k].
        -- inversion Hq. subst q. exact Hnot.
        -- apply (Hbefore k q); [lia | exact Hq].
      * intros p [<-|Hp]; [exact Hnot | apply IH; exact Hp].
Qed.

(** ** Choosing a play *)

Lemma selectStep_firstMax {Trace : Type} (l : list (ActionSummary Trace))
      (acc : option (ActionSummary Trace)) :
  fold_left selectStep l acc
  = fold_left (firstMaxStep (fun _ => true) quality Qgtb) l acc.
Proof.
  revert acc. induction l as [|x l IH]; intro acc; [reflexivity|].
  cbn [fold_left]. rewrite IH. f_equal.
  unfold selectStep, firstMaxStep. destruct acc as [a|]; reflexivity.
Qed.

Lemma Qgtb_lt (a b : Q) : Qgtb a b = true -> (b < a)%Q.
Proof.
  unfold Qgtb. intro H. apply negb_true_iff in H.
  apply Qnot_le_lt. intro Hle. apply Qle_bool_iff in Hle. congruence.
Qed.

Lemma Qgtb_le (a b : Q) : Qgtb a b = false -> (a <= b)%Q.
Proof.
  unfold Qgtb. intro H. apply negb_false_iff in H. apply Qle_bool_iff. exact H.
Qed.

(** X5. The reduction of [playRound] over a policy's candidates finds no
    play exactly when the policy answers no candidate; otherwise it picks
    the first candidate of the highest quality: every candidate before it
    has a strictly lower quality, and none after it has a higher one. *)
Theorem selectPlay_first_best {Trace : Type} (l : list (ActionSummary Trace)) :
  match selectPlay l with
  | None => l = []
  | Some s =>
      exists k,
        nth_error l k = Some s /\
        (forall j c, (j < k)%nat -> nth_error l j = Some c ->
                     (quality c < quality s)%Q) /\
        (forall j c, (k < j)%nat -> nth_error l j = Some c ->
                     (quality c <= quality s)%Q)
  end.
Proof.
  change (selectPlay l) with (fold_left selectStep l None).
  rewrite selectStep_firstMax.
  destruct (firstMax_fold (ActionSummary Trace) Q (fun _ => true) quality Qgtb
              Qlt Qle Qgtb_lt Qgtb_le Qlt_trans Qle_lt_trans l None)
    as [[Hkeep Hnone] | [k [w [Hf [Hn [_ [_ [Hb Ha]]]]]]]].
  - rewrite Hkeep. destruct l as [|x l]; [reflexivity|].
    exfalso. exact (Hnone 0%nat x eq_refl eq_refl).
  - rewrite Hf. exists k. split; [exact Hn|]. split.
    + intros j c Hj Hc. exact (Hb j c Hj Hc eq_refl).
    + intros j c Hj Hc. exact (Ha j c Hj Hc eq_refl).
Qed.

(** ** The fresh deck *)

(** X6. [freshDeck] is the 52 cards of ranks 2 to 14 in the four suits, each
    once; it holds 26 points in standard mode and 13 in simplified mode. *)
Theorem freshDeck_cards :
  length freshDeck = 52%nat /\
  NoDup freshDeck /\
  (forall c, In c freshDeck <-> 2 <= rank c <= 14) /\
  handPoints false freshDeck = 26 /\
  handPoints true freshDeck = 13.
Proof.
  split; [reflexivity|]. split; [apply freshDeck_NoDup|].
  split; [|split; reflexivity].
  intro c. split.
  - intro H.
    assert (F : Forall (fun c => 2 <= rank c <= 14) freshDeck).
    { unfold freshDeck, suitKeys. cbn. repeat constructor; cbn; lia. }
    rewrite Forall_forall in F. exact (F c H).
  - intro H. destruct c as [s r]. cbn [rank] in H.
    assert (Hr : r = 2 \/ r = 3 \/ r = 4 \/ r = 5 \/ r = 6 \/ r = 7 \/ r = 8 \/
                 r = 9 \/ r = 10 \/ r = 11 \/ r = 12 \/ r = 13 \/ r = 14) by lia.
    assert (G : forall c, existsb (Card_eqb c) freshDeck = true -> In c freshDeck).
    { intros c Hc. apply existsb_exists in Hc. destruct Hc as [x [Hx E]].
      apply Card_eqb_eq in E. subst x. exact Hx. }
    apply G.
    destruct s; repeat (destruct Hr as [->|Hr]; [reflexivity|]); subst r; reflexivity.
Qed.

(* ================================================================= *)
(** * Further properties of the state reducers *)

Lemma suits_inj (a b : Suit) : suits a = suits b -> a = b.
Proof. destruct a, b; simpl; intro H; try reflexivity; discriminate H. Qed.

Lemma filter_absent (c : Card) (h : list Card) :
  ~ In c h -> filter (fun x => negb (Card_eqb x c)) h = h.
Proof.
  induction h as [|y h IH]; intro H; simpl; [reflexivity|].
  destruct (Card_eqb y c) eqn:E; simpl.
  - apply Card_eqb_eq in E. subst y. exfalso. apply H. left. reflexivity.
  - rewrite IH; [reflexivity|]. intro Hin. apply H. right. exact Hin.
Qed.

Section StateFacts.
Context {Trace : Type}.
Variable policies : list (Policy Trace).

(** A turn that goes through, in full. *)
Lemma playTurn_detail (st st' : State) (i : nat) (w w' : World Trace) :
  NoDup (map ref (players st)) ->
  playTurn policies st i w = (w', Ok st') ->
  exists player f play,
    nth_error (players st) ((trickLeader st + i) mod 4) = Some player /\
    nth_error policies (policy player) = Some f /\
    selectPlay (f st player (validPlays st (hand player))) = Some play /\
    st' = mkState
            (update ((trickLeader st + i) mod 4)
                    (afterPlay (trick st) (action play) player (nextRef w))
                    (players st))
            (mkTrick (match tsuit (trick st) with
                      | None => Some (suit (action play))
                      | Some s => Some s
                      end)
                     (cards (trick st) ++ [action play]))
            (heartsBroken st
             || negb (cardPoints (action play) (simplified st) =? 0))
            (simplified st)
            (trickLeader st) /\
    w' = mkWorld (log w ++ [PolicyCall st player (validPlays st (hand player));
                            RecordAction player st (action play) (quality play)
                                         (trace play)])
                 (S (nextRef w)).
Proof.
  intros Hnd H. apply playTurn_ok_inv in H.
  destruct H as [player [f [play [Hp [Hf [Hs H]]]]]].
  rewrite (playCard_eq st _ player play _ Hp Hnd) in H.
  inversion H. subst. exists player, f, play.
  split; [exact Hp|]. split; [exact Hf|]. split; [exact Hs|].
  split; [reflexivity|]. cbn [log nextRef]. rewrite <- app_assoc. reflexivity.
Qed.

End StateFacts.

(** X7. The flags tell the truth when policies answer offered cards: if a
    turn sets a player's flag for a suit that was not set, then that suit
    is the suit of the trick, and the player's hand holds no card of it,
    before the turn or after. *)
Theorem flag_set_shows_void {Trace : Type} (policies : list (Policy Trace))
        (st st' : State) (i : nat) (w w' : World Trace)
        (seat : nat) (p p' : Player) (ts : Suit) :
  NoDup (map ref (players st)) ->
  (forall f, In f policies -> answersOffered f) ->
  playTurn policies st i w = (w', Ok st') ->
  nth_error (players st) seat = Some p ->
  nth_error (players st') seat = Some p' ->
  nth_error (playsOutOfSuit p) (suits ts) = Some false ->
  nth_error (playsOutOfSuit p') (suits ts) = Some true ->
  tsuit (trick st) = Some ts /\
  (forall c, In c (hand p) -> suit c <> ts) /\
  (forall c, In c (hand p') -> suit c <> ts).
Proof.
  intros Hnd Hpol H Hp Hp' Hfalse Htrue.
  destruct (playTurn_detail policies st st' i w w' Hnd H)
    as [player [f [play [Hpl [Hf [Hs [-> _]]]]]]].
  cbn [players] in Hp'.
  destruct (Nat.eq_dec seat ((trickLeader st + i) mod 4)) as [->|Hneq].
  - rewrite Hpl in Hp. inversion Hp. subst player. clear Hp.
    rewrite nth_error_update_eq in Hp'
      by (apply nth_error_Some; rewrite Hpl; discriminate).
    inversion Hp'. subst p'. clear Hp'.
    cbn [playsOutOfSuit afterPlay] in Htrue.
    destruct (tsuit (trick st)) as [ts0|] eqn:Ets;
      [|rewrite Hfalse in Htrue; discriminate].
    destruct (Suit_eqb ts0 (suit (action play))) eqn:Es; cbn [negb] in Htrue;
      [rewrite Hfalse in Htrue; discriminate|].
    rewrite nth_error_mapi, Hfalse in Htrue. cbn [option_map] in Htrue.
    destruct (suits ts =? suits ts0)%nat eqn:En; [|discriminate].
    apply Nat.eqb_eq, suits_inj in En. subst ts0.
    assert (Hvoid : forall c, In c (hand p) -> suit c <> ts).
    { apply (validPlays_off_suit_void st (hand p) (action play) ts Ets).
      - apply (Hpol f (nth_error_In _ _ Hf) st p). apply selectPlay_In. exact Hs.
      - apply Suit_eqb_neq in Es. intro E. apply Es. symmetry. exact E. }
    split; [reflexivity|]. split; [exact Hvoid|].
    intros c Hc. cbn [hand afterPlay] in Hc. apply filter_In in Hc.
    apply Hvoid. tauto.
  - rewrite nth_error_update_neq in Hp'
      by (intro E; apply Hneq; symmetry; exact E).
    rewrite Hp in Hp'. inversion Hp'. subst p'.
    rewrite Hfalse in Htrue. discriminate.
Qed.

(** A resolution that goes through, seat by seat. *)
Lemma resolveTrick_seats {Trace : Type} (st st' : State) (w w' : World Trace) :
  NoDup (map ref (players st)) ->
  resolveTrick st w = (w', Ok st') ->
  exists card cardIndex,
    trickWinner (trick st) = Some card /\
    indexOf card (cards (trick st)) = Some cardIndex /\
    trickLeader st' = ((cardIndex + trickLeader st) mod 4)%nat /\
    trick st' = mkTrick None [] /\
    heartsBroken st' = heartsBroken st /\
    simplified st' = simplified st /\
    length (players st') = length (players st) /\
    (forall s p, nth_error (players st) s = Some p ->
       exists p',
         nth_error (players st') s = Some p' /\
         hand p' = hand p /\
         playsOutOfSuit p' = playsOutOfSuit p /\
         policy p' = policy p /\
         recorder p' = recorder p /\
         score p' = score p + (if (s =? (cardIndex + trickLeader st) mod 4)%nat
                               then trickPoints (trick st) (simplified st)
                               else 0)) /\
    exists wp,
      log w' = log w ++ map (rewardEvent (simplified st)
                               (trickPoints (trick st) (simplified st)) wp)
                            (players st).
Proof.
  intros Hnd H.
  destruct (resolveTrick_ok_inv st st' w w' H) as [card [cardIndex [wp [Hc [Hi Hn]]]]].
  exists card, cardIndex. split; [exact Hc|]. split; [exact Hi|].
  pose proof (resolveTrick_eq st card cardIndex wp w Hc Hi Hn Hnd) as E.
  cbv zeta in E. rewrite E in H. clear E.
  destruct (trickPoints (trick st) (simplified st) =? 0) eqn:Ep;
    inversion H; subst; clear H;
    cbn [trickLeader trick heartsBroken simplified players log].
  - apply Z.eqb_eq in Ep. repeat (split; [reflexivity|]).
    split; [|exists wp; reflexivity].
    intros s p Hp. exists p. split; [exact Hp|]. repeat (split; [reflexivity|]).
    rewrite Ep. destruct (s =? _)%nat; lia.
  - repeat (split; [reflexivity|]). split; [apply update_length|].
    split; [|exists wp; reflexivity].
    intros s p Hp.
    destruct (Nat.eqb_spec s ((cardIndex + trickLeader st) mod 4)) as [->|Hneq].
    + rewrite Hn in Hp. inversion Hp. subst p.
      eexists. split.
      * apply nth_error_update_eq. apply nth_error_Some. rewrite Hn. discriminate.
      * repeat split.
    + exists p. split.
      * rewrite nth_error_update_neq by (intro E; apply Hneq; symmetry; exact E).
        exact Hp.
      * repeat (split; [reflexivity|]). lia.
Qed.

(** X8. A resolution that goes through, the players being distinct
    objects: the winner's seat is the index of the winning card plus the
    leader, modulo 4; that seat leads the next trick; the trick is reset;
    [heartsBroken] and [simplified] are kept; and every seat keeps its hand,
    flags, policy and recorder, the winning seat's score growing by the
    points of the trick and the other scores staying as they are. *)
Theorem resolveTrick_effect {Trace : Type} (st st' : State) (w w' : World Trace) :
  NoDup (map ref (players st)) ->
  resolveTrick st w = (w', Ok st') ->
  exists card cardIndex,
    trickWinner (trick st) = Some card /\
    indexOf card (cards (trick st)) = Some cardIndex /\
    trickLeader st' = ((cardIndex + trickLeader st) mod 4)%nat /\
    trick st' = mkTrick None [] /\
    heartsBroken st' = heartsBroken st /\
    simplified st' = simplified st /\
    length (players st') = length (players st) /\
    forall s p, nth_error (players st) s = Some p ->
      exists p',
        nth_error (players st') s = Some p' /\
        hand p' = hand p /\
        playsOutOfSuit p' = playsOutOfSuit p /\
        policy p' = policy p /\
        recorder p' = recorder p /\
        score p' = score p + (if (s =? (cardIndex + trickLeader st) mod 4)%nat
                              then trickPoints (trick st) (simplified st)
                              else 0).
Proof.
  intros Hnd H.
  destruct (resolveTrick_seats st st' w w' Hnd H)
    as [card [cardIndex [H1 [H2 [H3 [H4 [H5 [H6 [H7 [H8 _]]]]]]]]]].
  exists card, cardIndex. repeat (split; [assumption|]). exact H8.
Qed.

(** X9. [playCard] does not check that the card is in the actor's hand: a
    card that is not there is recorded and appended to the trick all the
    same, and the actor keeps its whole hand. *)
Theorem playCard_card_not_in_hand {Trace : Type} (st : State) (seat : nat)
        (actor : Player) (summary : ActionSummary Trace) (w : World Trace) :
  nth_error (players st) seat = Some actor ->
  NoDup (map ref (players st)) ->
  ~ In (action summary) (hand actor) ->
  exists st' w' actor',
    playCard st actor summary w = (w', Ok st') /\
    nth_error (players st') seat = Some actor' /\
    hand actor' = hand actor /\
    cards (trick st') = cards (trick st) ++ [action summary] /\
    log w' = log w ++ [RecordAction actor st (action summary) (quality summary)
                                    (trace summary)].
Proof.
  intros Hnth Hnd Hnot.
  eexists. eexists. exists (afterPlay (trick st) (action summary) actor (nextRef w)).
  split; [apply (playCard_eq st seat); assumption|].
  cbn [players trick cards log].
  split; [apply nth_error_update_eq; apply nth_error_Some; rewrite Hnth; discriminate|].
  split; [apply filter_absent; exact Hnot|].
  split; reflexivity.
Qed.

Lemma offerAll_answers :
  forall f, In f four_offerAll -> answersOffered f.
Proof.
  intros f Hf st p plays s Hs. unfold four_offerAll in Hf. cbn [In] in Hf.
  repeat (destruct Hf as [<-|Hf];
          [unfold offerAll in Hs; apply in_map_iff in Hs;
           destruct Hs as [c [<- Hc]]; exact Hc|]).
  destruct Hf.
Qed.

Lemma example_table_refs : NoDup (map ref (players example_table)).
Proof. repeat constructor; simpl; intuition discriminate. Qed.

Lemma example_resolution_refs : NoDup (map ref (players example_resolution)).
Proof. repeat constructor; simpl; intuition discriminate. Qed.

(** Seat 2 of the example table, void in hearts, discards the king of
    clubs on a heart lead. *)
Lemma flag_set_shows_void_witness :
  tsuit (trick example_table) = Some hearts /\
  (forall c, In c (hand example_south) -> suit c <> hearts) /\
  (forall c, In c [mkCard spades 12; mkCard diamonds 3] -> suit c <> hearts).
Proof.
  destruct (playTurn four_offerAll example_table 2 (mkWorld [] 4))
    as [w' [st'|e]] eqn:E; [|vm_compute in E; discriminate E].
  apply (flag_set_shows_void four_offerAll example_table st' 2 (mkWorld [] 4) w'
           2 example_south
           (mkPlayer [mkCard spades 12; mkCard diamonds 3] 0
                     [false; false; false; true] 2 2 4)
           hearts).
  - exact example_table_refs.
  - exact offerAll_answers.
  - exact E.
  - reflexivity.
  - vm_compute in E. inversion E. reflexivity.
  - reflexivity.
  - reflexivity.
Defined.

(** The trick [2h, 5h, Kc, Ah] led by seat 0 goes to seat 3. *)
Lemma resolveTrick_effect_witness :
  exists st' w' card cardIndex,
    @resolveTrick unit example_resolution (mkWorld [] 4) = (w', Ok st') /\
    trickWinner (trick example_resolution) = Some card /\
    indexOf card (cards (trick example_resolution)) = Some cardIndex /\
    trickLeader st' = ((cardIndex + trickLeader example_resolution) mod 4)%nat /\
    trick st' = mkTrick None [] /\
    map score (players st') = [0; 0; 0; 3].
Proof.
  destruct (@resolveTrick unit example_resolution (mkWorld [] 4)) as [w' [st'|e]] eqn:E;
    [|vm_compute in E; discriminate E].
  destruct (resolveTrick_effect example_resolution st' (mkWorld [] 4) w'
              example_resolution_refs E)
    as [card [cardIndex [Hc [Hi [Hl [Ht _]]]]]].
  exists st', w', card, cardIndex.
  split; [reflexivity|]. split; [exact Hc|]. split; [exact Hi|].
  split; [exact Hl|]. split; [exact Ht|].
  vm_compute in E. inversion E. reflexivity.
Defined.

(** Seat 2 of the example table is made to play the ace of spades, which
    it does not hold. *)
Lemma playCard_card_not_in_hand_witness :
  exists st' w' actor',
    @playCard unit example_table example_south (mkSummary (mkCard spades 14) 1 tt)
              (mkWorld [] 4) = (w', Ok st') /\
    nth_error (players st') 2 = Some actor' /\
    hand actor' = hand example_south /\
    cards (trick st') = cards (trick example_table) ++ [mkCard spades 14] /\
    log w' = [RecordAction example_south example_table (mkCard spades 14) 1 tt].
Proof.
  apply (playCard_card_not_in_hand example_table 2 example_south
           (mkSummary (mkCard spades 14) 1%Q tt) (mkWorld [] 4)).
  - reflexivity.
  - exact example_table_refs.
  - simpl. intuition discriminate.
Defined.

(* ================================================================= *)
(** * Further properties of the history interpreter *)

(** X10. [interpretHistory] fails exactly on the histories without a
    terminal entry, the empty one among them, and with no other error
    than that of the empty history; whatever follows the first terminal
    entry is not read. *)
Theorem interpretHistory_fails_iff_unterminated {Trace : Type}
        (history : list (History Trace)) :
  (interpretHistory history = Err EmptyHistory
   <-> existsb isTerminal history = false) /\
  (forall e, interpretHistory history = Err e -> e = EmptyHistory) /\
  (forall r a rest,
     interpretHistory (history ++ Terminal r a :: rest)
     = interpretHistory (history ++ [Terminal r a])).
Proof.
  induction history as [|h tl [[IH1 IH1'] [IH2 IH3]]].
  - split; [split; reflexivity|]. split.
    + intros e H. inversion H. reflexivity.
    + reflexivity.
  - destruct h as [r0 a0 | st actor act q rew tr]; cbn [interpretHistory isTerminal existsb orb app].
    + split; [split; discriminate|]. split; [discriminate|reflexivity].
    + split; [split|split].
      * intro H. apply IH1.
        destruct (interpretHistory tl) as [rest|e]; [discriminate|exact H].
      * intro H. rewrite (IH1' H). reflexivity.
      * intros e H. apply IH2.
        destruct (interpretHistory tl) as [rest|e']; [discriminate|exact H].
      * intros r a rest. rewrite (IH3 r a rest). reflexivity.
Qed.

(** X11. An interpretation can be read back: the feedback list, reversed,
    gives the entries of the history up to its first terminal entry, each
    with its state, actor, action, quality, reward and trace; the score is
    that of the actor of that terminal entry. *)
Theorem interpretHistory_round_trip {Trace : Type}
        (history : list (History Trace)) (res : Interpretation Trace) :
  interpretHistory history = Ok res ->
  exists r a rest,
    history = map stepOf (rev (i_feedBack res)) ++ Terminal r a :: rest /\
    i_score res = score a /\
    chainEnd r (i_feedBack res) = i_reward res.
Proof.
  revert res. induction history as [|h tl IH]; intros res H; [discriminate H|].
  destruct h as [r0 a0 | st actor act q rew tr]; cbn [interpretHistory] in H.
  - inversion H. subst res. exists r0, a0, tl. repeat split.
  - destruct (interpretHistory tl) as [rest|e]; [|discriminate H].
    destruct (IH rest eq_refl) as [r [a [rest' [Hh [Hs He]]]]].
    inversion H. subst res. clear H. exists r, a, rest'.
    cbn [i_feedBack i_score i_reward]. split; [|split].
    + rewrite rev_app_distr. cbn [rev app map stepOf fb_state fb_actor fb_action
                                     fb_expected fb_reward fb_trace].
      f_equal. exact Hh.
    + exact Hs.
    + unfold chainEnd in *. rewrite fold_left_app. cbn [fold_left fb_reward].
      rewrite He. reflexivity.
Qed.

Lemma chained_app {Trace : Type} (fbs : list (FeedBack Trace)) :
  forall (start : Q) (fb : FeedBack Trace),
    chained start fbs ->
    fb_actual fb = chainEnd start fbs ->
    chained start (fbs ++ [fb]).
Proof.
  induction fbs as [|x fbs IH]; intros start fb Hc Hfb.
  - split; [exact Hfb | exact I].
  - destruct Hc as [Hx Hc]. split; [exact Hx|].
    apply IH; [exact Hc|]. rewrite Hfb. unfold chainEnd. cbn [fold_left].
    rewrite Hx. reflexivity.
Qed.

(** X12. The feedback records are chained in the order of the list: the
    first one's [actual] is the reward of the terminal entry, every later
    one's is the [actual] of the record before it plus that record's
    [reward], and the reward of the whole is where the chain ends. *)
Theorem interpretHistory_chained {Trace : Type}
        (steps : list (History Trace)) (r : Q) (a : Player)
        (rest : list (History Trace)) (res : Interpretation Trace) :
  interpretHistory (steps ++ Terminal r a :: rest) = Ok res ->
  forallb (fun h => negb (isTerminal h)) steps = true ->
  chained r (i_feedBack res) /\
  i_reward res = chainEnd r (i_feedBack res) /\
  length (i_feedBack res) = length steps.
Proof.
  revert res. induction steps as [|h tl IH]; intros res H Hsteps.
  - cbn [app interpretHistory] in H. inversion H. subst res.
    split; [exact I|]. split; reflexivity.
  - cbn [forallb] in Hsteps. apply andb_true_iff in Hsteps.
    destruct Hsteps as [Hh Htl].
    destruct h as [r0 a0 | st actor act q rew tr]; [discriminate Hh|].
    cbn [app interpretHistory] in H.
    destruct (interpretHistory (tl ++ Terminal r a :: rest)) as [rest'|e];
      [|discriminate H].
    destruct (IH rest' eq_refl Htl) as [Hc [Hr Hl]].
    inversion H. subst res. clear H. cbn [i_feedBack i_reward].
    split; [|split].
    + apply chained_app; [exact Hc | exact Hr].
    + unfold chainEnd in *. rewrite fold_left_app. cbn [fold_left fb_reward].
      rewrite <- Hr. reflexivity.
    + rewrite length_app, Hl. cbn [length]. lia.
Qed.

(** A history of two steps, sealed, with an entry after the seal. *)
Lemma interpretHistory_round_trip_witness :
  exists res r a rest,
    interpretHistory
      (example_steps ++ [Terminal (3 # 1) example_player;
                         Terminal 0 example_player]) = Ok res /\
    example_steps ++ [Terminal (3 # 1) example_player; Terminal 0 example_player]
    = map stepOf (rev (i_feedBack res)) ++ Terminal r a :: rest /\
    i_score res = score a /\
    chainEnd r (i_feedBack res) = i_reward res.
Proof.
  destruct (interpretHistory
              (example_steps ++ [Terminal (3 # 1) example_player;
                                 Terminal 0 example_player]))
    as [res|e] eqn:E; [|vm_compute in E; discriminate E].
  destruct (interpretHistory_round_trip _ res E) as [r [a [rest H]]].
  exists res, r, a, rest. split; [reflexivity | exact H].
Defined.

Lemma interpretHistory_chained_witness :
  exists res,
    interpretHistory (example_steps ++ [Terminal (3 # 1) example_player]) = Ok res /\
    chained (3 # 1) (i_feedBack res) /\
    i_reward res = chainEnd (3 # 1) (i_feedBack res) /\
    length (i_feedBack res) = length example_steps.
Proof.
  destruct (interpretHistory (example_steps ++ [Terminal (3 # 1) example_player]))
    as [res|e] eqn:E; [|vm_compute in E; discriminate E].
  exists res. split; [reflexivity|].
  apply (interpretHistory_chained example_steps (3 # 1) example_player [] res E).
  reflexivity.
Defined.

(* ================================================================= *)
(** * Further properties of the shuffle *)

(** One iteration of the shuffle on any array, whatever the draw. *)
Lemma shuffle_step_keeps (d : JsArray) (i : nat) (j : Z) :
  (i < length (elems d))%nat ->
  NoDup (map fst (props d)) ->
  NoDup (map fst (props (jsSet (jsSet d (Z.of_nat i) (jsGet d j)) j
                                (jsGet d (Z.of_nat i))))) /\
  Permutation
    (heldCards (jsSet (jsSet d (Z.of_nat i) (jsGet d j)) j (jsGet d (Z.of_nat i))))
    (heldCards d) /\
  (length (elems d)
   <= length (elems (jsSet (jsSet d (Z.of_nat i) (jsGet d j)) j
                           (jsGet d (Z.of_nat i)))))%nat.
Proof.
  intros Hi Hkeys.
  rewrite jsGet_index, (jsSet_index d i _ Hi).
  set (t := nth i (elems d) None).
  destruct (Z.ltb_spec j 0) as [Hneg|Hnn].
  - unfold jsGet, jsSet. cbn [elems props].
    assert (E : (j <? 0) = true) by (apply Z.ltb_lt; exact Hneg).
    rewrite E. split; [|split].
    + cbn [props map fst]. constructor;
        [apply filter_other_key_notin | apply filter_other_key_NoDup; exact Hkeys].
    + unfold heldCards. cbn [elems props map snd].
      rewrite !somes_app.
      set (R := map snd (filter (fun kv => negb (fst kv =? j)) (props d))).
      set (v := lookupProp j (props d)).
      change (t :: R) with ([t] ++ R). rewrite somes_app, app_assoc.
      eapply perm_trans;
        [apply Permutation_app_tail; apply Permutation_app_comm|].
      rewrite <- somes_app. cbn [app].
      eapply perm_trans;
        [apply Permutation_app_tail; apply somes_perm;
         apply (update_swap_head None v (elems d) i Hi)|].
      change (v :: elems d) with ([v] ++ elems d). rewrite somes_app.
      eapply perm_trans;
        [apply Permutation_app_tail; apply Permutation_app_comm|].
      rewrite <- app_assoc. apply Permutation_app_head.
      rewrite <- somes_app. cbn [app]. apply Permutation_sym.
      apply props_take. exact Hkeys.
    + cbn [elems]. rewrite update_length. lia.
  - unfold jsGet, jsSet. cbn [elems props].
    assert (E : (j <? 0) = false) by (apply Z.ltb_ge; exact Hnn).
    rewrite E, update_length.
    destruct (Nat.ltb_spec (Z.to_nat j) (length (elems d))) as [Hin|Hout].
    + split; [exact Hkeys|]. split.
      * unfold heldCards. cbn [elems props].
        rewrite !somes_app. apply Permutation_app_tail. apply somes_perm.
        apply swap_permutation; assumption.
      * cbn [elems]. rewrite !update_length. lia.
    + rewrite (nth_overflow (elems d) None Hout).
      split; [exact Hkeys|]. split.
      * unfold heldCards. cbn [elems props].
        rewrite !somes_app, somes_repeat_None. cbn [app].
        apply Permutation_app_tail.
        eapply perm_trans; [apply Permutation_app_comm|].
        rewrite <- somes_app. cbn [app].
        apply (somes_perm (t :: update i None (elems d)) (None :: elems d)).
        apply update_swap_head. exact Hi.
      * cbn [elems]. rewrite !length_app, update_length. lia.
Qed.

Lemma shuffleLoop_keeps (random : nat -> Q) (fuel : nat) :
  forall (i : nat) (d d' : JsArray),
    NoDup (map fst (props d)) ->
    shuffleLoop fuel random i d = Some d' ->
    NoDup (map fst (props d')) /\
    Permutation (heldCards d') (heldCards d) /\
    (length (elems d) <= length (elems d'))%nat.
Proof.
  induction fuel as [|fuel IH]; intros i d d' Hd H; simpl in H.
  - destruct (i <? length (elems d))%nat; [discriminate|]. inversion H. subst.
    split; [exact Hd|]. split; [reflexivity | lia].
  - destruct (Nat.ltb_spec i (length (elems d))) as [Hi|Hi].
    + destruct (shuffle_step_keeps d i
                  (toInt32 (random i * inject_Z (Z.of_nat (length (elems d)))))
                  Hi Hd) as [Hk [Hp Hl]].
      destruct (IH _ _ _ Hk H) as [Hk' [Hp' Hl']].
      split; [exact Hk'|]. split; [|lia].
      eapply perm_trans; [exact Hp' | exact Hp].
    + inversion H. subst. split; [exact Hd|]. split; [reflexivity | lia].
Qed.

(** X13. With draws in [0, 1), as [Math.random] gives them, the shuffle of
    any array of fewer than 2^31 slots ends after one iteration per slot,
    leaves the other properties of the array alone, and permutes the
    slots: the array keeps its length, and a slot that held a card holds a
    card. *)
Theorem shuffleDeck_in_range (deck : JsArray) (random : nat -> Q) (fuel : nat) :
  unitRange random ->
  Z.of_nat (length (elems deck)) < 2 ^ 31 ->
  (length (elems deck) <= fuel)%nat ->
  exists deck',
    shuffleDeck fuel deck random = Some deck' /\
    props deck' = props deck /\
    Permutation (elems deck') (elems deck) /\
    length (elems deck') = length (elems deck) /\
    Permutation (heldCards deck') (heldCards deck).
Proof.
  intros Hr Hlen Hfuel. unfold shuffleDeck.
  destruct (shuffleLoop_permutes random (length (elems deck)) Hr 0 fuel deck
              eq_refl Hfuel Hlen) as [deck' [Hs [Hp Hperm]]].
  exists deck'. split; [exact Hs|]. split; [exact Hp|]. split; [exact Hperm|].
  split; [apply Permutation_length; exact Hperm|].
  unfold heldCards. rewrite Hp, !somes_app. apply Permutation_app_tail.
  apply somes_perm. exact Hperm.
Qed.

(** X14. Whatever the draws, a shuffle that ends has lost no card and
    made none: the cards the array holds, in its slots or under its other
    property names, are those it held, up to their order; the array has
    not shrunk, and no property name is repeated. *)
Theorem shuffleDeck_keeps_cards (deck deck' : JsArray) (random : nat -> Q)
        (fuel : nat) :
  NoDup (map fst (props deck)) ->
  shuffleDeck fuel deck random = Some deck' ->
  NoDup (map fst (props deck')) /\
  Permutation (heldCards deck') (heldCards deck) /\
  (length (elems deck) <= length (elems deck'))%nat.
Proof.
  intros Hd H. exact (shuffleLoop_keeps random fuel 0 deck deck' Hd H).
Qed.

Lemma shuffleDeck_in_range_witness :
  exists deck',
    shuffleDeck 3 small_deck exampleRandom = Some deck' /\
    props deck' = props small_deck /\
    Permutation (elems deck') (elems small_deck) /\
    length (elems deck') = length (elems small_deck) /\
    Permutation (heldCards deck') (heldCards small_deck).
Proof.
  apply (shuffleDeck_in_range small_deck exampleRandom 3).
  - exact exampleRandom_unitRange.
  - vm_compute. reflexivity.
  - vm_compute. lia.
Defined.

(** The three cards after three draws of -1: one of them is held under the
    property name -3. *)
Lemma shuffleDeck_keeps_cards_witness :
  exists deck',
    shuffleDeck 3 small_deck minusOne = Some deck' /\
    NoDup (map fst (props deck')) /\
    Permutation (heldCards deck') (heldCards small_deck) /\
    (length (elems small_deck) <= length (elems deck'))%nat.
Proof.
  destruct (shuffleDeck 3 small_deck minusOne) as [deck'|] eqn:E;
    [|vm_compute in E; discriminate E].
  exists deck'. split; [reflexivity|].
  apply (shuffleDeck_keeps_cards small_deck deck' minusOne 3).
  - constructor.
  - exact E.
Defined.

(* ================================================================= *)
(** * Further properties of the rounds *)

Lemma seatKeeps_refl (p : Player) : seatKeeps p p.
Proof.
  split; [lia|]. split; [apply incl_refl|]. split; [reflexivity|].
  split; [intros k H; exact H|]. split; reflexivity.
Qed.

Lemma seatKeeps_trans (p q r : Player) :
  seatKeeps p q -> seatKeeps q r -> seatKeeps p r.
Proof.
  intros [A1 [A2 [A3 [A4 [A5 A6]]]]] [B1 [B2 [B3 [B4 [B5 B6]]]]].
  split; [lia|]. split; [eapply incl_tran; eassumption|].
  split; [congruence|]. split; [intros k H; apply B4, A4, H|].
  split; congruence.
Qed.

Lemma afterPlay_keeps (tr : Trick) (act : Card) (p : Player) (r : nat) :
  seatKeeps p (afterPlay tr act p r).
Proof.
  split; [cbn [afterPlay score]; lia|].
  split; [cbn [afterPlay hand]; intros c Hc; apply filter_In in Hc; tauto|].
  split; [apply afterPlay_flags|].
  split; [|split; reflexivity].
  intros k Hk. cbn [afterPlay playsOutOfSuit].
  destruct (tsuit tr) as [ts|]; [|exact Hk].
  destruct (negb (Suit_eqb ts (suit act))); [|exact Hk].
  rewrite nth_error_mapi, Hk. cbn [option_map].
  destruct (k =? suits ts)%nat; reflexivity.
Qed.

Lemma withPoints_keeps (points : Z) (p : Player) (r : nat) :
  0 <= points -> seatKeeps p (withPoints points p r).
Proof.
  intro H. split; [cbn [withPoints score]; lia|].
  split; [apply incl_refl|]. split; [reflexivity|].
  split; [intros k Hk; exact Hk|]. split; reflexivity.
Qed.

Section Related.
Context {A : Type}.
Variable R : A -> A -> Prop.

Lemma Forall2_same (l : list A) : (forall a, R a a) -> Forall2 R l l.
Proof. intro H. induction l; constructor; auto. Qed.

Lemma Forall2_compose (l1 l2 l3 : list A) :
  (forall a b c, R a b -> R b c -> R a c) ->
  Forall2 R l1 l2 -> Forall2 R l2 l3 -> Forall2 R l1 l3.
Proof.
  intros Ht H12. revert l3. induction H12 as [|a b l1 l2 Hab _ IH]; intros l3 H23.
  - inversion H23. constructor.
  - inversion H23 as [|b' c l2' l3' Hbc H23' E1 E2]. subst. constructor.
    + eapply Ht; eassumption.
    + apply IH. exact H23'.
Qed.

Lemma Forall2_update (l : list A) (k : nat) (x y : A) :
  (forall a, R a a) ->
  nth_error l k = Some x -> R x y -> Forall2 R l (update k y l).
Proof.
  intro Hr. revert k. induction l as [|a l IH]; intros [|k] Hk Hxy; simpl in *;
    try discriminate.
  - inversion Hk. subst. constructor; [exact Hxy | apply Forall2_same; exact Hr].
  - constructor; [apply Hr | apply IH; assumption].
Qed.

Lemma Forall2_In_r (l l' : list A) (y : A) :
  Forall2 R l l' -> In y l' -> exists x, In x l /\ R x y.
Proof.
  induction 1 as [|a b l l' Hab _ IH]; intro Hy; [destruct Hy|].
  destruct Hy as [<-|Hy].
  - exists a. split; [left; reflexivity | exact Hab].
  - destruct (IH Hy) as [x [Hx Hr]]. exists x. split; [right; exact Hx | exact Hr].
Qed.

End Related.

Section RoundsKeep.
Context {Trace : Type}.
Variable policies : list (Policy Trace).

Lemma playTurn_keeps (st st' : State) (i : nat) (w w' : World Trace) :
  NoDup (map ref (players st)) ->
  playTurn policies st i w = (w', Ok st') ->
  Forall2 seatKeeps (players st) (players st').
Proof.
  intros Hnd H.
  destruct (playTurn_detail policies st st' i w w' Hnd H)
    as [player [f [play [Hp [_ [_ [-> _]]]]]]].
  cbn [players]. apply (Forall2_update seatKeeps _ _ player).
  - exact seatKeeps_refl.
  - exact Hp.
  - apply afterPlay_keeps.
Qed.

Lemma resolveTrick_keeps (st st' : State) (w w' : World Trace) :
  NoDup (map ref (players st)) ->
  resolveTrick st w = (w', Ok st') ->
  Forall2 seatKeeps (players st) (players st').
Proof.
  intros Hnd H.
  destruct (resolveTrick_ok_inv st st' w w' H) as [card [cardIndex [wp [Hc [Hi Hn]]]]].
  pose proof (resolveTrick_eq st card cardIndex wp w Hc Hi Hn Hnd) as E.
  cbv zeta in E. rewrite E in H. clear E.
  destruct (trickPoints (trick st) (simplified st) =? 0);
    inversion H; subst; clear H; cbn [players].
  - apply Forall2_same. exact seatKeeps_refl.
  - apply (Forall2_update seatKeeps _ _ wp).
    + exact seatKeeps_refl.
    + exact Hn.
    + apply withPoints_keeps. rewrite trickPoints_handPoints.
      apply handPoints_bounds.
Qed.

Lemma playTurns_keep (xs : list nat) :
  forall (st st' : State) (w w' : World Trace),
    Seated st w ->
    forOf xs (playTurn policies) st w = (w', Ok st') ->
    Seated st' w' /\ Forall2 seatKeeps (players st) (players st').
Proof.
  induction xs as [|x xs IH]; intros st st' w w' Hs E; simpl in E.
  - inversion E. subst. split; [exact Hs|]. apply Forall2_same. exact seatKeeps_refl.
  - unfold bind in E. destruct (playTurn policies st x w) as [w0 [s0|e0]] eqn:E0;
      [|discriminate].
    destruct (IH s0 st' w0 w' (playTurn_Seated policies st s0 x w w0 Hs E0) E)
      as [Hs' Hk].
    split; [exact Hs'|].
    eapply Forall2_compose; [exact seatKeeps_trans | | exact Hk].
    eapply playTurn_keeps; [|exact E0]. apply Hs.
Qed.

Lemma playRound_keeps (st st' : State) (w w' : World Trace) :
  Seated st w ->
  playRound policies st w = (w', Ok st') ->
  Forall2 seatKeeps (players st) (players st').
Proof.
  unfold playRound. unfold bind at 1. intros Hs H.
  destruct (forOf (range 4) (playTurn policies) st w) as [w1 [s1|e]] eqn:E;
    [|discriminate].
  destruct (playTurns_keep (range 4) st s1 w w1 Hs E) as [Hs1 Hk].
  eapply Forall2_compose; [exact seatKeeps_trans | exact Hk |].
  eapply resolveTrick_keeps; [|exact H]. apply Hs1.
Qed.

(** The policies of a table stay within reach. *)
Lemma keeps_policies (ps ps' : list Player) :
  Forall2 seatKeeps ps ps' ->
  (forall p, In p ps -> (policy p < length policies)%nat) ->
  forall p, In p ps' -> (policy p < length policies)%nat.
Proof.
  intros Hk Hp p' Hin.
  destruct (Forall2_In_r seatKeeps ps ps' p' Hk Hin) as [p [Hp0 [_ [_ [_ [_ [E _]]]]]]].
  rewrite E. apply Hp. exact Hp0.
Qed.

(** A turn at a table whose seats all have a policy fails only when the
    policy called returns no candidate. *)
Lemma playTurn_fails (st : State) (i : nat) (w w' : World Trace) (e : error) :
  length (players st) = 4%nat ->
  (forall p, In p (players st) -> (policy p < length policies)%nat) ->
  playTurn policies st i w = (w', Err e) ->
  e = NoPlay /\
  exists p f,
    In p (players st) /\
    nth_error policies (policy p) = Some f /\
    f st p (validPlays st (hand p)) = [] /\
    w' = mkWorld (log w ++ [PolicyCall st p (validPlays st (hand p))]) (nextRef w).
Proof.
  intros H4 Hpol H. pose proof (playTurn_cases policies st i w) as C.
  destruct (nth_error_four (players st) ((trickLeader st + i) mod 4) H4
              ltac:(apply Nat.mod_upper_bound; lia)) as [player Hp].
  rewrite Hp in C.
  assert (Hin : In player (players st)) by (eapply nth_error_In; exact Hp).
  destruct (nth_error policies (policy player)) as [f|] eqn:Ef.
  - cbv zeta in C.
    destruct (selectPlay (f st player (validPlays st (hand player)))) as [play|] eqn:Es.
    + rewrite C in H.
      destruct (playCard_total st player play
                  (mkWorld (log w ++ [PolicyCall st player (validPlays st (hand player))])
                           (nextRef w))) as [ps' [n E]].
      rewrite E in H. discriminate.
    + rewrite C in H. inversion H. split; [reflexivity|].
      exists player, f. split; [exact Hin|]. split; [exact Ef|].
      split; [|reflexivity].
      destruct (f st player (validPlays st (hand player))) as [|x l] eqn:El;
        [reflexivity|].
      exfalso. apply (selectPlay_nonempty (x :: l)); [discriminate | exact Es].
  - apply nth_error_None in Ef. specialize (Hpol player Hin). lia.
Qed.

Lemma playTurns_fail (xs : list nat) :
  forall (st : State) (w w' : World Trace) (e : error),
    Seated st w ->
    (forall p, In p (players st) -> (policy p < length policies)%nat) ->
    forOf xs (playTurn policies) st w = (w', Err e) ->
    e = NoPlay /\
    exists st1 p f new,
      nth_error policies (policy p) = Some f /\
      f st1 p (validPlays st1 (hand p)) = [] /\
      log w' = log w ++ new ++ [PolicyCall st1 p (validPlays st1 (hand p))].
Proof.
  induction xs as [|x xs IH]; intros st w w' e Hs Hpol E; simpl in E; [discriminate|].
  unfold bind in E. destruct (playTurn policies st x w) as [w0 [s0|e0]] eqn:E0.
  - assert (Hs0 : Seated s0 w0) by (eapply playTurn_Seated; eassumption).
    assert (Hpol0 : forall p, In p (players s0) -> (policy p < length policies)%nat).
    { apply (keeps_policies (players st)); [|exact Hpol].
      eapply playTurn_keeps; [|exact E0]. apply Hs. }
    destruct (IH s0 w0 w' e Hs0 Hpol0 E) as [-> [st1 [p [f [new [Hf [Hnil Hlog]]]]]]].
    split; [reflexivity|].
    destruct (playTurn_detail policies st s0 x w w0 ltac:(apply Hs) E0)
      as [pl [g [play [_ [_ [_ [_ Hw0]]]]]]].
    exists st1, p, f,
      ([PolicyCall st pl (validPlays st (hand pl));
        RecordAction pl st (action play) (quality play) (trace play)] ++ new).
    split; [exact Hf|]. split; [exact Hnil|].
    rewrite Hlog, Hw0. cbn [log]. rewrite <- !app_assoc. reflexivity.
  - inversion E. subst. clear E.
    destruct (playTurn_fails st x w w' e ltac:(apply Hs) Hpol E0)
      as [-> [p [f [_ [Hf [Hnil ->]]]]]].
    split; [reflexivity|]. exists st, p, f, []. split; [exact Hf|].
    split; [exact Hnil | reflexivity].
Qed.

Lemma playTurns_led (st st' : State) (w w' : World Trace) :
  trick st = mkTrick None [] ->
  forOf (range 4) (playTurn policies) st w = (w', Ok st') ->
  ledState st'.
Proof.
  intros Hst E. simpl in E. unfold bind at 1 in E.
  destruct (playTurn policies st 0 w) as [w0 [s0|e0]] eqn:E0; [|discriminate].
  assert (H0 : ledState s0) by (eapply playTurn_led; [exact E0 | left; exact Hst]).
  revert E H0.
  apply (forOf_preserves ledState (playTurn policies)
           (fun s x w0 s' w0' Hs Hl => playTurn_led policies s s' x w0 w0' Hs (or_intror Hl))
           [1; 2; 3]%nat).
Qed.

(** After four turns from an empty trick the resolution goes through. *)
Lemma resolveTrick_after_turns (st : State) (w : World Trace) :
  length (players st) = 4%nat ->
  ledState st ->
  exists st' w', resolveTrick st w = (w', Ok st').
Proof.
  intros H4 [c [rest [Hc Hsuit]]].
  destruct (trickWinner (trick st)) as [card|] eqn:Ew;
    [|exfalso; exact (led_trickWinner _ _ _ Hc Hsuit Ew)].
  destruct (indexOf_In card (cards (trick st)) (trickWinner_In _ _ Ew))
    as [cardIndex [Ei _]].
  destruct (nth_error_four (players st) ((cardIndex + trickLeader st) mod 4) H4
              ltac:(apply Nat.mod_upper_bound; lia)) as [wp Hwp].
  destruct (resolveTrick_total st card cardIndex wp w Ew Ei Hwp) as [ps' [n [E _]]].
  eexists. eexists. exact E.
Qed.

Lemma playRound_fails (st : State) (w w' : World Trace) (e : error) :
  Ready policies st w ->
  playRound policies st w = (w', Err e) ->
  e = NoPlay /\
  exists st1 p f new,
    nth_error policies (policy p) = Some f /\
    f st1 p (validPlays st1 (hand p)) = [] /\
    log w' = log w ++ new ++ [PolicyCall st1 p (validPlays st1 (hand p))].
Proof.
  intros [Hs [Htrick Hpol]]. unfold playRound. unfold bind at 1. intro H.
  destruct (forOf (range 4) (playTurn policies) st w) as [w1 [s1|e1]] eqn:E.
  - exfalso.
    destruct (playTurns_keep (range 4) st s1 w w1 Hs E) as [Hs1 _].
    destruct (resolveTrick_after_turns s1 w1 ltac:(apply Hs1)
                (playTurns_led st s1 w w1 Htrick E)) as [st' [w2 E2]].
    rewrite E2 in H. discriminate.
  - inversion H. subst. eapply playTurns_fail; eassumption.
Qed.

Lemma playRound_Ready (st st' : State) (w w' : World Trace) :
  Ready policies st w ->
  playRound policies st w = (w', Ok st') ->
  Ready policies st' w'.
Proof.
  intros [Hs [Htrick Hpol]] H.
  split; [eapply playRound_Seated; eassumption|]. split.
  - unfold playRound in H. unfold bind at 1 in H.
    destruct (forOf (range 4) (playTurn policies) st w) as [w1 [s1|e1]];
      [|discriminate].
    destruct (resolveTrick_ok_inv s1 st' w1 w' H) as [card [ci [wp [Hc [Hi Hn]]]]].
    destruct (resolveTrick_total s1 card ci wp w1 Hc Hi Hn) as [ps' [n [E _]]].
    rewrite E in H. inversion H. reflexivity.
  - apply (keeps_policies (players st)); [|exact Hpol].
    eapply playRound_keeps; eassumption.
Qed.

Lemma playRounds_fail (xs : list nat) :
  forall (st : State) (w w' : World Trace) (e : error),
    Ready policies st w ->
    forOf xs (fun state _ => playRound policies state) st w = (w', Err e) ->
    e = NoPlay /\
    exists st1 p f new,
      nth_error policies (policy p) = Some f /\
      f st1 p (validPlays st1 (hand p)) = [] /\
      log w' = log w ++ new ++ [PolicyCall st1 p (validPlays st1 (hand p))].
Proof.
  induction xs as [|x xs IH]; intros st w w' e Hr E; simpl in E; [discriminate|].
  unfold bind in E. destruct (playRound policies st w) as [w0 [s0|e0]] eqn:E0.
  - destruct (IH s0 w0 w' e (playRound_Ready st s0 w w0 Hr E0) E)
      as [-> [st1 [p [f [new [Hf [Hnil Hlog]]]]]]].
    split; [reflexivity|].
    destruct (playRound_emits policies st w) as [new0 [Hl0 _]].
    rewrite E0 in Hl0. cbn [fst] in Hl0.
    exists st1, p, f, (new0 ++ new). split; [exact Hf|]. split; [exact Hnil|].
    rewrite Hlog, Hl0, <- !app_assoc. reflexivity.
  - inversion E. subst. eapply playRound_fails; eassumption.
Qed.

End RoundsKeep.

(* ================================================================= *)
(** * Further properties of the rounds and of the game *)

(** X15. Over any number of rounds that go through, whatever the policies
    answer, every seat keeps its policy and its recorder, its score does
    not decrease, its hand gains no card, and none of its flags is
    cleared. *)
Theorem rounds_keep_seats {Trace : Type} (policies : list (Policy Trace))
        (xs : list nat) (st st' : State) (w w' : World Trace) :
  Seated st w ->
  forOf xs (fun state _ => playRound policies state) st w = (w', Ok st') ->
  Forall2 seatKeeps (players st) (players st').
Proof.
  revert st w. induction xs as [|x xs IH]; intros st w Hs E; simpl in E.
  - inversion E. subst. apply Forall2_same. exact seatKeeps_refl.
  - unfold bind in E. destruct (playRound policies st w) as [w0 [s0|e0]] eqn:E0;
      [|discriminate].
    apply (Forall2_compose seatKeeps _ (players s0) _ seatKeeps_trans).
    + exact (playRound_keeps policies st s0 w w0 Hs E0).
    + apply (IH s0 w0); [|exact E].
      exact (playRound_Seated policies st s0 w w0 Hs E0).
Qed.

(** X16. A round begun at a table of four with an empty trick, every seat
    with a policy, fails in one way only: a policy called returned no
    candidate. The error is then that no play was determined, and the call
    of that policy is the last event of the log; the errors of the
    resolution cannot occur. *)
Theorem playRound_fails_only_without_play {Trace : Type}
        (policies : list (Policy Trace)) (st : State) (w w' : World Trace)
        (e : error) :
  Ready policies st w ->
  playRound policies st w = (w', Err e) ->
  e = NoPlay /\
  exists st1 p f new,
    nth_error policies (policy p) = Some f /\
    f st1 p (validPlays st1 (hand p)) = [] /\
    log w' = log w ++ new ++ [PolicyCall st1 p (validPlays st1 (hand p))].
Proof. intros Hready H. exact (playRound_fails policies st w w' e Hready H). Qed.

(** X17. With draws in [0, 1) and four policies, a game fails in one way
    only: a policy called in one of the rounds returned no candidate; the
    call of that policy is then the last event of the log. *)
Theorem playGame_fails_only_without_play {Trace : Type}
        (policies : list (Policy Trace)) (simplified : bool) (random : nat -> Q)
        (fuel : nat) (w w' : World Trace) (e : error) :
  unitRange random ->
  length policies = 4%nat ->
  (52 <= fuel)%nat ->
  playGame fuel policies simplified random w = Some (w', Err e) ->
  e = NoPlay /\
  exists st1 p f new,
    nth_error policies (policy p) = Some f /\
    f st1 p (validPlays st1 (hand p)) = [] /\
    log w' = log w ++ new ++ [PolicyCall st1 p (validPlays st1 (hand p))].
Proof.
  intros Hr Hpol Hfuel H. unfold playGame in H.
  destruct (playGameState fuel policies simplified random w)
    as [[w1 [s1|e1]]|] eqn:Eg; [| |discriminate].
  - rewrite mapM_terminate in H. discriminate.
  - inversion H. subst. clear H. unfold playGameState in Eg.
    destruct (initialState_in_range policies simplified random fuel w Hr Hpol Hfuel)
      as [cs [seat [_ [_ [Hseat [_ Ei]]]]]].
    pose proof (initialState_Seated policies simplified random fuel w _ _ Hpol Ei)
      as Hs.
    rewrite Ei in Eg. inversion Eg as [Eg']. clear Eg.
    apply (playRounds_fail policies (range 13) _ _ _ _) in Eg'.
    + exact Eg'.
    + split; [exact Hs|]. split; [reflexivity|].
      intros p Hp. rewrite Hpol. cbn [players map In] in Hp.
      destruct Hp as [<-|[<-|[<-|[<-|[]]]]]; cbn [policy newPlayer]; lia.
Qed.

Lemma example_last_round_Seated : Seated example_last_round (mkWorld (@nil (Event unit)) 4).
Proof.
  split; [reflexivity|]. split.
  - repeat constructor; simpl; intuition discriminate.
  - split; intros p Hp; cbn [players example_last_round In] in Hp;
      destruct Hp as [<-|[<-|[<-|[<-|[]]]]]; cbn [ref nextRef playsOutOfSuit length];
      lia.
Qed.

(** The last round of a game, four cards played. *)
Lemma rounds_keep_seats_witness :
  exists st' w',
    forOf [0%nat] (fun state _ => playRound four_offerAll state) example_last_round
          (mkWorld [] 4) = (w', Ok st') /\
    Forall2 seatKeeps (players example_last_round) (players st').
Proof.
  destruct (forOf [0%nat] (fun state _ => playRound four_offerAll state)
                  example_last_round (mkWorld [] 4)) as [w' [st'|e]] eqn:E;
    [|vm_compute in E; discriminate E].
  exists st', w'. split; [reflexivity|].
  apply (rounds_keep_seats four_offerAll [0%nat] example_last_round st'
           (mkWorld [] 4) w').
  - exact example_last_round_Seated.
  - exact E.
Defined.

(** The last round of a game, no policy answering. *)
Lemma playRound_fails_only_without_play_witness :
  exists w' e,
    playRound four_silent example_last_round (mkWorld [] 4) = (w', Err e) /\
    e = NoPlay /\
    exists st1 p f new,
      nth_error four_silent (policy p) = Some f /\
      f st1 p (validPlays st1 (hand p)) = [] /\
      log w' = [] ++ new ++ [PolicyCall st1 p (validPlays st1 (hand p))].
Proof.
  destruct (playRound four_silent example_last_round (mkWorld [] 4))
    as [w' [st'|e]] eqn:E; [vm_compute in E; discriminate E|].
  exists w', e. split; [reflexivity|].
  apply (playRound_fails_only_without_play four_silent example_last_round
           (mkWorld [] 4) w' e).
  - split; [exact example_last_round_Seated|]. split; [reflexivity|].
    intros p Hp. cbn [players example_last_round In] in Hp.
    destruct Hp as [<-|[<-|[<-|[<-|[]]]]]; cbn [policy four_silent length]; lia.
  - exact E.
Defined.

(** A game of four policies that do not answer. *)
Lemma playGame_fails_only_without_play_witness :
  exists w' e,
    playGame 52 four_silent false exampleRandom emptyWorld = Some (w', Err e) /\
    e = NoPlay /\
    exists st1 p f new,
      nth_error four_silent (policy p) = Some f /\
      f st1 p (validPlays st1 (hand p)) = [] /\
      log w' = log emptyWorld ++ new ++ [PolicyCall st1 p (validPlays st1 (hand p))].
Proof.
  destruct (playGame 52 four_silent false exampleRandom emptyWorld)
    as [[w' [hs|e]]|] eqn:E;
    [vm_compute in E; discriminate E | | vm_compute in E; discriminate E].
  exists w', e. split; [reflexivity|].
  apply (playGame_fails_only_without_play four_silent false exampleRandom 52
           emptyWorld w' e).
  - exact exampleRandom_unitRange.
  - reflexivity.
  - lia.
  - exact E.
Defined.

(* ================================================================= *)
(** * Who plays which card *)

Lemma recordedPlays_app {Trace : Type} (l l' : list (Event Trace)) :
  recordedPlays (l ++ l') = recordedPlays l ++ recordedPlays l'.
Proof. unfold recordedPlays. apply flat_map_app. Qed.

Lemma playsOf_app {Trace : Type} (s : nat) (l l' : list (Event Trace)) :
  playsOf s (l ++ l') = playsOf s l ++ playsOf s l'.
Proof. unfold playsOf. rewrite recordedPlays_app, filter_app, map_app. reflexivity. Qed.

Lemma recordedPlays_rewards {Trace : Type} (simp : bool) (points : Z) (wp : Player)
      (ps : list Player) :
  recordedPlays (map (@rewardEvent Trace simp points wp) ps) = [].
Proof. induction ps as [|p ps IH]; [reflexivity | exact IH]. Qed.

Lemma seat_policy (st : State) (s : nat) (p : Player) :
  seatsInOrder st -> nth_error (players st) s = Some p -> policy p = s.
Proof.
  unfold seatsInOrder. intros H Hp.
  assert (E : nth_error (map policy (players st)) s = Some (policy p))
    by (rewrite nth_error_map, Hp; reflexivity).
  rewrite H in E.
  destruct s as [|[|[|[|s]]]]; simpl in E; inversion E; try reflexivity.
  destruct s; discriminate.
Qed.

Lemma keeps_map_policy (ps ps' : list Player) :
  Forall2 seatKeeps ps ps' -> map policy ps' = map policy ps.
Proof.
  induction 1 as [|p p' ps ps' [_ [_ [_ [_ [E _]]]]] _ IH]; [reflexivity|].
  simpl. rewrite E, IH. reflexivity.
Qed.

Lemma indexOf_nth (c : Card) (cs : list Card) :
  forall i, indexOf c cs = Some i ->
    nth_error cs i = Some c /\
    forall j x, (j < i)%nat -> nth_error cs j = Some x -> x <> c.
Proof.
  induction cs as [|y cs IH]; intros i H; simpl in H; [discriminate|].
  destruct (Card_eqb y c) eqn:E.
  - inversion H. subst i. apply Card_eqb_eq in E. subst y.
    split; [reflexivity|]. intros j x Hj. lia.
  - destruct (indexOf c cs) as [i'|]; [|discriminate]. inversion H. subst i.
    destruct (IH i' eq_refl) as [Hn Hfirst]. split; [exact Hn|].
    intros [|j] x Hj Hx; simpl in Hx.
    + inversion Hx. subst x. intro Ec. subst y. rewrite Card_eqb_refl in E.
      discriminate.
    + apply (Hfirst j x); [lia | exact Hx].
Qed.

Section Plays.
Context {Trace : Type}.
Variable policies : list (Policy Trace).

Lemma playTurn_seatsInOrder (st st' : State) (i : nat) (w w' : World Trace) :
  NoDup (map ref (players st)) -> seatsInOrder st ->
  playTurn policies st i w = (w', Ok st') -> seatsInOrder st'.
Proof.
  intros Hnd Hs H. unfold seatsInOrder.
  rewrite (keeps_map_policy _ _ (playTurn_keeps policies st st' i w w' Hnd H)).
  exact Hs.
Qed.

Lemma playRound_seatsInOrder (st st' : State) (w w' : World Trace) :
  Seated st w -> seatsInOrder st ->
  playRound policies st w = (w', Ok st') -> seatsInOrder st'.
Proof.
  intros Hnd Hs H. unfold seatsInOrder.
  rewrite (keeps_map_policy _ _ (playRound_keeps policies st st' w w' Hnd H)).
  exact Hs.
Qed.

(** What a turn adds to the trick and to the log. *)
Lemma playTurn_records (st st' : State) (i : nat) (w w' : World Trace) :
  NoDup (map ref (players st)) -> seatsInOrder st ->
  playTurn policies st i w = (w', Ok st') ->
  exists c,
    cards (trick st') = cards (trick st) ++ [c] /\
    tsuit (trick st') = match tsuit (trick st) with
                        | None => Some (suit c)
                        | Some s => Some s
                        end /\
    trickLeader st' = trickLeader st /\
    simplified st' = simplified st /\
    map score (players st') = map score (players st) /\
    exists new,
      log w' = log w ++ new /\
      recordedPlays new = [(((trickLeader st + i) mod 4)%nat, c)].
Proof.
  intros Hnd Hs H.
  destruct (playTurn_detail policies st st' i w w' Hnd H)
    as [player [f [play [Hp [_ [_ [-> ->]]]]]]].
  exists (action play). cbn [cards trick tsuit trickLeader simplified players log].
  repeat (split; [reflexivity|]). split.
  - rewrite map_update. cbn [afterPlay score]. apply update_same.
    rewrite nth_error_map, Hp. reflexivity.
  - eexists. split; [reflexivity|]. cbn [recordedPlays flat_map app].
    rewrite (seat_policy st _ player Hs Hp). reflexivity.
Qed.

(** The four turns of a round, then its resolution. *)
Lemma playRound_detail (st st' : State) (w w' : World Trace) :
  Seated st w -> seatsInOrder st -> trick st = mkTrick None [] ->
  playRound policies st w = (w', Ok st') ->
  exists s4 w4 c0 c1 c2 c3 new,
    resolveTrick s4 w4 = (w', Ok st') /\
    Seated s4 w4 /\
    trick s4 = mkTrick (Some (suit c0)) [c0; c1; c2; c3] /\
    trickLeader s4 = trickLeader st /\
    simplified s4 = simplified st /\
    map score (players s4) = map score (players st) /\
    log w4 = log w ++ new /\
    recordedPlays new
    = [(((trickLeader st + 0) mod 4)%nat, c0); (((trickLeader st + 1) mod 4)%nat, c1);
       (((trickLeader st + 2) mod 4)%nat, c2); (((trickLeader st + 3) mod 4)%nat, c3)].
Proof.
  intros Hs Ho Ht H. unfold playRound in H. unfold bind at 1 in H.
  destruct (forOf (range 4) (playTurn policies) st w) as [w4 [s4|e]] eqn:E;
    [|discriminate].
  cbn [range seq forOf] in E.
  unfold bind at 1 in E.
  destruct (playTurn policies st 0 w) as [w1 [s1|e1]] eqn:E1; [|discriminate].
  unfold bind at 1 in E.
  destruct (playTurn policies s1 1 w1) as [w2 [s2|e2]] eqn:E2; [|discriminate].
  unfold bind at 1 in E.
  destruct (playTurn policies s2 2 w2) as [w3 [s3|e3]] eqn:E3; [|discriminate].
  unfold bind at 1 in E.
  destruct (playTurn policies s3 3 w3) as [w4' [s4'|e4]] eqn:E4; [|discriminate].
  inversion E. subst w4' s4'. clear E.
  pose proof (playTurn_Seated policies st s1 0 w w1 Hs E1) as Hs1.
  pose proof (playTurn_Seated policies s1 s2 1 w1 w2 Hs1 E2) as Hs2.
  pose proof (playTurn_Seated policies s2 s3 2 w2 w3 Hs2 E3) as Hs3.
  pose proof (playTurn_Seated policies s3 s4 3 w3 w4 Hs3 E4) as Hs4.
  assert (Hn0 : NoDup (map ref (players st))) by apply Hs.
  assert (Hn1 : NoDup (map ref (players s1))) by apply Hs1.
  assert (Hn2 : NoDup (map ref (players s2))) by apply Hs2.
  assert (Hn3 : NoDup (map ref (players s3))) by apply Hs3.
  pose proof (playTurn_seatsInOrder st s1 0 w w1 Hn0 Ho E1) as Ho1.
  pose proof (playTurn_seatsInOrder s1 s2 1 w1 w2 Hn1 Ho1 E2) as Ho2.
  pose proof (playTurn_seatsInOrder s2 s3 2 w2 w3 Hn2 Ho2 E3) as Ho3.
  destruct (playTurn_records st s1 0 w w1 Hn0 Ho E1)
    as [c0 [C1 [T1 [L1 [S1 [P1 [n1 [G1 R1]]]]]]]].
  destruct (playTurn_records s1 s2 1 w1 w2 Hn1 Ho1 E2)
    as [c1 [C2 [T2 [L2 [S2 [P2 [n2 [G2 R2]]]]]]]].
  destruct (playTurn_records s2 s3 2 w2 w3 Hn2 Ho2 E3)
    as [c2 [C3 [T3 [L3 [S3 [P3 [n3 [G3 R3]]]]]]]].
  destruct (playTurn_records s3 s4 3 w3 w4 Hn3 Ho3 E4)
    as [c3 [C4 [T4 [L4 [S4 [P4 [n4 [G4 R4]]]]]]]].
  rewrite Ht in C1, T1. cbn [cards tsuit app] in C1, T1.
  rewrite C1 in C2. rewrite T1 in T2. cbn [app] in C2.
  rewrite C2 in C3. rewrite T2 in T3. cbn [app] in C3.
  rewrite C3 in C4. rewrite T3 in T4. cbn [app] in C4.
  exists s4, w4, c0, c1, c2, c3, (n1 ++ n2 ++ n3 ++ n4).
  split; [exact H|]. split; [exact Hs4|]. split.
  - destruct (trick s4) as [ts cs]. cbn [cards tsuit] in C4, T4. subst. reflexivity.
  - split; [congruence|]. split; [congruence|]. split; [congruence|]. split.
    + rewrite G4, G3, G2, G1, <- !app_assoc. reflexivity.
    + rewrite !recordedPlays_app, R1, R2, R3, R4, L3, L2, L1. reflexivity.
Qed.

(** A turn keeps the account of the hands, when the policy answers an
    offered card. *)
Lemma playTurn_HandsFrom (hands0 : nat -> list Card) (base : list (Event Trace))
      (st st' : State) (i : nat) (w w' : World Trace) :
  NoDup (map ref (players st)) -> seatsInOrder st ->
  (forall f, In f policies -> answersOffered f) ->
  HandsFrom hands0 base st w ->
  playTurn policies st i w = (w', Ok st') ->
  HandsFrom hands0 base st' w'.
Proof.
  intros Hnd Ho Hpol [new [Hlog Hh]] H.
  destruct (playTurn_detail policies st st' i w w' Hnd H)
    as [player [f [play [Hp [Hf [Hsel [-> ->]]]]]]].
  assert (Hin : In (action play) (hand player)).
  { apply (validPlays_incl st).
    apply (Hpol f (nth_error_In _ _ Hf) st player). apply selectPlay_In. exact Hsel. }
  eexists. split.
  - cbn [log]. rewrite Hlog, <- app_assoc. reflexivity.
  - intros s p Hs. cbn [players] in Hs. rewrite playsOf_app.
    destruct (Nat.eq_dec s ((trickLeader st + i) mod 4)) as [->|Hneq].
    + rewrite nth_error_update_eq in Hs
        by (apply nth_error_Some; rewrite Hp; discriminate).
      inversion Hs. subst p. clear Hs. cbn [afterPlay hand].
      destruct (Hh _ player Hp) as [Hnodup Hperm].
      split; [apply NoDup_filter; exact Hnodup|].
      unfold playsOf at 2. cbn [recordedPlays flat_map app filter fst].
      rewrite (seat_policy st _ player Ho Hp), Nat.eqb_refl. cbn [map snd].
      rewrite <- app_assoc. cbn [app].
      eapply perm_trans; [|exact Hperm]. apply Permutation_app_head.
      apply Permutation_sym. apply filter_remove_perm; assumption.
    + rewrite nth_error_update_neq in Hs
        by (intro E; apply Hneq; symmetry; exact E).
      destruct (Hh s p Hs) as [Hnodup Hperm]. split; [exact Hnodup|].
      unfold playsOf at 2. cbn [recordedPlays flat_map app filter fst].
      rewrite (seat_policy st _ player Ho Hp).
      assert (E : ((trickLeader st + i) mod 4 =? s)%nat = false)
        by (apply Nat.eqb_neq; intro E; apply Hneq; symmetry; exact E).
      rewrite E. cbn [map]. rewrite app_nil_r. exact Hperm.
Qed.

Lemma resolveTrick_HandsFrom (hands0 : nat -> list Card) (base : list (Event Trace))
      (st st' : State) (w w' : World Trace) :
  NoDup (map ref (players st)) ->
  HandsFrom hands0 base st w ->
  resolveTrick st w = (w', Ok st') ->
  HandsFrom hands0 base st' w'.
Proof.
  intros Hnd [new [Hlog Hh]] H.
  destruct (resolveTrick_seats st st' w w' Hnd H)
    as [card [ci [_ [_ [_ [_ [_ [_ [Hlen [Hseats [wp Hl]]]]]]]]]]].
  eexists. split.
  - rewrite Hl, Hlog, <- app_assoc. reflexivity.
  - intros s p' Hs.
    destruct (nth_error (players st) s) as [p|] eqn:Ep.
    + destruct (Hseats s p Ep) as [p'' [Hs' [Hhand _]]].
      rewrite Hs in Hs'. inversion Hs'. subst p''. rewrite Hhand.
      rewrite playsOf_app. unfold playsOf at 2. rewrite recordedPlays_rewards.
      cbn [filter map]. rewrite app_nil_r. apply Hh. exact Ep.
    + apply nth_error_None in Ep.
      assert (s < length (players st'))%nat
        by (apply nth_error_Some; rewrite Hs; discriminate).
      lia.
Qed.

Lemma playTurns_HandsFrom (hands0 : nat -> list Card) (base : list (Event Trace))
      (xs : list nat) :
  (forall f, In f policies -> answersOffered f) ->
  forall (st st' : State) (w w' : World Trace),
    Seated st w -> seatsInOrder st -> HandsFrom hands0 base st w ->
    forOf xs (playTurn policies) st w = (w', Ok st') ->
    HandsFrom hands0 base st' w'.
Proof.
  intro Hpol. induction xs as [|x xs IH]; intros st st' w w' Hs Ho Hh E; simpl in E.
  - inversion E. subst. exact Hh.
  - unfold bind in E. destruct (playTurn policies st x w) as [w0 [s0|e0]] eqn:E0;
      [|discriminate].
    assert (Hnd : NoDup (map ref (players st))) by apply Hs.
    apply (IH s0 st' w0 w'); [| | |exact E].
    + eapply playTurn_Seated; eassumption.
    + eapply playTurn_seatsInOrder; eassumption.
    + eapply playTurn_HandsFrom; eassumption.
Qed.

Lemma playRound_HandsFrom (hands0 : nat -> list Card) (base : list (Event Trace))
      (st st' : State) (w w' : World Trace) :
  (forall f, In f policies -> answersOffered f) ->
  Seated st w -> seatsInOrder st -> HandsFrom hands0 base st w ->
  playRound policies st w = (w', Ok st') ->
  HandsFrom hands0 base st' w'.
Proof.
  intros Hpol Hs Ho Hh H. unfold playRound in H. unfold bind at 1 in H.
  destruct (forOf (range 4) (playTurn policies) st w) as [w1 [s1|e]] eqn:E;
    [|discriminate].
  destruct (playTurns_keep policies (range 4) st s1 w w1 Hs E) as [Hs1 _].
  apply (resolveTrick_HandsFrom hands0 base s1 st' w1 w');
    [apply Hs1 | | exact H].
  exact (playTurns_HandsFrom hands0 base (range 4) Hpol st s1 w w1 Hs Ho Hh E).
Qed.

Lemma playRounds_HandsFrom (hands0 : nat -> list Card) (base : list (Event Trace))
      (xs : list nat) :
  (forall f, In f policies -> answersOffered f) ->
  forall (st st' : State) (w w' : World Trace),
    Seated st w -> seatsInOrder st -> HandsFrom hands0 base st w ->
    forOf xs (fun state _ => playRound policies state) st w = (w', Ok st') ->
    HandsFrom hands0 base st' w'.
Proof.
  intro Hpol. induction xs as [|x xs IH]; intros st st' w w' Hs Ho Hh E; simpl in E.
  - inversion E. subst. exact Hh.
  - unfold bind in E. destruct (playRound policies st w) as [w0 [s0|e0]] eqn:E0;
      [|discriminate].
    apply (IH s0 st' w0 w'); [| | |exact E].
    + eapply playRound_Seated; eassumption.
    + eapply playRound_seatsInOrder; eassumption.
    + eapply playRound_HandsFrom; eassumption.
Qed.

End Plays.

(* ================================================================= *)
(** * The trick and the game, seat by seat *)

(** X18. A round at the table of a game, begun with an empty trick, that
    goes through: the four seats play in turn from the leader, one card
    each; the suit of the trick is that of the first card; the seat that
    leads next is the seat that played the winning card (the first seat to
    have played a card equal to it), and its score, and no other, grows by
    the points of the four cards. *)
Theorem trick_goes_to_winning_play {Trace : Type} (policies : list (Policy Trace))
        (st st' : State) (w w' : World Trace) :
  Seated st w ->
  seatsInOrder st ->
  trick st = mkTrick None [] ->
  playRound policies st w = (w', Ok st') ->
  exists new c0 c1 c2 c3 card k,
    log w' = log w ++ new /\
    recordedPlays new
    = [(((trickLeader st + 0) mod 4)%nat, c0); (((trickLeader st + 1) mod 4)%nat, c1);
       (((trickLeader st + 2) mod 4)%nat, c2); (((trickLeader st + 3) mod 4)%nat, c3)] /\
    trickWinner (mkTrick (Some (suit c0)) [c0; c1; c2; c3]) = Some card /\
    nth_error (recordedPlays new) k = Some (trickLeader st', card) /\
    (forall j x, (j < k)%nat -> nth_error [c0; c1; c2; c3] j = Some x -> x <> card) /\
    forall s p, nth_error (players st) s = Some p ->
      exists p',
        nth_error (players st') s = Some p' /\
        score p' = score p + (if (s =? trickLeader st')%nat
                              then handPoints (simplified st) [c0; c1; c2; c3]
                              else 0).
Proof.
  intros Hs Ho Ht H.
  destruct (playRound_detail policies st st' w w' Hs Ho Ht H)
    as [s4 [w4 [c0 [c1 [c2 [c3 [new [Hres [Hs4 [Htr [HL [HS [HP [Hlog Hrec]]]]]]]]]]]]]].
  assert (Hnd4 : NoDup (map ref (players s4))) by apply Hs4.
  destruct (resolveTrick_seats s4 st' w4 w' Hnd4 Hres)
    as [card [ci [Hw [Hi [Hlead [_ [_ [_ [_ [Hseats [wp Hl']]]]]]]]]]].
  rewrite Htr in Hw, Hi. cbn [cards] in Hi.
  destruct (indexOf_nth card [c0; c1; c2; c3] ci Hi) as [Hn Hfirst].
  rewrite HL in Hlead.
  exists (new ++ map (rewardEvent (simplified s4)
                        (trickPoints (trick s4) (simplified s4)) wp) (players s4)),
    c0, c1, c2, c3, card, ci.
  assert (Hrec' : recordedPlays
                    (new ++ map (@rewardEvent Trace (simplified s4)
                                   (trickPoints (trick s4) (simplified s4)) wp)
                                (players s4))
                  = [(((trickLeader st + 0) mod 4)%nat, c0);
                     (((trickLeader st + 1) mod 4)%nat, c1);
                     (((trickLeader st + 2) mod 4)%nat, c2);
                     (((trickLeader st + 3) mod 4)%nat, c3)]).
  { rewrite recordedPlays_app, recordedPlays_rewards, app_nil_r. exact Hrec. }
  split; [rewrite Hl', Hlog, app_assoc; reflexivity|].
  split; [exact Hrec'|]. split; [exact Hw|]. split; [|split; [exact Hfirst|]].
  - rewrite Hrec', Hlead.
    destruct ci as [|[|[|[|ci]]]]; cbn [nth_error] in Hn |- *;
      try (inversion Hn; subst card; rewrite (Nat.add_comm _ (trickLeader st));
           reflexivity).
    destruct ci; discriminate Hn.
  - intros s p Hp.
    assert (E : nth_error (map score (players s4)) s = Some (score p))
      by (rewrite HP, nth_error_map, Hp; reflexivity).
    rewrite nth_error_map in E.
    destruct (nth_error (players s4) s) as [p4|] eqn:Ep4; [|discriminate E].
    cbn [option_map] in E. inversion E as [Esc]. clear E.
    destruct (Hseats s p4 Ep4) as [p' [Hp' [_ [_ [_ [_ Hscore]]]]]].
    exists p'. split; [exact Hp'|].
    rewrite Hscore, Esc, Hlead, HL, trickPoints_handPoints, Htr, HS. reflexivity.
Qed.

(** X19. With draws in [0, 1) and four policies that choose among the
    offered plays, the cards a seat plays in the game are the 13 cards it
    was dealt, each played once. *)
Theorem each_seat_plays_its_deal {Trace : Type} (policies : list (Policy Trace))
        (simplified : bool) (random : nat -> Q) (fuel : nat) (w : World Trace) :
  unitRange random ->
  length policies = 4%nat ->
  (forall f, In f policies -> choosesOffered f) ->
  (52 <= fuel)%nat ->
  exists cs w' histories new,
    shuffleDeck fuel (mkJsArray (map Some freshDeck) []) random
    = Some (mkJsArray (map Some cs) []) /\
    playGame fuel policies simplified random w = Some (w', Ok histories) /\
    log w' = log w ++ new /\
    forall s, (s < 4)%nat ->
      Permutation (playsOf s new) (dealtHand cs s) /\
      NoDup (playsOf s new) /\
      length (playsOf s new) = 13%nat.
Proof.
  intros Hr Hpol Hch Hfuel.
  destruct (initialState_in_range policies simplified random fuel w Hr Hpol Hfuel)
    as [cs [seat [Hshuffle [Hperm [Hseat [_ Einit]]]]]].
  assert (Hlen : length cs = 52%nat)
    by (rewrite (Permutation_length Hperm); apply freshDeck_length).
  assert (Hnd : NoDup cs)
    by (eapply Permutation_NoDup;
        [apply Permutation_sym; exact Hperm | apply freshDeck_NoDup]).
  pose proof (initial_RoundInv cs seat (nextRef w) simplified (log w) Hperm Hseat) as H0.
  destruct (playRounds_all policies Hpol Hch simplified (deckPoints simplified) 13 0 _ _ H0)
    as [st [w' [new0 [Eloop [[T [_ Hhands]] _]]]]].
  pose proof (initialState_Seated policies simplified random fuel w _ _ Hpol Einit)
    as Hs0.
  assert (Hans : forall f, In f policies -> answersOffered f).
  { intros f Hf st1 p plays. apply (Hch f Hf st1 p plays). }
  assert (Hh0 : HandsFrom (dealtHand cs) (log w)
                  (mkState (map (newPlayer cs (nextRef w)) [0; 1; 2; 3]%nat)
                           (mkTrick None []) false simplified seat)
                  (mkWorld (log w) (4 + nextRef w))).
  { exists []. split; [cbn [log]; rewrite app_nil_r; reflexivity|].
    intros s p Hp. cbn [players] in Hp.
    assert (Hs4 : (s < 4)%nat).
    { assert (s < length (map (newPlayer cs (nextRef w)) [0; 1; 2; 3]%nat))%nat
        by (apply nth_error_Some; rewrite Hp; discriminate).
      simpl in H. exact H. }
    assert (Ep : p = newPlayer cs (nextRef w) s).
    { clear -Hp Hs4. destruct s as [|[|[|[|s]]]]; try lia;
        simpl in Hp; inversion Hp; reflexivity. }
    subst p. cbn [hand newPlayer]. split.
    - apply dealtHand_NoDup; assumption.
    - reflexivity. }
  destruct (playRounds_HandsFrom policies (dealtHand cs) (log w) (seq 0 13) Hans
              _ st _ w' Hs0 eq_refl Hh0 Eloop) as [new [Hlog Hh]].
  exists cs, w'. eexists. exists new.
  split; [exact Hshuffle|]. split.
  - unfold playGame, playGameState. rewrite Einit. unfold range.
    rewrite Eloop, mapM_terminate. reflexivity.
  - split; [exact Hlog|]. intros s Hs4.
    destruct T as [T4 _ _ _ _ _ _ _].
    destruct (nth_error_four (players st) s T4 Hs4) as [p Hp].
    destruct (Hh s p Hp) as [_ Hpm].
    assert (Hempty : hand p = []).
    { apply length_zero_iff_nil. apply Hhands. eapply nth_error_In. exact Hp. }
    rewrite Hempty, app_nil_r in Hpm.
    split; [exact Hpm|]. split.
    + eapply Permutation_NoDup; [apply Permutation_sym; exact Hpm|].
      apply dealtHand_NoDup; assumption.
    + rewrite (Permutation_length Hpm). apply dealtHand_length; assumption.
Qed.

Lemma example_last_round_seats : seatsInOrder example_last_round.
Proof. reflexivity. Qed.

(** The last round of a game, led by seat 1 with the four of spades:
    seat 2 follows with the queen of spades and takes the trick. *)
Lemma trick_goes_to_winning_play_witness :
  exists st' w' new c0 c1 c2 c3 card k,
    playRound four_offerAll example_last_round (mkWorld [] 4) = (w', Ok st') /\
    log w' = [] ++ new /\
    recordedPlays new = [(1%nat, c0); (2%nat, c1); (3%nat, c2); (0%nat, c3)] /\
    trickWinner (mkTrick (Some (suit c0)) [c0; c1; c2; c3]) = Some card /\
    nth_error (recordedPlays new) k = Some (trickLeader st', card) /\
    (forall j x, (j < k)%nat -> nth_error [c0; c1; c2; c3] j = Some x -> x <> card).
Proof.
  destruct (playRound four_offerAll example_last_round (mkWorld [] 4))
    as [w' [st'|e]] eqn:E; [|vm_compute in E; discriminate E].
  destruct (trick_goes_to_winning_play four_offerAll example_last_round st'
              (mkWorld [] 4) w' example_last_round_Seated example_last_round_seats
              eq_refl E)
    as [new [c0 [c1 [c2 [c3 [card [k [H1 [H2 [H3 [H4 [H5 _]]]]]]]]]]]].
  exists st', w', new, c0, c1, c2, c3, card, k.
  split; [reflexivity|]. split; [exact H1|]. split; [exact H2|].
  split; [exact H3|]. split; [exact H4 | exact H5].
Defined.

(** A game of four [offerAll] players on [exampleRandom]. *)
Lemma each_seat_plays_its_deal_witness :
  exists cs w' histories new,
    shuffleDeck 52 (mkJsArray (map Some freshDeck) []) exampleRandom
    = Some (mkJsArray (map Some cs) []) /\
    playGame 52 four_offerAll false exampleRandom emptyWorld
    = Some (w', Ok histories) /\
    log w' = log emptyWorld ++ new /\
    forall s, (s < 4)%nat ->
      Permutation (playsOf s new) (dealtHand cs s) /\
      NoDup (playsOf s new) /\
      length (playsOf s new) = 13%nat.
Proof.
  apply (each_seat_plays_its_deal four_offerAll false exampleRandom 52 emptyWorld).
  - exact exampleRandom_unitRange.
  - reflexivity.
  - exact offerAll_four_choose.
  - lia.
Defined.

(* ================================================================= *)
(** * What the policies see *)


Section Flags.
Context {Trace : Type}.
Variable policies : list (Policy Trace).
Hypothesis policies_answer : forall f, In f policies -> answersOffered f.








End Flags.



(* ================================================================= *)
(** * When hearts are broken *)

Lemma pointPlayed_app {Trace : Type} (simp : bool) (l l' : list (Event Trace)) :
  pointPlayed simp (l ++ l') = pointPlayed simp l || pointPlayed simp l'.
Proof. unfold pointPlayed. rewrite recordedPlays_app. apply existsb_app. Qed.

Section Hearts.
Context {Trace : Type}.
Variable policies : list (Policy Trace).

Lemma playTurn_hearts (st st' : State) (i : nat) (w w' : World Trace) :
  NoDup (map ref (players st)) ->
  playTurn policies st i w = (w', Ok st') ->
  exists new,
    log w' = log w ++ new /\
    simplified st' = simplified st /\
    heartsBroken st' = heartsBroken st || pointPlayed (simplified st) new.
Proof.
  intros Hnd H.
  destruct (playTurn_detail policies st st' i w w' Hnd H)
    as [player [f [play [_ [_ [_ [-> ->]]]]]]].
  eexists. split; [reflexivity|]. split; [reflexivity|].
  cbn [heartsBroken]. unfold pointPlayed. cbn [recordedPlays flat_map app existsb snd].
  rewrite orb_false_r. reflexivity.
Qed.

Lemma resolveTrick_hearts (st st' : State) (w w' : World Trace) :
  NoDup (map ref (players st)) ->
  resolveTrick st w = (w', Ok st') ->
  exists new,
    log w' = log w ++ new /\
    simplified st' = simplified st /\
    heartsBroken st' = heartsBroken st || pointPlayed (simplified st) new.
Proof.
  intros Hnd H.
  destruct (resolveTrick_seats st st' w w' Hnd H)
    as [card [ci [_ [_ [_ [_ [Hhb [Hsimp [_ [_ [wp Hl]]]]]]]]]]].
  eexists. split; [exact Hl|]. split; [exact Hsimp|].
  unfold pointPlayed. rewrite recordedPlays_rewards. cbn [existsb].
  rewrite orb_false_r. exact Hhb.
Qed.

Lemma playTurns_hearts (xs : list nat) :
  forall (st st' : State) (w w' : World Trace),
    Seated st w ->
    forOf xs (playTurn policies) st w = (w', Ok st') ->
    exists new,
      log w' = log w ++ new /\
      simplified st' = simplified st /\
      heartsBroken st' = heartsBroken st || pointPlayed (simplified st) new.
Proof.
  induction xs as [|x xs IH]; intros st st' w w' Hs E; simpl in E.
  - inversion E. subst. exists []. split; [rewrite app_nil_r; reflexivity|].
    split; [reflexivity|]. unfold pointPlayed. cbn [recordedPlays flat_map existsb].
    rewrite orb_false_r. reflexivity.
  - unfold bind in E. destruct (playTurn policies st x w) as [w0 [s0|e0]] eqn:E0;
      [|discriminate].
    destruct (playTurn_hearts st s0 x w w0 ltac:(apply Hs) E0) as [n0 [L0 [S0 B0]]].
    destruct (IH s0 st' w0 w' (playTurn_Seated policies st s0 x w w0 Hs E0) E)
      as [n1 [L1 [S1 B1]]].
    exists (n0 ++ n1). split; [rewrite L1, L0, app_assoc; reflexivity|].
    split; [congruence|].
    rewrite B1, B0, S0, pointPlayed_app, orb_assoc. reflexivity.
Qed.

Lemma playRound_hearts (st st' : State) (w w' : World Trace) :
  Seated st w ->
  playRound policies st w = (w', Ok st') ->
  exists new,
    log w' = log w ++ new /\
    simplified st' = simplified st /\
    heartsBroken st' = heartsBroken st || pointPlayed (simplified st) new.
Proof.
  unfold playRound. unfold bind at 1. intros Hs H.
  destruct (forOf (range 4) (playTurn policies) st w) as [w1 [s1|e]] eqn:E;
    [|discriminate].
  destruct (playTurns_hearts (range 4) st s1 w w1 Hs E) as [n0 [L0 [S0 B0]]].
  destruct (playTurns_keep policies (range 4) st s1 w w1 Hs E) as [Hs1 _].
  destruct (resolveTrick_hearts s1 st' w1 w' ltac:(apply Hs1) H) as [n1 [L1 [S1 B1]]].
  exists (n0 ++ n1). split; [rewrite L1, L0, app_assoc; reflexivity|].
  split; [congruence|].
  rewrite B1, B0, S0, pointPlayed_app, orb_assoc. reflexivity.
Qed.

End Hearts.

(** X21. Over any number of rounds that go through, whatever the policies
    answer, the mode is kept and [heartsBroken] is set at the end exactly
    when it was set at the start or a card worth points in that mode was
    played in between. *)
Theorem heartsBroken_iff_points_played {Trace : Type}
        (policies : list (Policy Trace)) (xs : list nat) (st st' : State)
        (w w' : World Trace) :
  Seated st w ->
  forOf xs (fun state _ => playRound policies state) st w = (w', Ok st') ->
  exists new,
    log w' = log w ++ new /\
    simplified st' = simplified st /\
    heartsBroken st' = heartsBroken st || pointPlayed (simplified st) new.
Proof.
  revert st w. induction xs as [|x xs IH]; intros st w Hs E; simpl in E.
  - inversion E. subst. exists []. split; [rewrite app_nil_r; reflexivity|].
    split; [reflexivity|]. unfold pointPlayed. cbn [recordedPlays flat_map existsb].
    rewrite orb_false_r. reflexivity.
  - unfold bind in E. destruct (playRound policies st w) as [w0 [s0|e0]] eqn:E0;
      [|discriminate].
    destruct (playRound_hearts policies st s0 w w0 Hs E0) as [n0 [L0 [S0 B0]]].
    destruct (IH s0 w0 (playRound_Seated policies st s0 w w0 Hs E0) E)
      as [n1 [L1 [S1 B1]]].
    exists (n0 ++ n1). split; [rewrite L1, L0, app_assoc; reflexivity|].
    split; [congruence|].
    rewrite B1, B0, S0, pointPlayed_app, orb_assoc. reflexivity.
Qed.

(** The last round of a game, hearts broken before it. *)
Lemma heartsBroken_iff_points_played_witness :
  exists st' w' new,
    forOf [0%nat] (fun state _ => playRound four_offerAll state) example_last_round
          (mkWorld [] 4) = (w', Ok st') /\
    log w' = [] ++ new /\
    simplified st' = false /\
    heartsBroken st' = true || pointPlayed false new.
Proof.
  destruct (forOf [0%nat] (fun state _ => playRound four_offerAll state)
                  example_last_round (mkWorld [] 4)) as [w' [st'|e]] eqn:E;
    [|vm_compute in E; discriminate E].
  destruct (heartsBroken_iff_points_played four_offerAll [0%nat] example_last_round
              st' (mkWorld [] 4) w' example_last_round_Seated E) as [new H].
  exists st', w', new. split; [reflexivity | exact H].
Defined.
